(** * Korean nonce-word stimuli: generator, lexicon filter, stratified sampler

    A shallow embedding of [generate.py] (whose generators [kor.py] repeats
    verbatim) and of [stratify.py], followed by the properties the
    specification states about them.

    Python [str] values are sequences of Unicode code points, so they are
    modelled as [list N]; string literals of the source are written
    [lit "..."], which decodes the UTF-8 bytes of the literal. *)

From Stdlib Require Import String Ascii.
From stdpp Require Import gmap list.

Local Open Scope N_scope.

(* ===================================================================== *)
(** ** Python strings *)
(* ===================================================================== *)

Abbreviation str := (list N).

(** UTF-8 decoding of the bytes of a literal (1- to 4-byte sequences). *)
Fixpoint utf8_decode (bs : list N) : str :=
  match bs with
  | [] => []
  | b0 :: r0 =>
    if b0 <? 128 then b0 :: utf8_decode r0
    else if b0 <? 224 then
      match r0 with
      | b1 :: r1 => ((b0 mod 32) * 64 + b1 mod 64) :: utf8_decode r1
      | _ => []
      end
    else if b0 <? 240 then
      match r0 with
      | b1 :: b2 :: r2 =>
        ((b0 mod 16) * 4096 + (b1 mod 64) * 64 + b2 mod 64) :: utf8_decode r2
      | _ => []
      end
    else
      match r0 with
      | b1 :: b2 :: b3 :: r3 =>
        ((b0 mod 8) * 262144 + (b1 mod 64) * 4096 + (b2 mod 64) * 64 + b3 mod 64)
          :: utf8_decode r3
      | _ => []
      end
  end.

Definition lit (s : string) : str :=
  utf8_decode (N_of_ascii <$> list_ascii_of_string s).

(** [s.startswith(p)] *)
Fixpoint startswith (s p : str) {struct p} : bool :=
  match p, s with
  | [], _ => true
  | _ :: _, [] => false
  | c :: p', d :: s' => (c =? d)%N && startswith s' p'
  end.

(** Truth value of a string: [bool(s)]. *)
Definition truthy (s : str) : bool :=
  match s with [] => false | _ :: _ => true end.

(* ===================================================================== *)
(** ** Exceptions and the error monad *)
(* ===================================================================== *)

Inductive exn :=
| IndexError
| KeyError (key : str)
| TypeError
| AttributeError
| UnboundLocalError (name : str)
| ValueError
| Error (msg : str)                       (* generate.Error *)
| AssertionError (shape : str) (n : nat)  (* assert ..., (shape, len(elist)) *)
| OtherError (name : str).                (* any other exception of a collaborator *)

Inductive exc (A : Type) :=
| Ok (a : A)
| Raise (e : exn).
Arguments Ok {A} a.
Arguments Raise {A} e.

#[global] Instance exc_ret : MRet exc := λ A a, Ok a.
#[global] Instance exc_bind : MBind exc := λ A B f m,
  match m with Ok a => f a | Raise e => Raise e end.
#[global] Instance exc_fmap : FMap exc := λ A B f m,
  match m with Ok a => Ok (f a) | Raise e => Raise e end.

Definition is_ok {A} (m : exc A) : bool :=
  match m with Ok _ => true | Raise _ => false end.

(** [for x in xs: body], the loop body transforming the state of the
    enclosing function; [continue] is [Ok s]. *)
Fixpoint for_ {A S : Type} (xs : list A) (body : A → S → exc S) (s : S) : exc S :=
  match xs with
  | [] => Ok s
  | x :: xs' => s' ← body x s; for_ xs' body s'
  end.

(** [s[0]] and [s[-1]] raise [IndexError] on the empty string; the slices
    [s[1:]] and [s[:-1]] never raise. *)
Definition getitem0 (s : str) : exc str :=
  match s with [] => Raise IndexError | c :: _ => Ok [c] end.

Definition getitem_last (s : str) : exc str :=
  match last s with None => Raise IndexError | Some c => Ok [c] end.

Definition slice_from1 (s : str) : str := tail s.
Definition slice_to_last (s : str) : str := removelast s.

Local Close Scope N_scope.

(** [itertools.permutations(xs, 2)]: ordered pairs of elements at two
    different positions, in lexicographic order of the positions. *)
Fixpoint permutations2_from {A} (before xs : list A) : list (A * A) :=
  match xs with
  | [] => []
  | x :: after =>
    (pair x <$> (reverse before ++ after)) ++ permutations2_from (x :: before) after
  end.

Definition permutations2 {A} (xs : list A) : list (A * A) :=
  permutations2_from [] xs.

(** [itertools.product(xs, ys)] *)
Definition product {A B} (xs : list A) (ys : list B) : list (A * B) :=
  x ← xs; pair x <$> ys.

(* ===================================================================== *)
(** ** Phoneme inventories (generate.py, kor.py) *)
(* ===================================================================== *)

Definition PLAIN_STOP_ONSETS : list str := [lit "p"; lit "t"; lit "c"; lit "k"].
Definition ASPIRATED_STOP_ONSETS : list str := [lit "pʰ"; lit "tʰ"; lit "cʰ"; lit "kʰ"].
Definition STOP_ONSETS : list str := PLAIN_STOP_ONSETS ++ ASPIRATED_STOP_ONSETS.
Definition NASAL_ONSETS : list str := [lit "m"; lit "n"].
Definition SIMPLE_ONSETS : list str := STOP_ONSETS ++ [lit "s"] ++ NASAL_ONSETS.

Definition FRONT_VOWELS : list str := [lit "i"; lit "a"].
Definition BACK_VOWELS : list str := [lit "o"; lit "u"].
Definition VOWELS : list str := FRONT_VOWELS ++ BACK_VOWELS.

Definition NASAL_CODAS : list str := [lit "m"; lit "n"; lit "ŋ"].
Definition STOP_CODAS : list str := [lit "p̚"; lit "t̚"; lit "k̚"].
Definition CODAS : list str := NASAL_CODAS ++ STOP_CODAS.

Definition HANGUL_ONSET : gmap str str :=
  list_to_map
    [ (lit "p", lit "ㅂ"); (lit "t", lit "ㄷ"); (lit "c", lit "ㅈ"); (lit "k", lit "ㄱ");
      (lit "pʰ", lit "ㅍ"); (lit "tʰ", lit "ㅌ"); (lit "cʰ", lit "ㅊ"); (lit "kʰ", lit "ㅋ");
      (lit "s", lit "ᄉ"); (lit "m", lit "ᄆ"); (lit "n", lit "ᄂ") ].

Definition HANGUL_NUCLEUS : gmap str str :=
  list_to_map
    [ (lit "a", lit "ㅏ"); (lit "o", lit "ㅗ"); (lit "u", lit "ㅜ"); (lit "i", lit "ㅣ");
      (lit "wa", lit "ㅘ"); (lit "wi", lit "ㅟ") ].

Definition HANGUL_CODA : gmap str str :=
  list_to_map
    [ (lit "p̚", lit "ᆸ"); (lit "t̚", lit "ᆮ"); (lit "k̚", lit "ᆨ");
      (lit "m", lit "ᆷ"); (lit "n", lit "ᆫ"); (lit "ŋ", lit "ᆼ") ].

(** [d[k]] on a dictionary. *)
Definition getitem (d : gmap str str) (k : str) : exc str :=
  match d !! k with Some v => Ok v | None => Raise (KeyError k) end.

(** [del d[k]] *)
Definition delitem (d : gmap str str) (k : str) : exc (gmap str str) :=
  match d !! k with Some _ => Ok (delete k d) | None => Raise (KeyError k) end.

(* ===================================================================== *)
(** ** Syllable records *)
(* ===================================================================== *)

Record Monosyllable := mkMonosyllable {
  onset : str;
  nucleus : str;
  coda : option str;
  shape : option str
}.

Record Bisyllable := mkBisyllable {
  syl1 : Monosyllable;
  syl2 : Monosyllable;
  bi_shape : str
}.

#[global] Instance Monosyllable_eq_dec : EqDecision Monosyllable.
Proof. solve_decision. Defined.
#[global] Instance Bisyllable_eq_dec : EqDecision Bisyllable.
Proof. solve_decision. Defined.

(** [Monosyllable.jamo_tuple] *)
Definition jamo_tuple (self : Monosyllable) : exc (str * str * str) :=
  spelled_onset ←
    (if bool_decide (shape self ∈ [Some (lit "CV"); Some (lit "CVC");
                                    Some (lit "CwV"); Some (lit "CwVC")])
     then getitem HANGUL_ONSET (onset self)
     else match shape self with
          | None => Raise AttributeError
          | Some sh =>
            if startswith sh (lit "NCV") then
              c0 ← getitem0 (onset self);
              g0 ← getitem HANGUL_ONSET c0;
              g1 ← getitem HANGUL_ONSET (slice_from1 (onset self));
              Ok (g0 ++ g1)
            else if startswith sh (lit "CNV") then
              g0 ← getitem HANGUL_ONSET (slice_to_last (onset self));
              c1 ← getitem_last (onset self);
              g1 ← getitem HANGUL_ONSET c1;
              Ok (g0 ++ g1)
            else Raise (Error (lit "Unknown shape: " ++ sh))
          end);
  spelled_nucleus ← getitem HANGUL_NUCLEUS (nucleus self);
  spelled_coda ←
    match coda self with
    | Some c => if truthy c then getitem HANGUL_CODA c else Ok []
    | None => Ok []
    end;
  Ok (spelled_onset, spelled_nucleus, spelled_coda).

(** [Monosyllable.jamo] *)
Definition jamo (self : Monosyllable) : exc str :=
  '(o, n, c) ← jamo_tuple self; Ok (o ++ n ++ c).

(* ===================================================================== *)
(** ** The generators *)
(* ===================================================================== *)

(** [yield y]: the values yielded so far are kept most recent first. *)
Definition yield_mono (m : Monosyllable) (out : list Monosyllable) : exc (list Monosyllable) :=
  Ok (m :: out).

(** The four blocks of [_monosyllables]. Plain. *)
Definition plain_monosyllables : list Monosyllable → exc (list Monosyllable) :=
  for_ SIMPLE_ONSETS (λ onset,
  for_ VOWELS (λ vowel,
  for_ CODAS (λ coda out,
    c ← getitem0 onset;
    if startswith coda c then Ok out
    else yield_mono (mkMonosyllable onset vowel (Some coda) (Some (lit "CVC"))) out))).

(** Cw. *)
Definition glide_monosyllables : list Monosyllable → exc (list Monosyllable) :=
  for_ STOP_ONSETS (λ onset,
  for_ FRONT_VOWELS (λ vowel,
  for_ CODAS (λ coda out,
    c ← getitem0 onset;
    if startswith coda c then Ok out
    else yield_mono (mkMonosyllable onset (lit "w" ++ vowel) (Some coda)
                       (Some (lit "CwVC"))) out))).

(** Prenasal. *)
Definition prenasal_monosyllables : list Monosyllable → exc (list Monosyllable) :=
  for_ STOP_ONSETS (λ stop,
  for_ NASAL_ONSETS (λ nasal,
    let onset := nasal ++ stop in
    for_ VOWELS (λ vowel,
    for_ STOP_CODAS (λ coda out,
      c ← getitem0 stop;
      if startswith coda c then Ok out
      else yield_mono (mkMonosyllable onset vowel (Some coda) (Some (lit "NCVC"))) out)))).

(** Postnasal. *)
Definition postnasal_monosyllables : list Monosyllable → exc (list Monosyllable) :=
  for_ STOP_ONSETS (λ stop,
  for_ NASAL_ONSETS (λ nasal,
    let onset := stop ++ nasal in
    for_ VOWELS (λ vowel,
    for_ STOP_CODAS (λ coda out,
      c ← getitem0 stop;
      if startswith coda c then Ok out
      else yield_mono (mkMonosyllable onset vowel (Some coda) (Some (lit "CNVC"))) out)))).

(** [_monosyllables()], run to exhaustion. *)
Definition _monosyllables : exc (list Monosyllable) :=
  out ← Ok [];
  out ← plain_monosyllables out;
  out ← glide_monosyllables out;
  out ← prenasal_monosyllables out;
  out ← postnasal_monosyllables out;
  Ok (reverse out).

(** The frame of [_disyllables]: the local variable [syl2], which is
    assigned inside the coda loops and read by [yield], and the values
    yielded so far (most recent first). *)
Record frame := mkFrame {
  syl2_var : option Monosyllable;
  yielded : list Bisyllable
}.

Definition assign_syl2 (m : Monosyllable) (f : frame) : frame :=
  mkFrame (Some m) (yielded f).

(** [yield Bisyllable(syl1, syl2, shape)]: reading [syl2] before any
    assignment raises [UnboundLocalError]. *)
Definition yield_bi (s1 : Monosyllable) (sh : str) (f : frame) : exc frame :=
  match syl2_var f with
  | None => Raise (UnboundLocalError (lit "syl2"))
  | Some s2 => Ok (mkFrame (syl2_var f) (mkBisyllable s1 s2 sh :: yielded f))
  end.

(** The [continue] guarding the pairs of onsets of the first two families. *)
Definition similar_onsets (onset1 onset2 : str) : bool :=
  startswith onset1 onset2 || startswith onset2 onset1.

(** The four blocks of [_disyllables], each a loop nest over the frame.
    Plain: the [yield] stands after the coda loop. *)
Definition plain_family : frame → exc frame :=
  for_ (permutations2 SIMPLE_ONSETS) (λ '(onset1, onset2) f,
    if similar_onsets onset1 onset2 then Ok f
    else
      for_ (permutations2 VOWELS) (λ '(vowel1, vowel2) f,
        let syl1 := mkMonosyllable onset1 vowel1 None (Some (lit "CV")) in
        f ← for_ CODAS (λ coda f,
              c ← getitem0 onset2;
              if startswith coda c then Ok f
              else Ok (assign_syl2
                         (mkMonosyllable onset2 vowel2 (Some coda) (Some (lit "CVC"))) f)) f;
        yield_bi syl1 (lit "CVCVC") f) f).

(** Cw. *)
Definition glide_family : frame → exc frame :=
  for_ (permutations2 SIMPLE_ONSETS) (λ '(onset1, onset2) f,
    if similar_onsets onset1 onset2 then Ok f
    else
      for_ (product FRONT_VOWELS VOWELS) (λ '(vowel1, vowel2) f,
        let syl1 := mkMonosyllable onset1 (lit "w" ++ vowel1) None (Some (lit "CwV")) in
        for_ CODAS (λ coda f,
          c ← getitem0 onset2;
          if startswith coda c then Ok f
          else
            let f := assign_syl2
                       (mkMonosyllable onset2 vowel2 (Some coda) (Some (lit "CVC"))) f in
            yield_bi syl1 (lit "CwVCVC") f) f) f).

(** Prenasal. *)
Definition prenasal_family : frame → exc frame :=
  for_ STOP_ONSETS (λ stop,
  for_ NASAL_ONSETS (λ nasal,
    let onset1 := nasal ++ stop in
    for_ (permutations2 VOWELS) (λ '(vowel1, vowel2),
      let syl1 := mkMonosyllable onset1 vowel1 None (Some (lit "NCV")) in
      for_ SIMPLE_ONSETS (λ onset2 f,
        if startswith onset2 stop then Ok f
        else
          for_ CODAS (λ coda f,
            c ← getitem0 onset2;
            if startswith coda c then Ok f
            else
              let f := assign_syl2
                         (mkMonosyllable onset2 vowel2 (Some coda) (Some (lit "CVC"))) f in
              yield_bi syl1 (lit "NCVCVC") f) f)))).

(** Postnasal. *)
Definition postnasal_family : frame → exc frame :=
  for_ STOP_ONSETS (λ stop,
  for_ NASAL_ONSETS (λ nasal,
    let onset1 := stop ++ nasal in
    for_ (permutations2 VOWELS) (λ '(vowel1, vowel2),
      let syl1 := mkMonosyllable onset1 vowel1 None (Some (lit "CNV")) in
      for_ SIMPLE_ONSETS (λ onset2 f,
        if startswith onset2 stop then Ok f
        else
          for_ CODAS (λ coda f,
            c ← getitem0 onset2;
            if startswith coda c then Ok f
            else
              let f := assign_syl2
                         (mkMonosyllable onset2 vowel2 (Some coda) (Some (lit "CVC"))) f in
              yield_bi syl1 (lit "CNVCVC") f) f)))).

(** [_disyllables()], run to exhaustion. *)
Definition _disyllables : exc (list Bisyllable) :=
  f ← Ok (mkFrame None []);
  f ← plain_family f;
  f ← glide_family f;
  f ← prenasal_family f;
  f ← postnasal_family f;
  Ok (reverse (yielded f)).

(* ===================================================================== *)
(** ** Composition, romanization and the lexicon pass (generate.py) *)
(* ===================================================================== *)

Abbreviation line := (list (option str)).

Section Collaborators.
(** The two external routines: [jamo.jamo_to_hangul] and
    [korean_romanizer.Romanizer(hangul).romanize()]. *)
Variable jamo_to_hangul : str → str → str → exc str.
Variable romanizer : str → exc str.

Definition _romanize (hangul : str) : exc str := romanizer hangul.

(** [Monosyllable.hangul] *)
Definition hangul (self : Monosyllable) : exc str :=
  '(spelled_onset, spelled_nucleus, spelled_coda) ← jamo_tuple self;
  match jamo_to_hangul spelled_onset spelled_nucleus spelled_coda with
  | Raise TypeError => Ok []
  | r => r
  end.

(** [Monosyllable.romanization] *)
Definition romanization (self : Monosyllable) : exc str :=
  h ← hangul self; _romanize h.

(** [Monosyllable.line] *)
Definition mono_line (self : Monosyllable) : exc line :=
  j ← jamo self;
  h ← hangul self;
  r ← romanization self;
  Ok [Some (onset self); Some (nucleus self); coda self; shape self;
      Some j; Some h; Some r].

(** [Bisyllable.jamo] *)
Definition bi_jamo (self : Bisyllable) : exc str :=
  j1 ← jamo (syl1 self); j2 ← jamo (syl2 self); Ok (j1 ++ j2).

(** [Bisyllable.hangul] *)
Definition bi_hangul (self : Bisyllable) : exc str :=
  hangul1 ← hangul (syl1 self);
  hangul2 ← hangul (syl2 self);
  if negb (truthy hangul1) || negb (truthy hangul2) then Ok []
  else Ok (hangul1 ++ hangul2).

(** [Bisyllable.romanization] *)
Definition bi_romanization (self : Bisyllable) : exc str :=
  h ← bi_hangul self; _romanize h.

(** [Bisyllable.line] *)
Definition bi_line (self : Bisyllable) : exc line :=
  j ← bi_jamo self;
  h ← bi_hangul self;
  r ← bi_romanization self;
  Ok [Some (onset (syl1 self)); Some (nucleus (syl1 self));
      Some (onset (syl2 self)); Some (nucleus (syl2 self)); coda (syl2 self);
      Some (bi_shape self); Some j; Some h; Some r].

(** The lexicon loop of [main]: only [KeyError] and [AttributeError] of
    the romanizer are caught. *)
Definition load_lexicon (source : list (str * str)) : exc (gset str) :=
  for_ source (λ '(word, _) lexicon,
    match _romanize word with
    | Ok r => Ok ({[ r ]} ∪ lexicon)
    | Raise (KeyError _) | Raise AttributeError => Ok lexicon
    | Raise e => Raise e
    end) ∅.

(** State of the disyllable pass of [main]: the counter [filtered], the
    rows handed to the writer and the pairs logged as lexical (both most
    recent first). *)
Record pass := mkPass {
  filtered : nat;
  written : list line;
  logged : list (str * str)
}.

Definition filter_entry (lexicon : gset str) (entry : Bisyllable) (p : pass) : exc pass :=
  r ← bi_romanization entry;
  if truthy r && bool_decide (r ∈ lexicon) then
    h ← bi_hangul entry;
    Ok (mkPass (filtered p + 1) (written p) ((h, r) :: logged p))
  else
    l ← bi_line entry;
    Ok (mkPass (filtered p) (l :: written p) (logged p)).

Definition filter_pass (lexicon : gset str) (entries : list Bisyllable) : exc pass :=
  p ← for_ entries (filter_entry lexicon) (mkPass 0 [] []);
  Ok (mkPass (filtered p) (reverse (written p)) (reverse (logged p))).

(** [main] of generate.py: the monosyllable table, then the lexicon, then
    the filtered disyllable table (header rows left out). *)
Definition generate_main (source : list (str * str)) : exc (list line * pass) :=
  monos ← _monosyllables;
  table1 ← for_ monos (λ entry rows, l ← mono_line entry; Ok (l :: rows)) [];
  lexicon ← load_lexicon source;
  entries ← _disyllables;
  p ← filter_pass lexicon entries;
  Ok (reverse table1, p).
End Collaborators.

(** [for word, _ in tsv_reader]: a row of the reader is unpacked into two
    names, which fails unless it has exactly two fields. *)
Definition unpack2 (fields : list str) : exc (str * str) :=
  match fields with
  | [word; gloss] => Ok (word, gloss)
  | _ => Raise ValueError
  end.

Section Reader.
Variable romanizer : str → exc str.

(** The lexicon loop of [main] on the rows [csv.reader] yields;
    [load_lexicon] is this loop on rows of two fields. *)
Definition read_lexicon (rows : list (list str)) : exc (gset str) :=
  for_ rows (λ fields lexicon,
    '(word, _) ← unpack2 fields;
    match _romanize romanizer word with
    | Ok r => Ok ({[ r ]} ∪ lexicon)
    | Raise (KeyError _) | Raise AttributeError => Ok lexicon
    | Raise e => Raise e
    end) ∅.
End Reader.

(* ===================================================================== *)
(** ** The tables of kor.py *)
(* ===================================================================== *)

(** kor.py has the records and the generators of generate.py without the
    romanization, and its [main] writes every value the generators yield. *)
Section KorMain.
Variable jamo_to_hangul : str → str → str → exc str.

(** [dataclasses.astuple(entry) + (entry.jamo, entry.hangul)] *)
Definition kor_mono_line (self : Monosyllable) : exc line :=
  j ← jamo self;
  h ← hangul jamo_to_hangul self;
  Ok [Some (onset self); Some (nucleus self); coda self; shape self; Some j; Some h].

(** The list [main] writes for a disyllable. *)
Definition kor_bi_line (self : Bisyllable) : exc line :=
  j ← bi_jamo self;
  h ← bi_hangul jamo_to_hangul self;
  Ok [Some (onset (syl1 self)); Some (nucleus (syl1 self));
      Some (onset (syl2 self)); Some (nucleus (syl2 self)); coda (syl2 self);
      Some (bi_shape self); Some j; Some h].

(** [main] of kor.py: the two tables (header rows left out). *)
Definition kor_main : exc (list line * list line) :=
  monos ← _monosyllables;
  table1 ← for_ monos (λ entry rows, l ← kor_mono_line entry; Ok (l :: rows)) [];
  entries ← _disyllables;
  table2 ← for_ entries (λ entry rows, l ← kor_bi_line entry; Ok (l :: rows)) [];
  Ok (reverse table1, reverse table2).
End KorMain.

(** The header rows [main] of generate.py writes. *)
Definition MONO_HEADER : list str :=
  [lit "onset"; lit "nucleus"; lit "coda"; lit "shape"; lit "jamo"; lit "hangul";
   lit "romanization"].

Definition DI_HEADER : list str :=
  [lit "onset1"; lit "nucleus1"; lit "onset2"; lit "nucleus2"; lit "coda"; lit "shape";
   lit "jamo"; lit "hangul"; lit "romanization"].

(* ===================================================================== *)
(** ** The stratified sampler (stratify.py) *)
(* ===================================================================== *)

Abbreviation row := (gmap str str).

Definition SEED : Z := 1568.

(** The body of the loop of [_proc_file] on one row of the reader. *)
Definition _proc_row (r : row) (out : list (str * row)) : exc (list (str * row)) :=
  lexicality ← getitem r (lit "lexicality");
  if bool_decide (lexicality ≠ lit "FALSE") then Ok out
  else
    r ← delitem r (lit "lexicality");
    r ← delitem r (lit "memo");
    shape ← getitem r (lit "shape");
    onset1 ← getitem r (lit "onset1");
    nucleus1 ← getitem r (lit "nucleus1");
    onset2 ← getitem r (lit "onset2");
    nucleus2 ← getitem r (lit "nucleus2");
    coda ← getitem r (lit "coda");
    let r := <[ lit "transcription" := onset1 ++ nucleus1 ++ onset2 ++ nucleus2 ++ coda ]> r in
    Ok ((shape, r) :: out).

(** [_proc_file(path)], on the rows [csv.DictReader] reads from [path]. *)
Definition _proc_file (source : list row) : exc (list (str * row)) :=
  reverse <$> for_ source _proc_row [].

(** [by_shape[shape].append(row)] on the insertion-ordered
    [defaultdict(list)]. *)
Fixpoint by_shape_append (by_shape : list (str * list row)) (shape : str) (r : row)
    : list (str * list row) :=
  match by_shape with
  | [] => [(shape, [r])]
  | (k, entries) :: rest =>
    if bool_decide (k = shape) then (k, entries ++ [r]) :: rest
    else (k, entries) :: by_shape_append rest shape r
  end.

Definition group_by_shape (ys : list (str * row)) : list (str * list row) :=
  foldl (λ d '(shape, r), by_shape_append d shape r) [] ys.

(** The special cases for sizing. *)
Definition draw_size (shape : str) : nat :=
  if bool_decide (shape ∈ [lit "CVC"; lit "CwVC"; lit "CNVC"; lit "NCVC"]) then 5 else 10.

(** [xs[a:b]] for [0 ≤ a ≤ b]. *)
Definition slice {A} (a b : nat) (xs : list A) : list A := take (b - a) (drop a xs).

(** What [csv.DictWriter] leaves in a file: nothing yet, or the header and
    the rows written. *)
Inductive file :=
| Empty
| Table (fieldnames : gset str) (rows : list row).

(** The two output files; [None] is a file that was never opened. *)
Record files := mkFiles {
  LIST1 : option file;
  LIST2 : option file
}.

(** [DictWriter.writerows]: rows are written one by one, and a row with a
    key outside [fieldnames] raises [ValueError]. *)
Fixpoint writerows (fieldnames : gset str) (rs : list row) : list row * option exn :=
  match rs with
  | [] => ([], None)
  | r :: rs' =>
    if bool_decide (dom r ⊆ fieldnames) then
      let '(w, e) := writerows fieldnames rs' in (r :: w, e)
    else ([], Some ValueError)
  end.

Section Sampler.
(** The global pseudo-random source: [random.seed] and [random.shuffle]. *)
Context {rng : Type}.
Variable seed : Z → rng.
Variable shuffle : rng → list row → rng * list row.

Record sampler := mkSampler {
  gen : rng;
  list1 : list row;
  list2 : list row
}.

(** The body of [for shape, entries in by_shape.items()]. *)
Definition sample_group (group : str * list row) (s : sampler) : exc sampler :=
  let '(shape, entries) := group in
  let elist := entries in
  let size := draw_size shape in
  if bool_decide (size * 2 ≤ length elist) then
    let '(g, elist) := shuffle (gen s) elist in
    Ok (mkSampler g (list1 s ++ slice 0 size elist)
                    (list2 s ++ slice size (2 * size) elist))
  else Raise (AssertionError shape (length elist)).

(** [main] up to the two final shuffles: the last row bound to the loop
    variable [row], and the two lists. *)
Definition main_lists (mono di : list row) : exc (option row * list row * list row) :=
  let g := seed SEED in
  ys1 ← _proc_file mono;
  ys2 ← _proc_file di;
  let by_shape := group_by_shape (ys1 ++ ys2) in
  let row_var := last (snd <$> (ys1 ++ ys2)) in
  s ← for_ by_shape sample_group (mkSampler g [] []);
  let '(g, l1) := shuffle (gen s) (list1 s) in
  let '(g, l2) := shuffle g (list2 s) in
  Ok (row_var, l1, l2).

(** [main]: the files it leaves and the exception it ends with, if any. *)
Definition main (mono di : list row) : files * option exn :=
  match main_lists mono di with
  | Raise e => (mkFiles None None, Some e)
  | Ok (row_var, l1, l2) =>
    match row_var with
    | None => (mkFiles (Some Empty) None, Some (UnboundLocalError (lit "row")))
    | Some r =>
      let '(w1, e1) := writerows (dom r) l1 in
      match e1 with
      | Some e => (mkFiles (Some (Table (dom r) w1)) None, Some e)
      | None =>
        let '(w2, e2) := writerows (dom r) l2 in
        (mkFiles (Some (Table (dom r) w1)) (Some (Table (dom r) w2)), e2)
      end
    end
  end.
End Sampler.

(* ===================================================================== *)
(** * Vocabulary of the properties *)
(* ===================================================================== *)

(** The predicates, lists and concrete inputs the properties below are
    stated with. *)

(** The four families of [_monosyllables], read off its loops: which
    choices of the loop variables reach a [yield]. *)
Inductive monosyllable_rule : Monosyllable → Prop :=
| mono_plain onset vowel coda c :
    onset ∈ SIMPLE_ONSETS → vowel ∈ VOWELS → coda ∈ CODAS →
    getitem0 onset = Ok c → startswith coda c = false →
    monosyllable_rule (mkMonosyllable onset vowel (Some coda) (Some (lit "CVC")))
| mono_glide onset vowel coda c :
    onset ∈ STOP_ONSETS → vowel ∈ FRONT_VOWELS → coda ∈ CODAS →
    getitem0 onset = Ok c → startswith coda c = false →
    monosyllable_rule (mkMonosyllable onset (lit "w" ++ vowel) (Some coda) (Some (lit "CwVC")))
| mono_prenasal stop nasal vowel coda c :
    stop ∈ STOP_ONSETS → nasal ∈ NASAL_ONSETS → vowel ∈ VOWELS → coda ∈ STOP_CODAS →
    getitem0 stop = Ok c → startswith coda c = false →
    monosyllable_rule (mkMonosyllable (nasal ++ stop) vowel (Some coda) (Some (lit "NCVC")))
| mono_postnasal stop nasal vowel coda c :
    stop ∈ STOP_ONSETS → nasal ∈ NASAL_ONSETS → vowel ∈ VOWELS → coda ∈ STOP_CODAS →
    getitem0 stop = Ok c → startswith coda c = false →
    monosyllable_rule (mkMonosyllable (stop ++ nasal) vowel (Some coda) (Some (lit "CNVC"))).

(** The last coda, in the order of [CODAS], that does not begin with the
    first character of [onset2]. *)
Definition last_admissible_coda (onset2 : str) : option str :=
  c ← head onset2; last (filter (λ coda, startswith coda [c] = false) CODAS).

(** The four families of [_disyllables], read off its loops. In the plain
    family the [yield] stands after the coda loop, so the coda is the one
    the loop leaves in [syl2]. *)
Inductive disyllable_rule : Bisyllable → Prop :=
| di_plain onset1 onset2 vowel1 vowel2 coda :
    (onset1, onset2) ∈ permutations2 SIMPLE_ONSETS →
    similar_onsets onset1 onset2 = false →
    (vowel1, vowel2) ∈ permutations2 VOWELS →
    last_admissible_coda onset2 = Some coda →
    disyllable_rule
      (mkBisyllable (mkMonosyllable onset1 vowel1 None (Some (lit "CV")))
                    (mkMonosyllable onset2 vowel2 (Some coda) (Some (lit "CVC")))
                    (lit "CVCVC"))
| di_glide onset1 onset2 vowel1 vowel2 coda c :
    (onset1, onset2) ∈ permutations2 SIMPLE_ONSETS →
    similar_onsets onset1 onset2 = false →
    (vowel1, vowel2) ∈ product FRONT_VOWELS VOWELS →
    coda ∈ CODAS → getitem0 onset2 = Ok c → startswith coda c = false →
    disyllable_rule
      (mkBisyllable (mkMonosyllable onset1 (lit "w" ++ vowel1) None (Some (lit "CwV")))
                    (mkMonosyllable onset2 vowel2 (Some coda) (Some (lit "CVC")))
                    (lit "CwVCVC"))
| di_prenasal stop nasal vowel1 vowel2 onset2 coda c :
    stop ∈ STOP_ONSETS → nasal ∈ NASAL_ONSETS →
    (vowel1, vowel2) ∈ permutations2 VOWELS →
    onset2 ∈ SIMPLE_ONSETS → startswith onset2 stop = false →
    coda ∈ CODAS → getitem0 onset2 = Ok c → startswith coda c = false →
    disyllable_rule
      (mkBisyllable (mkMonosyllable (nasal ++ stop) vowel1 None (Some (lit "NCV")))
                    (mkMonosyllable onset2 vowel2 (Some coda) (Some (lit "CVC")))
                    (lit "NCVCVC"))
| di_postnasal stop nasal vowel1 vowel2 onset2 coda c :
    stop ∈ STOP_ONSETS → nasal ∈ NASAL_ONSETS →
    (vowel1, vowel2) ∈ permutations2 VOWELS →
    onset2 ∈ SIMPLE_ONSETS → startswith onset2 stop = false →
    coda ∈ CODAS → getitem0 onset2 = Ok c → startswith coda c = false →
    disyllable_rule
      (mkBisyllable (mkMonosyllable (stop ++ nasal) vowel1 None (Some (lit "CNV")))
                    (mkMonosyllable onset2 vowel2 (Some coda) (Some (lit "CVC")))
                    (lit "CNVCVC")).

(** The loop invariant of [_disyllables]: what has been yielded obeys the
    rules. *)
Definition frame_ok (f : frame) : Prop := Forall disyllable_rule (yielded f).

(** The sequence [_disyllables] yields, as a list. *)
Definition disyllables_out : list Bisyllable :=
  match _disyllables with Ok out => out | Raise _ => [] end.

(** The sequence [_monosyllables] yields, as a list. *)
Definition monosyllables_out : list Monosyllable :=
  match _monosyllables with Ok out => out | Raise _ => [] end.

(** The plain-family values yielded for one choice of onsets and vowels. *)
Definition yielded_for (onset1 vowel1 onset2 vowel2 : str) (out : list Bisyllable) :=
  filter (λ b, bi_shape b = lit "CVCVC" ∧ onset (syl1 b) = onset1 ∧ nucleus (syl1 b) = vowel1
               ∧ onset (syl2 b) = onset2 ∧ nucleus (syl2 b) = vowel2) out.

(** The disyllable the plain family builds from its loop variables. *)
Definition plain_bisyllable (onset1 vowel1 onset2 vowel2 coda : str) : Bisyllable :=
  mkBisyllable (mkMonosyllable onset1 vowel1 None (Some (lit "CV")))
               (mkMonosyllable onset2 vowel2 (Some coda) (Some (lit "CVC")))
               (lit "CVCVC").

(** What the plain family yields, written as a list: for one pair of
    onsets, and in all. *)
Definition plain_vowels (onset1 onset2 : str) : list Bisyllable :=
  '(vowel1, vowel2) ← permutations2 VOWELS;
  match last_admissible_coda onset2 with
  | Some coda => [plain_bisyllable onset1 vowel1 onset2 vowel2 coda]
  | None => []
  end.

Definition plain_list : list Bisyllable :=
  '(onset1, onset2) ← permutations2 SIMPLE_ONSETS;
  if similar_onsets onset1 onset2 then [] else plain_vowels onset1 onset2.

(** The loop invariant of the three later families: they add to the plain
    family's values only values of other shapes. *)
Definition later_ok (f : frame) : Prop :=
  ∃ extra, yielded f = extra ++ reverse plain_list
           ∧ Forall (λ b, bi_shape b ≠ lit "CVCVC") extra.

(** The stop that governs the coda exclusion: the onset itself for the
    atomic shapes, and the stop member of a cluster as [jamo_tuple] splits
    it ([onset[1:]] for NCV shapes, [onset[:-1]] for CNV shapes). *)
Definition governing_stop (m : Monosyllable) : str :=
  if bool_decide (shape m ∈ [Some (lit "CV"); Some (lit "CVC");
                              Some (lit "CwV"); Some (lit "CwVC")])
  then onset m
  else match shape m with
       | Some sh =>
         if startswith sh (lit "NCV") then slice_from1 (onset m)
         else if startswith sh (lit "CNV") then slice_to_last (onset m)
         else onset m
       | None => onset m
       end.

(** The coda does not begin with the first character of the governing stop. *)
Definition coda_dissimilar (m : Monosyllable) : Prop :=
  ∃ cd c, coda m = Some cd ∧ head (governing_stop m) = Some c ∧ startswith cd [c] = false.

(** Neither onset is a prefix of the other. *)
Definition onsets_dissimilar (b : Bisyllable) : Prop :=
  startswith (onset (syl1 b)) (onset (syl2 b)) = false
  ∧ startswith (onset (syl2 b)) (onset (syl1 b)) = false.

(** The descriptor the specification names as excluded. *)
Definition pap : Monosyllable :=
  mkMonosyllable (lit "p") (lit "a") (Some (lit "p̚")) (Some (lit "CVC")).

(** What the guards of the four families give for the two onsets. *)
Definition onsets_guarded (b : Bisyllable) : Prop :=
  bi_shape b ∈ [lit "CVCVC"; lit "CwVCVC"; lit "NCVCVC"; lit "CNVCVC"]
  ∧ startswith (onset (syl2 b)) (onset (syl1 b)) = false
  ∧ (bi_shape b ∈ [lit "CVCVC"; lit "CwVCVC"] →
     startswith (onset (syl1 b)) (onset (syl2 b)) = false)
  ∧ (bi_shape b ∈ [lit "NCVCVC"; lit "CNVCVC"] →
     startswith (onset (syl2 b)) (governing_stop (syl1 b)) = false).

(** The two nuclei differ, and why: by the glide prefix in the glide
    family, as a pair of distinct vowels elsewhere. *)
Definition nuclei_distinct (b : Bisyllable) : Prop :=
  nucleus (syl1 b) ≠ nucleus (syl2 b)
  ∧ (bi_shape b = lit "CwVCVC" →
     startswith (nucleus (syl1 b)) (lit "w") = true
     ∧ startswith (nucleus (syl2 b)) (lit "w") = false)
  ∧ (bi_shape b ≠ lit "CwVCVC" →
     (nucleus (syl1 b), nucleus (syl2 b)) ∈ permutations2 VOWELS).

(** The columns [_proc_file] reads or deletes. *)
Definition COLUMNS : list str :=
  [lit "lexicality"; lit "memo"; lit "shape"; lit "onset1"; lit "nucleus1";
   lit "onset2"; lit "nucleus2"; lit "coda"].

(** A row of a table whose header has these columns. *)
Definition has_columns (r : row) : Prop := Forall (λ k, is_Some (r !! k)) COLUMNS.

(** A row is retained when its lexicality is exactly "FALSE". *)
Definition retained (r : row) : Prop := r !! lit "lexicality" = Some (lit "FALSE").

(** The value of a column, empty when the column is missing. *)
Definition field (r : row) (k : str) : str := default [] (r !! k).

(** The concatenation onset1, nucleus1, onset2, nucleus2, coda. *)
Definition transcription_of (r : row) : str :=
  field r (lit "onset1") ++ field r (lit "nucleus1") ++ field r (lit "onset2")
  ++ field r (lit "nucleus2") ++ field r (lit "coda").

(** What the specification says a retained row becomes. *)
Definition processed (r : row) : str * row :=
  (field r (lit "shape"),
   <[ lit "transcription" := transcription_of r ]>
     (delete (lit "memo") (delete (lit "lexicality") r))).

(** Every row of a group carries the group's key in its shape field. *)
Definition tagged (g : str * list row) : Prop :=
  Forall (λ r : row, r !! lit "shape" = Some g.1) g.2.

(** The precondition [main] asserts of a group. *)
Definition sufficient (g : str * list row) : Prop := draw_size g.1 * 2 ≤ length g.2.

(** The number of rows of shape [k] in a list. *)
Definition count_shape (k : str) (l : list row) : nat :=
  length (filter (λ r : row, r !! lit "shape" = Some k) l).

(** The rows the two calls of [_proc_file] yield, with their shapes. *)
Definition retained_rows (mono di : list row) : list (str * row) :=
  processed <$> filter retained (mono ++ di).

(** The rows of the groups with key [k], in order. *)
Definition rows_of_key (d : list (str * list row)) (k : str) : list row :=
  concat (filter (λ g : str * list row, g.1 = k) d).*2.

(** The four shapes drawn five to a list, and the four drawn ten to a list. *)
Definition MONO_SHAPES : list str := [lit "CVC"; lit "CwVC"; lit "CNVC"; lit "NCVC"].
Definition OTHER_SHAPES : list str := [lit "CVCVC"; lit "CwVCVC"; lit "NCVCVC"; lit "CNVCVC"].

(** The transcription column of a list of rows. *)
Definition transcriptions (l : list row) : list (option str) :=
  (λ r : row, r !! lit "transcription") <$> l.

(** A group with fewer rows than twice its draw size. *)
Definition deficient (g : str * list row) : Prop := length g.2 < 2 * draw_size g.1.

(** A pseudo-random source that permutes: the state counts the shuffles and
    each shuffle reverses its list. *)
Definition reversing_shuffle (g : nat) (l : list row) : nat * list row := (S g, reverse l).

(** A row of an annotated table. *)
Definition annotated (lexicality shape onset1 nucleus1 onset2 nucleus2 cd : str) : row :=
  list_to_map
    [(lit "onset1", onset1); (lit "nucleus1", nucleus1); (lit "onset2", onset2);
     (lit "nucleus2", nucleus2); (lit "coda", cd); (lit "shape", shape);
     (lit "lexicality", lexicality); (lit "memo", [])].

(** [n] ill-formed rows of one shape, with pairwise distinct transcriptions. *)
Definition sample_rows (shape : str) (n : nat) : list row :=
  (λ i, annotated (lit "FALSE") shape shape [] (lit "p") [N.of_nat (97 + i)] (lit "n"))
    <$> seq 0 n.

(** Two annotated tables with ten rows of each monosyllabic shape and
    twenty of each disyllabic shape. *)
Definition mono_table : list row := sh ← MONO_SHAPES; sample_rows sh 10.
Definition di_table : list row := sh ← OTHER_SHAPES; sample_rows sh 20.

(** Ten copies of one ill-formed CVC row. *)
Definition duplicated_table : list row :=
  replicate 10 (annotated (lit "FALSE") (lit "CVC") [] [] (lit "p") (lit "a") (lit "n")).

#[global] Instance sufficient_dec (g : str * list row) : Decision (sufficient g).
Proof. unfold sufficient. apply _. Defined.

#[global] Instance deficient_dec (g : str * list row) : Decision (deficient g).
Proof. unfold deficient. apply _. Defined.

#[global] Instance has_columns_dec (r : row) : Decision (has_columns r).
Proof. unfold has_columns. apply _. Defined.

(** A composition routine that fails, as [jamo.jamo_to_hangul] does with
    [TypeError], on an onset of more than one glyph, and otherwise joins
    the glyphs. *)
Definition toy_jamo_to_hangul (o n c : str) : exc str :=
  if bool_decide (length o = 1) then Ok (o ++ n ++ c) else Raise TypeError.

(** Three romanizers: one that raises on the empty string, one that never
    returns the empty string, and one that maps every non-empty string to
    "pan" and the empty string to itself. *)
Definition raising_romanizer (h : str) : exc str :=
  if truthy h then Ok h else Raise (KeyError h).

Definition constant_romanizer (h : str) : exc str := Ok (lit "x").

Definition pan_romanizer (h : str) : exc str := Ok (if truthy h then lit "pan" else []).

(** A yielded monosyllable of the prenasal family. *)
Definition mpat : Monosyllable :=
  mkMonosyllable (lit "mp") (lit "a") (Some (lit "t̚")) (Some (lit "NCVC")).

(** A plain disyllable and a prenasal one. *)
Definition two_entries : list Bisyllable :=
  [plain_bisyllable (lit "p") (lit "a") (lit "n") (lit "i") (lit "k̚");
   mkBisyllable (mkMonosyllable (lit "mp") (lit "i") None (Some (lit "NCV")))
                (mkMonosyllable (lit "t") (lit "a") (Some (lit "n")) (Some (lit "CVC")))
                (lit "NCVCVC")].

Section SampleLoop.
Context {rng : Type}.
Variable seed : Z → rng.
Variable shuffle : rng → list row → rng * list row.

(** The loop of [main] over the shape groups, from the seeded source. *)
Definition sample_loop (mono di : list row) : exc sampler :=
  for_ (group_by_shape (retained_rows mono di)) (sample_group shuffle)
       (mkSampler (seed SEED) [] []).
End SampleLoop.

Section Lexical.
Variable jamo_to_hangul : str → str → str → exc str.
Variable romanizer : str → exc str.

(** A disyllable is lexical when its romanization is non-empty and occurs
    in the lookup set. *)
Definition lexical (lexicon : gset str) (entry : Bisyllable) : Prop :=
  match bi_romanization jamo_to_hangul romanizer entry with
  | Ok r => r ≠ [] ∧ r ∈ lexicon
  | Raise _ => False
  end.

#[global] Instance lexical_dec lexicon entry : Decision (lexical lexicon entry).
Proof.
  unfold lexical. destruct (bi_romanization jamo_to_hangul romanizer entry); apply _.
Defined.
End Lexical.

(** ** What the generators yield, as lists *)

(** What the coda loop of the three later families yields for one first
    syllable and one choice of the second onset and vowel. *)
Definition coda_yields (syl1 : Monosyllable) (sh onset2 vowel2 : str) : list Bisyllable :=
  coda ← CODAS;
  match getitem0 onset2 with
  | Ok c =>
    if startswith coda c then []
    else [mkBisyllable syl1 (mkMonosyllable onset2 vowel2 (Some coda) (Some (lit "CVC"))) sh]
  | Raise _ => []
  end.

(** The glide family, for one pair of onsets and in all. *)
Definition glide_vowels (onset1 onset2 : str) : list Bisyllable :=
  '(vowel1, vowel2) ← product FRONT_VOWELS VOWELS;
  coda_yields (mkMonosyllable onset1 (lit "w" ++ vowel1) None (Some (lit "CwV")))
              (lit "CwVCVC") onset2 vowel2.

Definition glide_list : list Bisyllable :=
  '(onset1, onset2) ← permutations2 SIMPLE_ONSETS;
  if similar_onsets onset1 onset2 then [] else glide_vowels onset1 onset2.

(** The two cluster families: for one first syllable, for one cluster, and
    in all. *)
Definition cluster_onsets (syl1 : Monosyllable) (sh stop vowel2 : str) : list Bisyllable :=
  onset2 ← SIMPLE_ONSETS;
  if startswith onset2 stop then [] else coda_yields syl1 sh onset2 vowel2.

Definition cluster_vowels (onset1 sh1 sh stop : str) : list Bisyllable :=
  '(vowel1, vowel2) ← permutations2 VOWELS;
  cluster_onsets (mkMonosyllable onset1 vowel1 None (Some sh1)) sh stop vowel2.

Definition prenasal_list : list Bisyllable :=
  stop ← STOP_ONSETS;
  nasal ← NASAL_ONSETS;
  cluster_vowels (nasal ++ stop) (lit "NCV") (lit "NCVCVC") stop.

Definition postnasal_list : list Bisyllable :=
  stop ← STOP_ONSETS;
  nasal ← NASAL_ONSETS;
  cluster_vowels (stop ++ nasal) (lit "CNV") (lit "CNVCVC") stop.

(** The four blocks of [_monosyllables], as one list. *)
Definition mono_codas (onset nucleus sh first : str) (codas : list str) : list Monosyllable :=
  coda ← codas;
  match getitem0 first with
  | Ok c =>
    if startswith coda c then [] else [mkMonosyllable onset nucleus (Some coda) (Some sh)]
  | Raise _ => []
  end.

Definition monosyllable_list : list Monosyllable :=
  (onset ← SIMPLE_ONSETS; vowel ← VOWELS; mono_codas onset vowel (lit "CVC") onset CODAS)
  ++ (onset ← STOP_ONSETS; vowel ← FRONT_VOWELS;
      mono_codas onset (lit "w" ++ vowel) (lit "CwVC") onset CODAS)
  ++ (stop ← STOP_ONSETS; nasal ← NASAL_ONSETS; vowel ← VOWELS;
      mono_codas (nasal ++ stop) vowel (lit "NCVC") stop STOP_CODAS)
  ++ (stop ← STOP_ONSETS; nasal ← NASAL_ONSETS; vowel ← VOWELS;
      mono_codas (stop ++ nasal) vowel (lit "CNVC") stop STOP_CODAS).

(** An onset that may stand before [onset2] in the first two families. *)
Definition partner (onset2 : str) : str :=
  if bool_decide (onset2 = lit "s") then lit "p" else lit "s".

(** ** Spelling *)

(** The first statement of [jamo_tuple]: the spelling of the onset. *)
Definition spelled_onset (self : Monosyllable) : exc str :=
  if bool_decide (shape self ∈ [Some (lit "CV"); Some (lit "CVC");
                                 Some (lit "CwV"); Some (lit "CwVC")])
  then getitem HANGUL_ONSET (onset self)
  else match shape self with
       | None => Raise AttributeError
       | Some sh =>
         if startswith sh (lit "NCV") then
           c0 ← getitem0 (onset self);
           g0 ← getitem HANGUL_ONSET c0;
           g1 ← getitem HANGUL_ONSET (slice_from1 (onset self));
           Ok (g0 ++ g1)
         else if startswith sh (lit "CNV") then
           g0 ← getitem HANGUL_ONSET (slice_to_last (onset self));
           c1 ← getitem_last (onset self);
           g1 ← getitem HANGUL_ONSET c1;
           Ok (g0 ++ g1)
         else Raise (Error (lit "Unknown shape: " ++ sh))
       end.

(** The last statement but one: the spelling of the coda. *)
Definition spelled_coda (cd : option str) : exc str :=
  match cd with
  | Some c => if truthy c then getitem HANGUL_CODA c else Ok []
  | None => Ok []
  end.

(** A shape that is spelled with the onset table alone. *)
Definition atomic (sh : option str) : Prop :=
  sh ∈ [Some (lit "CV"); Some (lit "CVC"); Some (lit "CwV"); Some (lit "CwVC")].

(** Every spelling has one glyph for the nucleus, one for the coda if there
    is a coda, and one glyph for the onset of an atomic shape, two for a
    cluster. *)
Definition spelled (self : Monosyllable) : Prop :=
  match jamo_tuple self with
  | Ok (o, n, c) =>
    length o = (if bool_decide (atomic (shape self)) then 1 else 2)
    ∧ length n = 1
    ∧ length c = match coda self with Some _ => 1 | None => 0 end
  | Raise _ => False
  end.

#[global] Instance spelled_dec (self : Monosyllable) : Decision (spelled self).
Proof. unfold spelled. destruct (jamo_tuple self) as [[[o n] c]|]; apply _. Defined.

(** ** The lexicon and the run of [main] *)

(** An outcome of the romanizer that the lexicon loop of [main] survives:
    a result, or one of the two exceptions its [except] clause names. *)
Definition tolerated (m : exc str) : Prop :=
  match m with
  | Ok _ | Raise (KeyError _) | Raise AttributeError => True
  | Raise _ => False
  end.

#[global] Instance tolerated_dec (m : exc str) : Decision (tolerated m).
Proof. destruct m as [r|[]]; apply _. Defined.

Section MainBody.
Variable jamo_to_hangul : str → str → str → exc str.
Variable romanizer : str → exc str.
Variables (monos : list Monosyllable) (entries : list Bisyllable).

(** [main] of generate.py after the two generators have run, on what they
    yielded. *)
Definition main_body (source : list (str * str)) : exc (list line * pass) :=
  table1 ← for_ monos
             (λ entry rows, l ← mono_line jamo_to_hangul romanizer entry; Ok (l :: rows)) [];
  lexicon ← load_lexicon romanizer source;
  p ← filter_pass jamo_to_hangul romanizer lexicon entries;
  Ok (reverse table1, p).
End MainBody.

(** ** Rows and tables of the sampler *)

(** A row the processor passes over: its lexicality is present and is not
    "FALSE". *)
Definition skipped (r : row) : Prop :=
  match r !! lit "lexicality" with
  | Some v => v ≠ lit "FALSE"
  | None => False
  end.

(** A row the processor handles without exception. *)
Definition readable (r : row) : Prop := skipped r ∨ has_columns r.

#[global] Instance skipped_dec (r : row) : Decision (skipped r).
Proof. unfold skipped. destruct (r !! lit "lexicality"); apply _. Defined.

#[global] Instance readable_dec (r : row) : Decision (readable r).
Proof. unfold readable. apply _. Defined.

(** A row with one column only, and a full row the processor retains. *)
Definition two_rows : list row :=
  [ {[ lit "lexicality" := lit "TRUE" ]};
    annotated (lit "FALSE") (lit "CVC") [] [] (lit "p") (lit "a") (lit "n") ].

(** A retained row with the columns of the monosyllable table of
    generate.py and the two annotation columns. *)
Definition monosyllable_row : row :=
  list_to_map
    [(lit "onset", lit "p"); (lit "nucleus", lit "a"); (lit "coda", lit "n");
     (lit "shape", lit "CVC"); (lit "jamo", lit "ㅂㅏᆫ"); (lit "hangul", lit "반");
     (lit "romanization", lit "ban"); (lit "lexicality", lit "FALSE"); (lit "memo", [])].

(** Tables whose monosyllable rows carry a column that the disyllable rows
    lack. *)
Definition glossed_table : list row :=
  (λ r : row, <[ lit "gloss" := lit "x" ]> r) <$> sample_rows (lit "CVC") 10.

(** The three components of an outcome of [main_lists]. *)
Definition outcome_row (x : exc (option row * list row * list row)) : row :=
  match x with Ok (Some r, _, _) => r | _ => ∅ end.

Definition outcome_list1 (x : exc (option row * list row * list row)) : list row :=
  match x with Ok (_, l1, _) => l1 | _ => [] end.

Definition outcome_list2 (x : exc (option row * list row * list row)) : list row :=
  match x with Ok (_, _, l2) => l2 | _ => [] end.

(** A table with too few CVCVC rows, then too few CwVCVC rows. *)
Definition short_table : list row :=
  sample_rows (lit "CVCVC") 3 ++ sample_rows (lit "CwVCVC") 2.

(** Ten CVC rows, twenty-five CVCVC rows and twenty rows of a shape that is
    none of the eight. *)
Definition odd_table : list row :=
  sample_rows (lit "CVCVC") 25 ++ sample_rows (lit "XYZ") 20.

(** The columns of a processed row of [sample_rows]. *)
Definition SAMPLE_COLUMNS : gset str :=
  list_to_set [lit "onset1"; lit "nucleus1"; lit "onset2"; lit "nucleus2"; lit "coda";
               lit "shape"; lit "transcription"].

(** What [csv.writer] writes for a field ([None] as the empty string) and
    [csv.DictReader] reads back. *)
Definition text (f : option str) : str := default [] f.

(** The row [csv.DictReader] makes of a written line under a header. *)
Definition as_row (header : list str) (l : line) : row :=
  list_to_map (zip header (text <$> l)).

(** The two columns the annotation adds. *)
Definition annotate (lexicality memo : str) (r : row) : row :=
  <[ lit "lexicality" := lexicality ]> (<[ lit "memo" := memo ]> r).

#[global] Instance exn_eq_dec : EqDecision exn.
Proof. solve_decision. Defined.

#[global] Instance exc_eq_dec {A} `{EqDecision A} : EqDecision (exc A).
Proof. solve_decision. Defined.

Section Shared.
Variable jamo_to_hangul : str → str → str → exc str.
Variable romanizer : str → exc str.

(** A disyllable whose romanization is non-empty and is what the romanizer
    returns on some word of the lexicon source. *)
Definition shared_romanization (source : list (str * str)) (entry : Bisyllable) : Prop :=
  match bi_romanization jamo_to_hangul romanizer entry with
  | Ok r => r ≠ [] ∧ Exists (λ wg : str * str, romanizer wg.1 = Ok r) source
  | Raise _ => False
  end.

#[global] Instance shared_romanization_dec source entry :
  Decision (shared_romanization source entry).
Proof.
  unfold shared_romanization.
  destruct (bi_romanization jamo_to_hangul romanizer entry); apply _.
Defined.
End Shared.

(* ===================================================================== *)
(** * Properties *)
(* ===================================================================== *)

(** ** The error monad and loops *)

Lemma bind_Ok {A B} (m : exc A) (f : A → exc B) (b : B) :
  m ≫= f = Ok b → ∃ a, m = Ok a ∧ f a = Ok b.
Proof. destruct m as [a|e]; [eauto | discriminate]. Qed.

Lemma Ok_inj {A} (a b : A) : Ok a = Ok b → a = b.
Proof. congruence. Qed.

Lemma is_ok_Ok {A} (m : exc A) : is_ok m = true → ∃ a, m = Ok a.
Proof. destruct m; [eauto | discriminate]. Qed.

(** A loop keeps what each run of its body keeps. *)
Lemma for_inv {A S} (I : S → Prop) (xs : list A) (body : A → S → exc S) :
  (∀ x s s', x ∈ xs → I s → body x s = Ok s' → I s') →
  ∀ s s', for_ xs body s = Ok s' → I s → I s'.
Proof.
  induction xs as [|x xs IH]; intros Hbody s s' Hrun Hs; simpl in Hrun.
  - by injection Hrun as <-.
  - apply bind_Ok in Hrun as (s1 & Hx & Hrest).
    eapply IH; [| exact Hrest |].
    + intros y t t' Hy. apply Hbody. by right.
    + eapply Hbody; [by left | exact Hs | exact Hx].
Qed.

(** ** Strings *)

Lemma startswith_app (s p q : str) : startswith s (p ++ q) = true → startswith s p = true.
Proof.
  revert s; induction p as [|c p IH]; intros [|d s]; simpl; try done.
  rewrite !andb_true_iff. intros [? ?]; eauto.
Qed.

Lemma startswith_refl (s : str) : startswith s s = true.
Proof. induction s as [|c s IH]; simpl; [done|]. by rewrite N.eqb_refl. Qed.

(** The literals of the source, as code points. *)
Example lit_aspirated : lit "pʰ" = [112; 688]%N.
Proof. reflexivity. Qed.

Example lit_unreleased : lit "p̚" = [112; 794]%N ∧ lit "ŋ" = [331]%N.
Proof. split; reflexivity. Qed.

Example startswith_unreleased :
  startswith (lit "p̚") (lit "p") = true ∧ startswith (lit "ŋ") (lit "n") = false.
Proof. split; reflexivity. Qed.

(** ** Pairs of positions *)

Example permutations2_abc :
  permutations2 [1; 2; 3] = [(1, 2); (1, 3); (2, 1); (2, 3); (3, 1); (3, 2)].
Proof. reflexivity. Qed.

Lemma elem_of_permutations2_from {A} (before xs : list A) (x y : A) :
  NoDup (reverse before ++ xs) →
  (x, y) ∈ permutations2_from before xs →
  x ∈ xs ∧ y ∈ reverse before ++ xs ∧ x ≠ y.
Proof.
  revert before; induction xs as [|z after IH]; intros before Hnd Hin; simpl in Hin.
  - by apply elem_of_nil in Hin.
  - apply elem_of_app in Hin as [Hin|Hin].
    + apply list_elem_of_fmap in Hin as (y' & [= -> ->] & Hy).
      apply NoDup_app in Hnd as (_ & Hdisj & Hnd2).
      apply NoDup_cons in Hnd2 as [Hz _].
      split; [by left|]. split.
      * apply elem_of_app in Hy as [?|?]; apply elem_of_app; [by left | right; by right].
      * intros ->. apply elem_of_app in Hy as [Hy|Hy]; [|done].
        apply (Hdisj _ Hy). by left.
    + apply IH in Hin as (Hx & Hy & Hne).
      * split; [by right|]. split; [|done].
        rewrite reverse_cons, <- app_assoc in Hy. exact Hy.
      * by rewrite reverse_cons, <- app_assoc.
Qed.

Lemma elem_of_permutations2 {A} (xs : list A) (x y : A) :
  NoDup xs → (x, y) ∈ permutations2 xs → x ∈ xs ∧ y ∈ xs ∧ x ≠ y.
Proof. intros Hnd Hin. by apply (elem_of_permutations2_from [] xs). Qed.

Lemma elem_of_product {A B} (xs : list A) (ys : list B) (x : A) (y : B) :
  (x, y) ∈ product xs ys → x ∈ xs ∧ y ∈ ys.
Proof.
  unfold product. intros Hin.
  apply list_elem_of_bind in Hin as (x' & Hin & Hx).
  by apply list_elem_of_fmap in Hin as (y' & [= -> ->] & Hy).
Qed.

(** ** The inventories *)

Lemma NoDup_SIMPLE_ONSETS : NoDup SIMPLE_ONSETS.
Proof. apply (bool_decide_unpack _). by vm_compute. Qed.

Lemma NoDup_VOWELS : NoDup VOWELS.
Proof. apply (bool_decide_unpack _). by vm_compute. Qed.

(* ===================================================================== *)
(** ** What the generators yield *)
(* ===================================================================== *)

(** Enter the loop of hypothesis [Hrun] with the invariant [I]. *)
Tactic Notation "enter_loop" constr(I) ident(Hrun) ident(Hs)
    "as" simple_intropattern(x) ident(Hin) :=
  refine (for_inv I _ _ _ _ _ Hrun Hs); clear Hrun Hs;
  intros x ? ? Hin Hs Hrun; cbv beta zeta in Hrun.

(** Split the guarded body [c ← getitem0 o; if startswith coda c then ... ]. *)
Ltac split_guard Hrun c Hc Hg :=
  apply bind_Ok in Hrun as (c & Hc & Hrun);
  destruct (startswith _ c) eqn:Hg.

Lemma plain_monosyllables_sound out out' :
  Forall monosyllable_rule out → plain_monosyllables out = Ok out' →
  Forall monosyllable_rule out'.
Proof.
  unfold plain_monosyllables. intros H L.
  enter_loop (Forall monosyllable_rule) L H as onset Honset.
  enter_loop (Forall monosyllable_rule) L H as vowel Hvowel.
  enter_loop (Forall monosyllable_rule) L H as coda Hcoda.
  split_guard L c Hc Hg; injection L as <-; [done|].
  constructor; [|done]. by eapply mono_plain.
Qed.

Lemma glide_monosyllables_sound out out' :
  Forall monosyllable_rule out → glide_monosyllables out = Ok out' →
  Forall monosyllable_rule out'.
Proof.
  unfold glide_monosyllables. intros H L.
  enter_loop (Forall monosyllable_rule) L H as onset Honset.
  enter_loop (Forall monosyllable_rule) L H as vowel Hvowel.
  enter_loop (Forall monosyllable_rule) L H as coda Hcoda.
  split_guard L c Hc Hg; injection L as <-; [done|].
  constructor; [|done]. by eapply mono_glide.
Qed.

Lemma prenasal_monosyllables_sound out out' :
  Forall monosyllable_rule out → prenasal_monosyllables out = Ok out' →
  Forall monosyllable_rule out'.
Proof.
  unfold prenasal_monosyllables. intros H L.
  enter_loop (Forall monosyllable_rule) L H as stop Hstop.
  enter_loop (Forall monosyllable_rule) L H as nasal Hnasal.
  enter_loop (Forall monosyllable_rule) L H as vowel Hvowel.
  enter_loop (Forall monosyllable_rule) L H as coda Hcoda.
  split_guard L c Hc Hg; injection L as <-; [done|].
  constructor; [|done]. by eapply mono_prenasal.
Qed.

Lemma postnasal_monosyllables_sound out out' :
  Forall monosyllable_rule out → postnasal_monosyllables out = Ok out' →
  Forall monosyllable_rule out'.
Proof.
  unfold postnasal_monosyllables. intros H L.
  enter_loop (Forall monosyllable_rule) L H as stop Hstop.
  enter_loop (Forall monosyllable_rule) L H as nasal Hnasal.
  enter_loop (Forall monosyllable_rule) L H as vowel Hvowel.
  enter_loop (Forall monosyllable_rule) L H as coda Hcoda.
  split_guard L c Hc Hg; injection L as <-; [done|].
  constructor; [|done]. by eapply mono_postnasal.
Qed.

Lemma monosyllables_sound (out : list Monosyllable) :
  _monosyllables = Ok out → Forall monosyllable_rule out.
Proof.
  unfold _monosyllables. intros H.
  apply bind_Ok in H as (o0 & [= <-] & H).
  apply bind_Ok in H as (o1 & L1 & H).
  apply bind_Ok in H as (o2 & L2 & H).
  apply bind_Ok in H as (o3 & L3 & H).
  apply bind_Ok in H as (o4 & L4 & H).
  injection H as <-. apply Forall_reverse.
  eapply postnasal_monosyllables_sound; [|exact L4].
  eapply prenasal_monosyllables_sound; [|exact L3].
  eapply glide_monosyllables_sound; [|exact L2].
  eapply plain_monosyllables_sound; [|exact L1].
  constructor.
Qed.

Lemma monosyllables_total : is_ok _monosyllables = true.
Proof. by vm_compute. Qed.

(** The coda loop of the plain family only assigns [syl2]: what it leaves
    in the variable is the last coda that passes the guard. *)
Lemma plain_coda_loop (onset2 vowel2 : str) (c : N) (codas : list str) (f : frame) :
  head onset2 = Some c →
  for_ codas (λ coda f,
      c ← getitem0 onset2;
      if startswith coda c then Ok f
      else Ok (assign_syl2 (mkMonosyllable onset2 vowel2 (Some coda) (Some (lit "CVC"))) f)) f
  = Ok match last (filter (λ coda, startswith coda [c] = false) codas) with
       | Some coda =>
         assign_syl2 (mkMonosyllable onset2 vowel2 (Some coda) (Some (lit "CVC"))) f
       | None => f
       end.
Proof.
  intros Hc. destruct onset2 as [|c' rest]; [done|]. injection Hc as ->.
  match goal with |- for_ _ ?b _ = _ => set (body := b) end.
  revert f. induction codas as [|coda codas IH]; intros f; [done|].
  change (for_ (coda :: codas) body f) with (body coda f ≫= for_ codas body).
  rewrite filter_cons. unfold body at 2. cbn [getitem0 mbind exc_bind].
  destruct (startswith coda [c]) eqn:Hg; cbn [mbind exc_bind].
  - rewrite IH. by rewrite decide_False.
  - rewrite IH, decide_True by done. rewrite last_cons.
    by destruct (last (filter _ codas)).
Qed.

Lemma SIMPLE_ONSETS_admissible :
  Forall (λ onset2, is_Some (head onset2) ∧ is_Some (last_admissible_coda onset2)) SIMPLE_ONSETS.
Proof.
  repeat (apply Forall_cons; split; [by split; eexists; vm_compute|]). constructor.
Qed.

Lemma plain_family_sound f f' : frame_ok f → plain_family f = Ok f' → frame_ok f'.
Proof.
  unfold plain_family. intros H L.
  enter_loop frame_ok L H as [onset1 onset2] Honsets.
  destruct (similar_onsets onset1 onset2) eqn:Hsim; [by injection L as <-|].
  enter_loop frame_ok L H as [vowel1 vowel2] Hvowels.
  apply bind_Ok in L as (fc & Lc & L).
  pose proof (elem_of_permutations2 _ _ _ NoDup_SIMPLE_ONSETS Honsets) as (_ & Ho2 & _).
  pose proof (proj1 (Forall_forall _ _) SIMPLE_ONSETS_admissible _ Ho2)
    as [[c Hc] [coda Hcoda]].
  rewrite (plain_coda_loop _ _ c) in Lc by done. apply Ok_inj in Lc as <-.
  pose proof Hcoda as Hlast.
  unfold last_admissible_coda in Hlast. rewrite Hc in Hlast.
  change (last (filter (λ coda, startswith coda [c] = false) CODAS) = Some coda) in Hlast.
  rewrite Hlast in L. injection L as <-.
  constructor; [|done]. by apply di_plain.
Qed.

Lemma glide_family_sound f f' : frame_ok f → glide_family f = Ok f' → frame_ok f'.
Proof.
  unfold glide_family. intros H L.
  enter_loop frame_ok L H as [onset1 onset2] Honsets.
  destruct (similar_onsets onset1 onset2) eqn:Hsim; [by injection L as <-|].
  enter_loop frame_ok L H as [vowel1 vowel2] Hvowels.
  enter_loop frame_ok L H as coda Hcoda.
  split_guard L c Hc Hg; injection L as <-; [done|].
  constructor; [|done]. by eapply di_glide.
Qed.

Lemma prenasal_family_sound f f' : frame_ok f → prenasal_family f = Ok f' → frame_ok f'.
Proof.
  unfold prenasal_family. intros H L.
  enter_loop frame_ok L H as stop Hstop.
  enter_loop frame_ok L H as nasal Hnasal.
  enter_loop frame_ok L H as [vowel1 vowel2] Hvowels.
  enter_loop frame_ok L H as onset2 Honset2.
  destruct (startswith onset2 stop) eqn:Hguard; [by injection L as <-|].
  enter_loop frame_ok L H as coda Hcoda.
  split_guard L c Hc Hg; injection L as <-; [done|].
  constructor; [|done]. by eapply di_prenasal.
Qed.

Lemma postnasal_family_sound f f' : frame_ok f → postnasal_family f = Ok f' → frame_ok f'.
Proof.
  unfold postnasal_family. intros H L.
  enter_loop frame_ok L H as stop Hstop.
  enter_loop frame_ok L H as nasal Hnasal.
  enter_loop frame_ok L H as [vowel1 vowel2] Hvowels.
  enter_loop frame_ok L H as onset2 Honset2.
  destruct (startswith onset2 stop) eqn:Hguard; [by injection L as <-|].
  enter_loop frame_ok L H as coda Hcoda.
  split_guard L c Hc Hg; injection L as <-; [done|].
  constructor; [|done]. by eapply di_postnasal.
Qed.

Lemma disyllables_sound (out : list Bisyllable) :
  _disyllables = Ok out → Forall disyllable_rule out.
Proof.
  unfold _disyllables. intros H.
  apply bind_Ok in H as (f0 & [= <-] & H).
  apply bind_Ok in H as (f1 & L1 & H).
  apply bind_Ok in H as (f2 & L2 & H).
  apply bind_Ok in H as (f3 & L3 & H).
  apply bind_Ok in H as (f4 & L4 & H).
  injection H as <-. apply Forall_reverse.
  eapply postnasal_family_sound; [|exact L4].
  eapply prenasal_family_sound; [|exact L3].
  eapply glide_family_sound; [|exact L2].
  eapply plain_family_sound; [|exact L1].
  constructor.
Qed.

Lemma disyllables_total : is_ok _disyllables = true.
Proof. by vm_compute. Qed.

Lemma disyllables_run : _disyllables = Ok disyllables_out.
Proof.
  unfold disyllables_out. destruct (is_ok_Ok _ disyllables_total) as [out ->]. done.
Qed.

Lemma monosyllables_run : _monosyllables = Ok monosyllables_out.
Proof.
  unfold monosyllables_out. destruct (is_ok_Ok _ monosyllables_total) as [out ->]. done.
Qed.

(** ** More on pairs of positions *)

Lemma NoDup_permutations2_from {A} (before xs : list A) :
  NoDup (reverse before ++ xs) → NoDup (permutations2_from before xs).
Proof.
  revert before; induction xs as [|x after IH]; intros before Hnd; simpl.
  { constructor. }
  assert (Hnd' : NoDup (reverse (x :: before) ++ after))
    by by rewrite reverse_cons, <- app_assoc.
  apply NoDup_app. split; [|split].
  - apply (NoDup_fmap_2 (pair x)).
    apply NoDup_app in Hnd as (Hb & Hdisj & [Hx Ha]%NoDup_cons).
    apply NoDup_app. split; [done|]. split; [|done].
    intros y Hy Hy'. apply (Hdisj y Hy). by right.
  - intros [x' y] Hin Hin'.
    apply list_elem_of_fmap in Hin as (y' & [= -> ->] & _).
    apply elem_of_permutations2_from in Hin' as (Hx & _); [|done].
    apply NoDup_app in Hnd as (_ & _ & [Hx' _]%NoDup_cons). done.
  - by apply IH.
Qed.

Lemma NoDup_permutations2 {A} (xs : list A) : NoDup xs → NoDup (permutations2 xs).
Proof. intros Hnd. by apply (NoDup_permutations2_from [] xs). Qed.

Lemma permutations2_from_complete {A} (before xs : list A) (x y : A) :
  x ∈ xs → y ∈ reverse before ++ xs → x ≠ y → (x, y) ∈ permutations2_from before xs.
Proof.
  revert before; induction xs as [|z after IH]; intros before Hx Hy Hne; simpl.
  { by apply elem_of_nil in Hx. }
  apply elem_of_app. apply elem_of_cons in Hx as [->|Hx].
  - left. apply list_elem_of_fmap. exists y. split; [done|].
    apply elem_of_app in Hy as [Hy|Hy]; apply elem_of_app; [by left|right].
    apply elem_of_cons in Hy as [->|Hy]; done.
  - right. apply IH; [done| |done].
    by rewrite reverse_cons, <- app_assoc.
Qed.

Lemma permutations2_complete {A} (xs : list A) (x y : A) :
  x ∈ xs → y ∈ xs → x ≠ y → (x, y) ∈ permutations2 xs.
Proof. intros. by apply (permutations2_from_complete [] xs). Qed.

(** ** Lists *)

Lemma filter_none {A} (P : A → Prop) `{∀ x, Decision (P x)} (l : list A) :
  Forall (λ x, ¬ P x) l → filter P l = [].
Proof.
  induction 1 as [|x l Hx _ IH]; [done|].
  by rewrite filter_cons, decide_False.
Qed.

Lemma filter_unique {A} (P : A → Prop) `{∀ x, Decision (P x)} (l : list A) (e : A) :
  NoDup l → e ∈ l → P e → (∀ x, x ∈ l → P x → x = e) → filter P l = [e].
Proof.
  induction l as [|x l IH]; intros Hnd He HP Hall.
  { by apply elem_of_nil in He. }
  apply NoDup_cons in Hnd as [Hx Hnd]. rewrite filter_cons.
  destruct (decide (P x)) as [HPx|HPx].
  - assert (x = e) as -> by (apply Hall; [by left|done]).
    f_equal. apply filter_none, Forall_forall. intros y Hy HPy.
    assert (y = e) as -> by (apply Hall; [by right|done]). done.
  - apply elem_of_cons in He as [->|He]; [done|].
    apply IH; try done. intros y Hy. apply Hall. by right.
Qed.

(** ** The plain family as a list *)

(** A loop whose body appends [g x] to the yielded values appends the
    concatenation of the [g x]. *)
Lemma for_emits {A} (xs : list A) (body : A → frame → exc frame) (g : A → list Bisyllable) :
  (∀ x f, x ∈ xs → ∃ v, body x f = Ok (mkFrame v (reverse (g x) ++ yielded f))) →
  ∀ f, ∃ v, for_ xs body f = Ok (mkFrame v (reverse (xs ≫= g) ++ yielded f)).
Proof.
  induction xs as [|x xs IH]; intros Hbody f.
  - exists (syl2_var f). by destruct f.
  - destruct (Hbody x f) as [v1 Hx]; [by left|].
    destruct (IH (λ y f' Hy, Hbody y f' (list_elem_of_further _ _ _ Hy))
                 (mkFrame v1 (reverse (g x) ++ yielded f))) as [v Hxs].
    exists v. cbn [for_]. rewrite Hx. cbn [mbind exc_bind]. rewrite Hxs.
    cbn [yielded]. by rewrite bind_cons, reverse_app, <- app_assoc.
Qed.

Lemma later_ok_yield (s1 m : Monosyllable) (sh : str) (f f' : frame) :
  sh ≠ lit "CVCVC" → later_ok f →
  yield_bi s1 sh (assign_syl2 m f) = Ok f' → later_ok f'.
Proof.
  intros Hsh (extra & Hy & Hex) [= <-].
  exists (mkBisyllable s1 m sh :: extra). cbn [yielded assign_syl2].
  split; [by rewrite Hy | by constructor].
Qed.

Lemma plain_family_emits (f : frame) :
  ∃ v, plain_family f = Ok (mkFrame v (reverse plain_list ++ yielded f)).
Proof.
  unfold plain_family, plain_list.
  apply (for_emits _ _ (λ '(onset1, onset2),
                          if similar_onsets onset1 onset2 then []
                          else plain_vowels onset1 onset2)).
  intros [onset1 onset2] f1 Honsets.
  destruct (similar_onsets onset1 onset2); [exists (syl2_var f1); by destruct f1|].
  apply for_emits. intros [vowel1 vowel2] f2 _.
  pose proof (elem_of_permutations2 _ _ _ NoDup_SIMPLE_ONSETS Honsets) as (_ & Ho2 & _).
  pose proof (proj1 (Forall_forall _ _) SIMPLE_ONSETS_admissible _ Ho2)
    as [[c Hc] [coda Hcoda]].
  rewrite (plain_coda_loop _ _ c) by done. rewrite Hcoda.
  unfold last_admissible_coda in Hcoda. rewrite Hc in Hcoda.
  change (last (filter (λ coda, startswith coda [c] = false) CODAS) = Some coda) in Hcoda.
  rewrite Hcoda. eexists. reflexivity.
Qed.

Lemma glide_family_later f f' : later_ok f → glide_family f = Ok f' → later_ok f'.
Proof.
  unfold glide_family. intros H L.
  enter_loop later_ok L H as [onset1 onset2] Honsets.
  destruct (similar_onsets onset1 onset2) eqn:Hsim; [by injection L as <-|].
  enter_loop later_ok L H as [vowel1 vowel2] Hvowels.
  enter_loop later_ok L H as coda Hcoda.
  split_guard L c Hc Hg; [by injection L as <-|].
  eapply later_ok_yield; [|done|done]. by vm_compute.
Qed.

Lemma prenasal_family_later f f' : later_ok f → prenasal_family f = Ok f' → later_ok f'.
Proof.
  unfold prenasal_family. intros H L.
  enter_loop later_ok L H as stop Hstop.
  enter_loop later_ok L H as nasal Hnasal.
  enter_loop later_ok L H as [vowel1 vowel2] Hvowels.
  enter_loop later_ok L H as onset2 Honset2.
  destruct (startswith onset2 stop) eqn:Hguard; [by injection L as <-|].
  enter_loop later_ok L H as coda Hcoda.
  split_guard L c Hc Hg; [by injection L as <-|].
  eapply later_ok_yield; [|done|done]. by vm_compute.
Qed.

Lemma postnasal_family_later f f' : later_ok f → postnasal_family f = Ok f' → later_ok f'.
Proof.
  unfold postnasal_family. intros H L.
  enter_loop later_ok L H as stop Hstop.
  enter_loop later_ok L H as nasal Hnasal.
  enter_loop later_ok L H as [vowel1 vowel2] Hvowels.
  enter_loop later_ok L H as onset2 Honset2.
  destruct (startswith onset2 stop) eqn:Hguard; [by injection L as <-|].
  enter_loop later_ok L H as coda Hcoda.
  split_guard L c Hc Hg; [by injection L as <-|].
  eapply later_ok_yield; [|done|done]. by vm_compute.
Qed.

Lemma disyllables_plain_prefix (out : list Bisyllable) :
  _disyllables = Ok out →
  ∃ rest, out = plain_list ++ rest ∧ Forall (λ b, bi_shape b ≠ lit "CVCVC") rest.
Proof.
  unfold _disyllables. intros H.
  apply bind_Ok in H as (f0 & [= <-] & H).
  apply bind_Ok in H as (f1 & L1 & H).
  apply bind_Ok in H as (f2 & L2 & H).
  apply bind_Ok in H as (f3 & L3 & H).
  apply bind_Ok in H as (f4 & L4 & H).
  apply Ok_inj in H as <-.
  assert (H4 : later_ok f4).
  { eapply postnasal_family_later; [|exact L4].
    eapply prenasal_family_later; [|exact L3].
    eapply glide_family_later; [|exact L2].
    destruct (plain_family_emits (mkFrame None [])) as [v Hv].
    rewrite Hv in L1. apply Ok_inj in L1 as <-.
    exists []. split; [apply app_nil_r | constructor]. }
  destruct H4 as (extra & -> & Hex).
  exists (reverse extra). split.
  - by rewrite reverse_app, reverse_involutive.
  - by apply Forall_reverse.
Qed.

Lemma elem_of_plain_vowels (onset1 onset2 : str) (b : Bisyllable) :
  b ∈ plain_vowels onset1 onset2 ↔
  ∃ vowel1 vowel2 coda,
    (vowel1, vowel2) ∈ permutations2 VOWELS ∧ last_admissible_coda onset2 = Some coda
    ∧ b = plain_bisyllable onset1 vowel1 onset2 vowel2 coda.
Proof.
  unfold plain_vowels. rewrite list_elem_of_bind. split.
  - intros ([vowel1 vowel2] & Hb & Hv).
    destruct (last_admissible_coda onset2) as [coda|]; [|by apply elem_of_nil in Hb].
    apply list_elem_of_singleton in Hb. by exists vowel1, vowel2, coda.
  - intros (vowel1 & vowel2 & coda & Hv & Hcoda & ->).
    exists (vowel1, vowel2). rewrite Hcoda. split; [by left|done].
Qed.

Lemma elem_of_plain_list (b : Bisyllable) :
  b ∈ plain_list ↔
  ∃ onset1 onset2 vowel1 vowel2 coda,
    (onset1, onset2) ∈ permutations2 SIMPLE_ONSETS ∧ similar_onsets onset1 onset2 = false
    ∧ (vowel1, vowel2) ∈ permutations2 VOWELS ∧ last_admissible_coda onset2 = Some coda
    ∧ b = plain_bisyllable onset1 vowel1 onset2 vowel2 coda.
Proof.
  unfold plain_list. rewrite list_elem_of_bind. split.
  - intros ([onset1 onset2] & Hb & Ho).
    destruct (similar_onsets onset1 onset2) eqn:Hsim; [by apply elem_of_nil in Hb|].
    apply elem_of_plain_vowels in Hb as (vowel1 & vowel2 & coda & ? & ? & ->).
    by exists onset1, onset2, vowel1, vowel2, coda.
  - intros (onset1 & onset2 & vowel1 & vowel2 & coda & Ho & Hsim & Hv & Hcoda & ->).
    exists (onset1, onset2). rewrite Hsim. split; [|done].
    apply elem_of_plain_vowels. by exists vowel1, vowel2, coda.
Qed.

Lemma NoDup_plain_vowels (onset1 onset2 : str) : NoDup (plain_vowels onset1 onset2).
Proof.
  unfold plain_vowels. apply NoDup_bind.
  - intros [v1 v2] [w1 w2] b _ _ Hb Hb'.
    destruct (last_admissible_coda onset2); [|by apply elem_of_nil in Hb].
    apply list_elem_of_singleton in Hb as ->.
    apply list_elem_of_singleton in Hb'. by injection Hb' as -> ->.
  - intros [v1 v2] _. destruct (last_admissible_coda onset2); [apply NoDup_singleton|constructor].
  - apply NoDup_permutations2, NoDup_VOWELS.
Qed.

Lemma NoDup_plain_list : NoDup plain_list.
Proof.
  unfold plain_list. apply NoDup_bind.
  - intros [a1 a2] [b1 b2] b _ _ Hb Hb'.
    destruct (similar_onsets a1 a2); [by apply elem_of_nil in Hb|].
    destruct (similar_onsets b1 b2); [by apply elem_of_nil in Hb'|].
    apply elem_of_plain_vowels in Hb as (? & ? & ? & _ & _ & ->).
    apply elem_of_plain_vowels in Hb' as (? & ? & ? & _ & _ & Heq).
    by injection Heq as -> _ -> _ _.
  - intros [a1 a2] _. destruct (similar_onsets a1 a2); [constructor|apply NoDup_plain_vowels].
  - apply NoDup_permutations2, NoDup_SIMPLE_ONSETS.
Qed.

Lemma CODAS_order :
  CODAS = [lit "m"; lit "n"; lit "ŋ"; lit "p̚"; lit "t̚"; lit "k̚"].
Proof. reflexivity. Qed.

(** C2. In the plain (CVCVC) family, every ordered pair of distinct simple
    onsets of which neither is a prefix of the other, with every ordered
    pair of distinct vowels, is yielded exactly once, and the coda of the
    second syllable is the last coda of [CODAS] (m, n, ŋ, p̚, t̚, k̚) that
    does not begin with the first character of the second onset. *)
Theorem plain_family_single_yield (onset1 onset2 vowel1 vowel2 : str) :
  onset1 ∈ SIMPLE_ONSETS → onset2 ∈ SIMPLE_ONSETS → onset1 ≠ onset2 →
  startswith onset1 onset2 = false → startswith onset2 onset1 = false →
  vowel1 ∈ VOWELS → vowel2 ∈ VOWELS → vowel1 ≠ vowel2 →
  ∃ out coda,
    _disyllables = Ok out
    ∧ last_admissible_coda onset2 = Some coda
    ∧ yielded_for onset1 vowel1 onset2 vowel2 out
      = [plain_bisyllable onset1 vowel1 onset2 vowel2 coda].
Proof.
  intros Ho1 Ho2 Hne Hp1 Hp2 Hv1 Hv2 Hvne.
  destruct (is_ok_Ok _ disyllables_total) as [out Hrun].
  destruct (disyllables_plain_prefix out Hrun) as (rest & -> & Hrest).
  pose proof (proj1 (Forall_forall _ _) SIMPLE_ONSETS_admissible _ Ho2)
    as [_ [coda Hcoda]].
  exists (plain_list ++ rest), coda. split; [exact Hrun|]. split; [exact Hcoda|].
  unfold yielded_for. rewrite filter_app.
  rewrite (filter_none _ rest), app_nil_r.
  - apply filter_unique.
    + apply NoDup_plain_list.
    + apply elem_of_plain_list. exists onset1, onset2, vowel1, vowel2, coda.
      split; [by apply permutations2_complete|].
      split; [unfold similar_onsets; by rewrite Hp1, Hp2|].
      split; [by apply permutations2_complete|]. split; [exact Hcoda|reflexivity].
    + repeat split.
    + intros b Hb (_ & Hb1 & Hb2 & Hb3 & Hb4).
      apply elem_of_plain_list in Hb as (a1 & a2 & w1 & w2 & coda' & _ & _ & _ & Hc' & ->).
      cbn in Hb1, Hb2, Hb3, Hb4. subst. congruence.
  - eapply Forall_impl; [exact Hrest|]. intros b Hb (Hsh & _). exact (Hb Hsh).
Qed.

(** The pair of onsets p, k with the pair of vowels i, a. *)
Lemma plain_family_single_yield_witness :
  ∃ out coda,
    _disyllables = Ok out
    ∧ last_admissible_coda (lit "k") = Some coda
    ∧ yielded_for (lit "p") (lit "i") (lit "k") (lit "a") out
      = [plain_bisyllable (lit "p") (lit "i") (lit "k") (lit "a") coda].
Proof.
  apply plain_family_single_yield.
  - apply (bool_decide_unpack _). vm_compute. exact I.
  - apply (bool_decide_unpack _). vm_compute. exact I.
  - vm_compute. discriminate.
  - vm_compute. reflexivity.
  - vm_compute. reflexivity.
  - apply (bool_decide_unpack _). vm_compute. exact I.
  - apply (bool_decide_unpack _). vm_compute. exact I.
  - vm_compute. discriminate.
Defined.

Example last_admissible_coda_k : last_admissible_coda (lit "k") = Some (lit "t̚").
Proof. reflexivity. Qed.

Example last_admissible_coda_p : last_admissible_coda (lit "pʰ") = Some (lit "k̚").
Proof. reflexivity. Qed.

(* ===================================================================== *)
(** ** Phonotactic invariants of the generators *)
(* ===================================================================== *)

(** Decide a closed statement by evaluation. *)
Ltac by_compute := apply (bool_decide_unpack _); vm_compute; exact I.

Lemma getitem0_Ok (s c : str) : getitem0 s = Ok c → ∃ k, head s = Some k ∧ c = [k].
Proof. destruct s as [|k rest]; [discriminate|]. intros [= <-]. by exists k. Qed.

Lemma NASAL_ONSETS_single : Forall (λ nasal : str, ∃ n, nasal = [n]) NASAL_ONSETS.
Proof. repeat (apply Forall_cons; split; [eexists; reflexivity|]). constructor. Qed.

Lemma VOWELS_no_glide : Forall (λ vowel, startswith vowel (lit "w") = false) VOWELS.
Proof. by_compute. Qed.

Lemma prenasal_cluster_not_prefix :
  Forall (λ stop, Forall (λ nasal, Forall (λ onset2,
    startswith onset2 (nasal ++ stop) = false) SIMPLE_ONSETS) NASAL_ONSETS) STOP_ONSETS.
Proof. by_compute. Qed.

Lemma governing_stop_prenasal (stop nasal v : str) (c sh : option str) :
  nasal ∈ NASAL_ONSETS → sh = Some (lit "NCVC") ∨ sh = Some (lit "NCV") →
  governing_stop (mkMonosyllable (nasal ++ stop) v c sh) = stop.
Proof.
  intros Hn Hsh.
  destruct (proj1 (Forall_forall _ _) NASAL_ONSETS_single _ Hn) as [n ->].
  by destruct Hsh as [-> | ->].
Qed.

Lemma governing_stop_postnasal (stop nasal v : str) (c sh : option str) :
  nasal ∈ NASAL_ONSETS → sh = Some (lit "CNVC") ∨ sh = Some (lit "CNV") →
  governing_stop (mkMonosyllable (stop ++ nasal) v c sh) = stop.
Proof.
  intros Hn Hsh.
  destruct (proj1 (Forall_forall _ _) NASAL_ONSETS_single _ Hn) as [n ->].
  destruct Hsh as [-> | ->]; apply removelast_last.
Qed.

Lemma monosyllable_rule_coda (m : Monosyllable) : monosyllable_rule m → coda_dissimilar m.
Proof.
  intros [onset vowel cd c _ _ _ Hc Hg | onset vowel cd c _ _ _ Hc Hg
         | stop nasal vowel cd c _ Hn _ _ Hc Hg | stop nasal vowel cd c _ Hn _ _ Hc Hg];
    apply getitem0_Ok in Hc as (k & Hk & ->); exists cd, k; (split; [reflexivity|]);
    (split; [|exact Hg]).
  - exact Hk.
  - exact Hk.
  - rewrite governing_stop_prenasal by auto. exact Hk.
  - rewrite governing_stop_postnasal by auto. exact Hk.
Qed.

Lemma last_admissible_coda_spec (onset2 cd : str) :
  last_admissible_coda onset2 = Some cd →
  ∃ c, head onset2 = Some c ∧ cd ∈ CODAS ∧ startswith cd [c] = false.
Proof.
  unfold last_admissible_coda. destruct (head onset2) as [c|]; [|discriminate].
  intros Hlast. exists c. split; [done|].
  apply last_Some_elem_of, list_elem_of_filter in Hlast as [? ?]. by split.
Qed.

Lemma disyllable_rule_coda (b : Bisyllable) : disyllable_rule b → coda_dissimilar (syl2 b).
Proof.
  intros [o1 o2 v1 v2 cd _ _ _ Hlast | o1 o2 v1 v2 cd c _ _ _ _ Hc Hg
         | stop nasal v1 v2 o2 cd c _ _ _ _ _ _ Hc Hg
         | stop nasal v1 v2 o2 cd c _ _ _ _ _ _ Hc Hg].
  - apply last_admissible_coda_spec in Hlast as (c & Hc & _ & Hg). by exists cd, c.
  - apply getitem0_Ok in Hc as (k & Hk & ->). by exists cd, k.
  - apply getitem0_Ok in Hc as (k & Hk & ->). by exists cd, k.
  - apply getitem0_Ok in Hc as (k & Hk & ->). by exists cd, k.
Qed.

Lemma pap_not_dissimilar : ¬ coda_dissimilar pap.
Proof. intros (cd & c & [= <-] & [= <-] & Hg). discriminate Hg. Qed.

(** C3. Every monosyllable the monosyllable generator yields, and the
    second syllable of every disyllable the disyllable generator yields, has
    a coda that does not begin with the first character of the governing
    stop of its onset; in particular onset "p", nucleus "a", coda "p̚",
    shape "CVC" is never yielded. *)
Theorem coda_exclusion :
  (∃ out, _monosyllables = Ok out ∧ Forall coda_dissimilar out ∧ pap ∉ out)
  ∧ (∃ out, _disyllables = Ok out ∧ Forall (λ b, coda_dissimilar (syl2 b)) out
            ∧ Forall (λ b, syl2 b ≠ pap) out).
Proof.
  split.
  - destruct (is_ok_Ok _ monosyllables_total) as [out Hrun]. exists out.
    assert (Hall : Forall coda_dissimilar out).
    { eapply Forall_impl; [exact (monosyllables_sound out Hrun)|].
      exact monosyllable_rule_coda. }
    split; [exact Hrun|]. split; [exact Hall|].
    intros Hin. apply pap_not_dissimilar.
    exact (proj1 (Forall_forall _ _) Hall _ Hin).
  - destruct (is_ok_Ok _ disyllables_total) as [out Hrun]. exists out.
    assert (Hall : Forall (λ b, coda_dissimilar (syl2 b)) out).
    { eapply Forall_impl; [exact (disyllables_sound out Hrun)|].
      exact disyllable_rule_coda. }
    split; [exact Hrun|]. split; [exact Hall|].
    eapply Forall_impl; [exact Hall|].
    intros b Hb Heq. apply pap_not_dissimilar. by rewrite <- Heq.
Qed.

Lemma similar_onsets_false (onset1 onset2 : str) :
  similar_onsets onset1 onset2 = false →
  startswith onset1 onset2 = false ∧ startswith onset2 onset1 = false.
Proof. unfold similar_onsets. apply orb_false_iff. Qed.

Lemma disyllable_rule_onsets (b : Bisyllable) : disyllable_rule b → onsets_guarded b.
Proof.
  intros [o1 o2 v1 v2 cd _ Hsim _ _ | o1 o2 v1 v2 cd c _ Hsim _ _ _ _
         | stop nasal v1 v2 o2 cd c Hs Hn _ Ho2 Hguard _ _ _
         | stop nasal v1 v2 o2 cd c Hs Hn _ Ho2 Hguard _ _ _];
    (split; [by_compute|]); cbn [syl1 syl2 onset bi_shape].
  - apply similar_onsets_false in Hsim as [H12 H21].
    split; [exact H21|]. split; [intros _; exact H12|].
    intros H. exfalso. revert H. by_compute.
  - apply similar_onsets_false in Hsim as [H12 H21].
    split; [exact H21|]. split; [intros _; exact H12|].
    intros H. exfalso. revert H. by_compute.
  - split; [|split].
    + pose proof prenasal_cluster_not_prefix as H.
      rewrite Forall_forall in H. specialize (H _ Hs).
      rewrite Forall_forall in H. specialize (H _ Hn).
      rewrite Forall_forall in H. exact (H _ Ho2).
    + intros H. exfalso. revert H. by_compute.
    + intros _. rewrite governing_stop_prenasal by auto. exact Hguard.
  - split; [|split].
    + destruct (startswith o2 (stop ++ nasal)) eqn:Hp; [|reflexivity].
      apply startswith_app in Hp. congruence.
    + intros H. exfalso. revert H. by_compute.
    + intros _. rewrite governing_stop_postnasal by auto. exact Hguard.
Qed.

(** C1, as the code has it. In the CVCVC and CwVCVC families neither onset
    is a prefix of the other. In all four families the first onset is not a
    prefix of the second; in the NCVCVC and CNVCVC families the guard is on
    the stop member of the cluster: the second onset does not begin with
    it. *)
Theorem onset_dissimilation :
  ∃ out, _disyllables = Ok out ∧ Forall onsets_guarded out.
Proof.
  destruct (is_ok_Ok _ disyllables_total) as [out Hrun]. exists out.
  split; [exact Hrun|].
  eapply Forall_impl; [exact (disyllables_sound out Hrun)|].
  exact disyllable_rule_onsets.
Qed.

(** C1 fails as stated: the prenasal family yields "mp" followed by "m",
    and the postnasal family yields "pʰm" followed by "p"; in both the
    second onset is a prefix of the first. *)
Lemma cluster_onset_prefix_counterexample :
  ∃ out, _disyllables = Ok out
    ∧ mkBisyllable (mkMonosyllable (lit "mp") (lit "i") None (Some (lit "NCV")))
                   (mkMonosyllable (lit "m") (lit "a") (Some (lit "n")) (Some (lit "CVC")))
                   (lit "NCVCVC") ∈ out
    ∧ mkBisyllable (mkMonosyllable (lit "pʰm") (lit "i") None (Some (lit "CNV")))
                   (mkMonosyllable (lit "p") (lit "a") (Some (lit "m")) (Some (lit "CVC")))
                   (lit "CNVCVC") ∈ out
    ∧ startswith (lit "mp") (lit "m") = true
    ∧ startswith (lit "pʰm") (lit "p") = true
    ∧ ¬ Forall onsets_dissimilar out.
Proof.
  exists disyllables_out. split; [exact disyllables_run|].
  assert (Hin : mkBisyllable (mkMonosyllable (lit "mp") (lit "i") None (Some (lit "NCV")))
                  (mkMonosyllable (lit "m") (lit "a") (Some (lit "n")) (Some (lit "CVC")))
                  (lit "NCVCVC") ∈ disyllables_out) by by_compute.
  split; [exact Hin|]. split; [by_compute|].
  split; [reflexivity|]. split; [reflexivity|].
  intros Hall. rewrite Forall_forall in Hall.
  destruct (Hall _ Hin) as [Hp _]. discriminate Hp.
Qed.

(** ** Nuclei *)

Lemma disyllable_rule_nuclei (b : Bisyllable) : disyllable_rule b → nuclei_distinct b.
Proof.
  intros [o1 o2 v1 v2 cd _ _ Hv _ | o1 o2 v1 v2 cd c _ _ Hv _ _ _
         | stop nasal v1 v2 o2 cd c _ _ Hv _ _ _ _ _
         | stop nasal v1 v2 o2 cd c _ _ Hv _ _ _ _ _];
    unfold nuclei_distinct; cbn [syl1 syl2 nucleus bi_shape].
  2: { apply elem_of_product in Hv as [_ Hv2].
       pose proof (proj1 (Forall_forall _ _) VOWELS_no_glide _ Hv2) as Hw.
       split; [|split].
       - intros Heq. rewrite <- Heq in Hw. vm_compute in Hw. discriminate Hw.
       - intros _. split; [reflexivity|exact Hw].
       - intros Hne. by destruct Hne. }
  all: pose proof (elem_of_permutations2 _ _ _ NoDup_VOWELS Hv) as (_ & _ & Hne).
  all: split; [exact Hne|]; split; [|intros _; exact Hv].
  all: intros Hsh; vm_compute in Hsh; discriminate Hsh.
Qed.

(** C10. The two nuclei of every yielded disyllable differ: outside the
    glide family they are an ordered pair of distinct vowels, and in the
    glide family the first nucleus begins with "w" while the second, a bare
    vowel, does not. *)
Theorem nuclei_differ :
  ∃ out, _disyllables = Ok out ∧ Forall nuclei_distinct out.
Proof.
  destruct (is_ok_Ok _ disyllables_total) as [out Hrun]. exists out.
  split; [exact Hrun|].
  eapply Forall_impl; [exact (disyllables_sound out Hrun)|].
  exact disyllable_rule_nuclei.
Qed.

(* ===================================================================== *)
(** ** The row processor of the sampler *)
(* ===================================================================== *)

Lemma getitem_Some (d : gmap str str) (k v : str) : d !! k = Some v → getitem d k = Ok v.
Proof. unfold getitem. by intros ->. Qed.

Lemma delitem_Some (d : gmap str str) (k v : str) :
  d !! k = Some v → delitem d k = Ok (delete k d).
Proof. unfold delitem. by intros ->. Qed.

Lemma getitem_kept (r : row) (k v : str) :
  k ≠ lit "lexicality" → k ≠ lit "memo" → r !! k = Some v →
  getitem (delete (lit "memo") (delete (lit "lexicality") r)) k = Ok v.
Proof.
  intros H1 H2 Hk. apply getitem_Some.
  by rewrite !lookup_delete_ne.
Qed.

Lemma proc_row_skipped (r : row) (v : str) (out : list (str * row)) :
  r !! lit "lexicality" = Some v → v ≠ lit "FALSE" → _proc_row r out = Ok out.
Proof.
  intros Hlex Hne. unfold _proc_row. rewrite (getitem_Some _ _ _ Hlex).
  cbn [mbind exc_bind]. by rewrite bool_decide_eq_true_2.
Qed.

(** A row without the lexicality column stops the run, as [row["lexicality"]]
    does. *)
Lemma proc_row_missing (r : row) (out : list (str * row)) :
  r !! lit "lexicality" = None → _proc_row r out = Raise (KeyError (lit "lexicality")).
Proof. intros Hlex. unfold _proc_row, getitem. by rewrite Hlex. Qed.

Lemma proc_row_retained (r : row) (out : list (str * row)) :
  has_columns r → retained r → _proc_row r out = Ok (processed r :: out).
Proof.
  intros Hcols Hret. unfold has_columns, COLUMNS in Hcols.
  repeat match type of Hcols with
         | Forall _ (_ :: _) => apply Forall_cons in Hcols as [[? ?] Hcols]
         end.
  unfold _proc_row. rewrite (getitem_Some _ _ _ Hret). cbn [mbind exc_bind].
  rewrite bool_decide_eq_false_2 by (intros Hne; by apply Hne).
  rewrite (delitem_Some _ _ _ Hret). cbn [mbind exc_bind].
  erewrite delitem_Some;
    [|rewrite lookup_delete_ne by by_compute; eassumption]. cbn [mbind exc_bind].
  unfold processed, transcription_of, field.
  repeat (erewrite getitem_kept; [cbn [mbind exc_bind]|by_compute|by_compute|eassumption]).
  repeat match goal with H : r !! _ = Some _ |- _ => rewrite H; clear H end.
  reflexivity.
Qed.

Lemma proc_file_loop (source : list row) (out : list (str * row)) :
  Forall has_columns source →
  for_ source _proc_row out = Ok (reverse (processed <$> filter retained source) ++ out).
Proof.
  intros Hcols. revert out. induction Hcols as [|r source Hr _ IH]; intros out; [done|].
  cbn [for_]. rewrite filter_cons. destruct (decide (retained r)) as [Hret|Hret].
  - rewrite proc_row_retained by done. cbn [mbind exc_bind]. rewrite IH.
    by rewrite fmap_cons, reverse_cons, <- app_assoc.
  - apply Forall_cons in Hr as [[v Hv] _].
    rewrite (proc_row_skipped r v); [cbn [mbind exc_bind]; apply IH|done|].
    intros ->. by apply Hret.
Qed.

Lemma proc_file_Ok (source : list row) :
  Forall has_columns source → _proc_file source = Ok (processed <$> filter retained source).
Proof.
  intros Hcols. unfold _proc_file. rewrite proc_file_loop by done.
  cbn [fmap exc_fmap]. by rewrite app_nil_r, reverse_involutive.
Qed.

(** C7. The row processor yields a row exactly when its lexicality field is
    the string "FALSE" (in the order of the input); a yielded row has lost
    its lexicality and memo fields, has gained the transcription field, the
    concatenation of onset1, nucleus1, onset2, nucleus2 and coda, and keeps
    its other fields. *)
Theorem row_processor (source : list row) :
  Forall has_columns source →
  _proc_file source = Ok (processed <$> filter retained source)
  ∧ Forall (λ r,
      ∃ onset1 nucleus1 onset2 nucleus2 cd,
        r !! lit "onset1" = Some onset1 ∧ r !! lit "nucleus1" = Some nucleus1
        ∧ r !! lit "onset2" = Some onset2 ∧ r !! lit "nucleus2" = Some nucleus2
        ∧ r !! lit "coda" = Some cd
        ∧ (processed r).1 = field r (lit "shape")
        ∧ (processed r).2 !! lit "lexicality" = None
        ∧ (processed r).2 !! lit "memo" = None
        ∧ (processed r).2 !! lit "transcription"
          = Some (onset1 ++ nucleus1 ++ onset2 ++ nucleus2 ++ cd)
        ∧ ∀ k, k ∉ [lit "lexicality"; lit "memo"; lit "transcription"] →
               (processed r).2 !! k = r !! k) source.
Proof.
  intros Hcols. split; [by apply proc_file_Ok|].
  eapply Forall_impl; [exact Hcols|]. intros r Hr.
  unfold has_columns, COLUMNS in Hr.
  repeat match type of Hr with
         | Forall _ (_ :: _) => apply Forall_cons in Hr as [[? ?] Hr]
         end.
  do 5 eexists. repeat (split; [eassumption|]).
  unfold processed; cbn [fst snd]. split; [reflexivity|].
  split; [rewrite lookup_insert_ne by by_compute;
          rewrite lookup_delete_ne by by_compute; apply lookup_delete_eq|].
  split; [rewrite lookup_insert_ne by by_compute; apply lookup_delete_eq|].
  split.
  - rewrite lookup_insert_eq. unfold transcription_of, field.
    repeat match goal with H : r !! _ = Some _ |- _ => rewrite H; clear H end.
    reflexivity.
  - intros k Hk.
    rewrite lookup_insert_ne by (intros <-; apply Hk; set_solver).
    rewrite lookup_delete_ne by (intros <-; apply Hk; set_solver).
    rewrite lookup_delete_ne by (intros <-; apply Hk; set_solver).
    reflexivity.
Qed.

(* ===================================================================== *)
(** ** Grouping by shape *)
(* ===================================================================== *)

Lemma elem_of_by_shape_append (d : list (str * list row)) (k k' : str) (r : row) :
  k' ∈ (by_shape_append d k r).*1 ↔ k' = k ∨ k' ∈ d.*1.
Proof.
  induction d as [|[k0 es] d IH]; cbn [by_shape_append].
  - cbn. rewrite list_elem_of_singleton, elem_of_nil. tauto.
  - case_bool_decide as Hk; cbn [fmap list_fmap fst]; rewrite !elem_of_cons.
    + subst. tauto.
    + rewrite IH. tauto.
Qed.

Lemma NoDup_by_shape_append (d : list (str * list row)) (k : str) (r : row) :
  NoDup d.*1 → NoDup (by_shape_append d k r).*1.
Proof.
  induction d as [|[k0 es] d IH]; cbn [by_shape_append]; intros Hnd.
  - cbn. apply NoDup_singleton.
  - apply NoDup_cons in Hnd as [Hk0 Hnd].
    case_bool_decide as Hk; cbn [fmap list_fmap fst]; apply NoDup_cons.
    + by split.
    + split; [|by apply IH].
      rewrite elem_of_by_shape_append. intros [->|?]; done.
Qed.

Lemma tagged_by_shape_append (d : list (str * list row)) (k : str) (r : row) :
  r !! lit "shape" = Some k → Forall tagged d → Forall tagged (by_shape_append d k r).
Proof.
  intros Hr. induction d as [|[k0 es] d IH]; cbn [by_shape_append]; intros Hd.
  - repeat constructor. exact Hr.
  - apply Forall_cons in Hd as [Hes Hd].
    case_bool_decide as Hk; apply Forall_cons; split; try done; [|by apply IH].
    subst. unfold tagged in *. cbn [fst snd] in *.
    apply Forall_app. split; [done|]. by constructor.
Qed.

Lemma concat_by_shape_append (d : list (str * list row)) (k : str) (r : row) :
  concat (by_shape_append d k r).*2 ≡ₚ r :: concat d.*2.
Proof.
  induction d as [|[k0 es] d IH]; cbn [by_shape_append]; [done|].
  case_bool_decide as Hk; cbn [fmap list_fmap snd concat].
  - rewrite <- app_assoc. cbn [app].
    by rewrite <- Permutation_middle.
  - rewrite IH. by rewrite <- Permutation_middle.
Qed.

Lemma group_by_shape_props (ys : list (str * row)) (d : list (str * list row)) :
  Forall (λ y : str * row, y.2 !! lit "shape" = Some y.1) ys →
  NoDup d.*1 → Forall tagged d →
  let groups := foldl (λ d '(shape, r), by_shape_append d shape r) d ys in
  NoDup groups.*1 ∧ Forall tagged groups
  ∧ concat groups.*2 ≡ₚ concat d.*2 ++ ys.*2
  ∧ ∀ k, k ∈ groups.*1 ↔ k ∈ d.*1 ∨ k ∈ ys.*1.
Proof.
  intros Hys. revert d. induction Hys as [|[k r] ys Hy _ IH]; intros d Hnd Htag; cbn [foldl].
  - split; [done|]. split; [done|]. split; [by rewrite app_nil_r|].
    intros k. cbn. rewrite elem_of_nil. tauto.
  - destruct (IH (by_shape_append d k r)) as (H1 & H2 & H3 & H4).
    + by apply NoDup_by_shape_append.
    + by apply tagged_by_shape_append.
    + split; [done|]. split; [done|]. split.
      * rewrite H3, concat_by_shape_append. cbn [fmap list_fmap snd].
        by rewrite <- Permutation_middle.
      * intros k'. rewrite H4, elem_of_by_shape_append.
        cbn [fmap list_fmap fst]. rewrite elem_of_cons. tauto.
Qed.

Lemma rows_of_key_absent (d : list (str * list row)) (k : str) :
  k ∉ d.*1 → rows_of_key d k = [].
Proof.
  intros Hk. unfold rows_of_key. rewrite filter_none; [done|].
  apply Forall_forall. intros g Hg Heq. apply Hk.
  apply list_elem_of_fmap. by exists g.
Qed.

Lemma rows_of_key_append (d : list (str * list row)) (k k' : str) (r : row) :
  NoDup d.*1 →
  rows_of_key (by_shape_append d k r) k'
  = rows_of_key d k' ++ if decide (k' = k) then [r] else [].
Proof.
  unfold rows_of_key.
  induction d as [|[k0 es] d IH]; cbn [by_shape_append]; intros Hnd.
  - rewrite filter_cons, filter_nil. cbn [fst].
    destruct (decide (k = k')) as [->|Hne].
    + by rewrite decide_True.
    + by rewrite decide_False by congruence.
  - apply NoDup_cons in Hnd as [Hk0 Hnd]. case_bool_decide as Hk.
    + subst k0. rewrite !filter_cons. cbn [fst].
      destruct (decide (k = k')) as [->|Hne].
      * rewrite decide_True by done. cbn [fmap list_fmap snd concat].
        fold (rows_of_key d k'). rewrite (rows_of_key_absent d k') by done.
        by rewrite !app_nil_r.
      * rewrite decide_False by congruence. by rewrite app_nil_r.
    + rewrite !filter_cons. cbn [fst].
      destruct (decide (k0 = k')) as [->|Hne]; [|by apply IH].
      cbn [fmap list_fmap snd concat]. rewrite IH by done. by rewrite app_assoc.
Qed.

Lemma group_by_shape_rows (ys : list (str * row)) (k : str) :
  NoDup (group_by_shape ys).*1
  ∧ rows_of_key (group_by_shape ys) k = (filter (λ y : str * row, y.1 = k) ys).*2.
Proof.
  unfold group_by_shape. induction ys as [|[k0 r] ys [IHnd IH]] using rev_ind.
  { split; [constructor|done]. }
  rewrite foldl_app. cbn [foldl]. split; [by apply NoDup_by_shape_append|].
  rewrite rows_of_key_append, IH by done.
  rewrite filter_app, fmap_app, filter_cons, filter_nil. cbn [fst].
  destruct (decide (k = k0)) as [->|Hne].
  - by rewrite decide_True.
  - by rewrite decide_False by congruence.
Qed.

(** Each group of [by_shape] holds, in order, the retained rows of its
    shape. *)
Lemma group_by_shape_groups (ys : list (str * row)) :
  Forall (λ g : str * list row, g.2 = (filter (λ y : str * row, y.1 = g.1) ys).*2)
         (group_by_shape ys).
Proof.
  apply Forall_forall. intros [k es] Hg. cbn [fst snd].
  destruct (group_by_shape_rows ys k) as [Hnd <-].
  revert Hg Hnd. generalize (group_by_shape ys). intros d.
  induction d as [|[k0 es0] d IH]; intros Hg Hnd; [by apply elem_of_nil in Hg|].
  apply NoDup_cons in Hnd as [Hk0 Hnd]. unfold rows_of_key. rewrite filter_cons. cbn [fst].
  apply elem_of_cons in Hg as [[= <- <-]|Hg].
  - rewrite decide_True by done. cbn [fmap list_fmap snd concat].
    fold (rows_of_key d k). rewrite rows_of_key_absent by done. by rewrite app_nil_r.
  - rewrite decide_False.
    + by apply IH.
    + intros ->. apply Hk0. apply list_elem_of_fmap. by exists (k, es).
Qed.

Lemma processed_tagged (r : row) :
  has_columns r → (processed r).2 !! lit "shape" = Some (processed r).1.
Proof.
  intros Hr. unfold has_columns, COLUMNS in Hr.
  apply Forall_cons in Hr as [_ Hr]. apply Forall_cons in Hr as [_ Hr].
  apply Forall_cons in Hr as [[v Hv] _].
  unfold processed, field. cbn [fst snd]. rewrite Hv. cbn [default].
  rewrite lookup_insert_ne by by_compute.
  by rewrite !lookup_delete_ne by by_compute.
Qed.

Lemma retained_rows_tagged (mono di : list row) :
  Forall has_columns mono → Forall has_columns di →
  Forall (λ y : str * row, y.2 !! lit "shape" = Some y.1) (retained_rows mono di).
Proof.
  intros Hm Hd. unfold retained_rows. apply Forall_fmap, Forall_forall.
  intros r [_ Hr]%list_elem_of_filter. apply processed_tagged.
  assert (Hall : Forall has_columns (mono ++ di)) by by apply Forall_app.
  exact (proj1 (Forall_forall _ _) Hall _ Hr).
Qed.

Lemma count_shape_tagged (k k' : str) (l : list row) :
  Forall (λ r : row, r !! lit "shape" = Some k) l →
  count_shape k' l = if decide (k' = k) then length l else 0.
Proof.
  unfold count_shape. induction 1 as [|r l Hr _ IH]; [by destruct (decide _)|].
  rewrite filter_cons, Hr. destruct (decide (k' = k)) as [->|Hne].
  - by rewrite decide_True, length_cons, IH.
  - rewrite decide_False by congruence. exact IH.
Qed.

Lemma count_shape_app (k : str) (l1 l2 : list row) :
  count_shape k (l1 ++ l2) = count_shape k l1 + count_shape k l2.
Proof. unfold count_shape. by rewrite filter_app, length_app. Qed.

(* ===================================================================== *)
(** ** The sampling loop *)
(* ===================================================================== *)

Section SamplerProperties.
Context {rng : Type} (seed : Z → rng) (shuffle : rng → list row → rng * list row).

(** What is used of [random.shuffle]: it permutes its argument. *)
Hypothesis shuffle_perm : ∀ g l, (shuffle g l).2 ≡ₚ l.

Lemma sample_group_sufficient (k : str) (entries : list row) (s : sampler) :
  sufficient (k, entries) →
  ∃ s' elist,
    sample_group shuffle (k, entries) s = Ok s'
    ∧ elist ≡ₚ entries
    ∧ list1 s' = list1 s ++ take (draw_size k) elist
    ∧ list2 s' = list2 s ++ take (draw_size k) (drop (draw_size k) elist).
Proof.
  unfold sufficient. cbn [fst snd]. intros Hlen.
  unfold sample_group. rewrite bool_decide_eq_true_2 by done.
  pose proof (shuffle_perm (gen s) entries) as Hperm.
  destruct (shuffle (gen s) entries) as [g elist]. cbn [snd] in Hperm.
  eexists _, elist. split; [reflexivity|]. split; [exact Hperm|].
  unfold slice. cbn [list1 list2]. rewrite Nat.sub_0_r, drop_0.
  by replace (2 * draw_size k - draw_size k) with (draw_size k) by lia.
Qed.

Lemma sample_group_deficient (k : str) (entries : list row) (s : sampler) :
  ¬ sufficient (k, entries) →
  sample_group shuffle (k, entries) s = Raise (AssertionError k (length entries)).
Proof.
  unfold sufficient. cbn [fst snd]. intros Hlen.
  unfold sample_group. by rewrite bool_decide_eq_false_2.
Qed.

(** The loop over sufficient groups: how many rows of each shape and how
    many rows in all each list gains, and where the rows come from. *)
Lemma sample_loop_Ok (groups : list (str * list row)) (s : sampler) :
  NoDup groups.*1 → Forall tagged groups → Forall sufficient groups →
  ∃ s',
    for_ groups (sample_group shuffle) s = Ok s'
    ∧ (∀ k, count_shape k (list1 s')
            = count_shape k (list1 s) + if decide (k ∈ groups.*1) then draw_size k else 0)
    ∧ (∀ k, count_shape k (list2 s')
            = count_shape k (list2 s) + if decide (k ∈ groups.*1) then draw_size k else 0)
    ∧ length (list1 s') = length (list1 s) + sum_list_with draw_size groups.*1
    ∧ length (list2 s') = length (list2 s) + sum_list_with draw_size groups.*1
    ∧ list1 s' ++ list2 s' ⊆+ list1 s ++ list2 s ++ concat groups.*2.
Proof.
  intros Hnd Htag Hsuf. revert s.
  induction groups as [|[k entries] groups IH]; intros s.
  { exists s. split; [done|]. cbn. setoid_rewrite Nat.add_0_r.
    repeat split; try done. by rewrite app_nil_r. }
  apply NoDup_cons in Hnd as [Hk Hnd].
  apply Forall_cons in Htag as [Hke Htag].
  apply Forall_cons in Hsuf as [Hlen Hsuf].
  destruct (sample_group_sufficient k entries s Hlen) as (s1 & elist & H1 & Hperm & Hl1 & Hl2).
  destruct (IH Hnd Htag Hsuf s1) as (s' & Hrun & Hc1 & Hc2 & Hn1 & Hn2 & Hsub).
  exists s'. cbn [for_]. rewrite H1. cbn [mbind exc_bind]. split; [exact Hrun|].
  unfold sufficient, tagged in Hlen, Hke. cbn [fst snd] in Hlen, Hke.
  assert (Helist : Forall (λ r : row, r !! lit "shape" = Some k) elist)
    by by rewrite Hperm.
  assert (Hlen' : length elist = length entries) by by rewrite Hperm.
  assert (Hcount : ∀ k' l, Forall (λ r : row, r !! lit "shape" = Some k) l →
                           length l = draw_size k →
                           count_shape k' l
                           + (if decide (k' ∈ groups.*1) then draw_size k' else 0)
                           = if decide (k' ∈ ((k, entries) :: groups).*1)
                             then draw_size k' else 0).
  { intros k' l Hl Hlen1. rewrite (count_shape_tagged k k' l Hl).
    cbn [fmap list_fmap fst].
    destruct (decide (k' = k)) as [->|Hne].
    - rewrite decide_False by done. rewrite decide_True by by left. lia.
    - destruct (decide (k' ∈ groups.*1)).
      + rewrite decide_True by by right. lia.
      + rewrite decide_False; [lia|]. by intros [?|?]%elem_of_cons. }
  assert (Ha : length (take (draw_size k) elist) = draw_size k)
    by (rewrite length_take; lia).
  assert (Hb : length (take (draw_size k) (drop (draw_size k) elist)) = draw_size k)
    by (rewrite length_take, length_drop; lia).
  split; [|split; [|split; [|split]]].
  - intros k'. rewrite Hc1, Hl1, count_shape_app, <- Nat.add_assoc. f_equal.
    apply Hcount; [by apply Forall_take|exact Ha].
  - intros k'. rewrite Hc2, Hl2, count_shape_app, <- Nat.add_assoc. f_equal.
    apply Hcount; [by apply Forall_take, Forall_drop|exact Hb].
  - rewrite Hn1, Hl1, length_app, Ha. cbn. lia.
  - rewrite Hn2, Hl2, length_app, Hb. cbn. lia.
  - etrans; [exact Hsub|]. rewrite Hl1, Hl2. cbn [fmap list_fmap snd concat].
    rewrite <- Hperm.
    assert (Hab : take (draw_size k) elist ++ take (draw_size k) (drop (draw_size k) elist)
                  ⊆+ elist)
      by (rewrite take_take_drop; apply sublist_submseteq, sublist_take).
    revert Hab. generalize (take (draw_size k) elist)
                           (take (draw_size k) (drop (draw_size k) elist)).
    intros a b Hab.
    trans (list1 s ++ list2 s ++ (a ++ b) ++ concat groups.*2).
    + apply Permutation_submseteq. solve_Permutation.
    + do 2 apply submseteq_skips_l. by apply submseteq_app.
Qed.

(** The loop stops at the first group that is too small. *)
Lemma sample_loop_Raise (groups : list (str * list row)) (s : sampler) :
  Exists (λ g, ¬ sufficient g) groups →
  ∃ k entries,
    for_ groups (sample_group shuffle) s = Raise (AssertionError k (length entries))
    ∧ (k, entries) ∈ groups ∧ ¬ sufficient (k, entries).
Proof.
  intros Hex. revert s. induction groups as [|[k entries] groups IH]; intros s.
  { by apply Exists_nil in Hex. }
  destruct (decide (sufficient (k, entries))) as [Hlen|Hlen].
  - apply Exists_cons in Hex as [?|Hex]; [done|].
    destruct (sample_group_sufficient k entries s Hlen) as (s1 & _ & H1 & _).
    destruct (IH Hex s1) as (k' & entries' & Hrun & Hin & Hdef).
    exists k', entries'. cbn [for_]. rewrite H1. cbn [mbind exc_bind].
    split; [exact Hrun|]. split; [by right|done].
  - exists k, entries. cbn [for_]. rewrite sample_group_deficient by done.
    split; [done|]. split; [by left|done].
Qed.
End SamplerProperties.

(* ===================================================================== *)
(** ** The sampler as a whole *)
(* ===================================================================== *)

Lemma draw_size_MONO_SHAPES : Forall (λ k, draw_size k = 5) MONO_SHAPES.
Proof. by_compute. Qed.

Lemma draw_size_OTHER_SHAPES : Forall (λ k, draw_size k = 10) OTHER_SHAPES.
Proof. by_compute. Qed.

Lemma NoDup_SHAPES : NoDup (MONO_SHAPES ++ OTHER_SHAPES).
Proof. by_compute. Qed.

Lemma writerows_exn (fieldnames : gset str) (rs : list row) :
  (writerows fieldnames rs).2 = None ∨ (writerows fieldnames rs).2 = Some ValueError.
Proof.
  induction rs as [|r rs IH]; cbn [writerows]; [by left|].
  case_bool_decide; [|by right].
  destruct (writerows fieldnames rs) as [w e]. exact IH.
Qed.

Lemma deficient_not_sufficient (g : str * list row) : deficient g ↔ ¬ sufficient g.
Proof. unfold deficient, sufficient. lia. Qed.

Section SamplerClaims.
Context {rng : Type} (seed : Z → rng) (shuffle : rng → list row → rng * list row).
Hypothesis shuffle_perm : ∀ g l, (shuffle g l).2 ≡ₚ l.

Lemma main_lists_loop (mono di : list row) :
  Forall has_columns mono → Forall has_columns di →
  main_lists seed shuffle mono di
  = s ← sample_loop seed shuffle mono di;
    let '(g, l1) := shuffle (gen s) (list1 s) in
    let '(g, l2) := shuffle g (list2 s) in
    Ok (last (retained_rows mono di).*2, l1, l2).
Proof.
  intros Hm Hd. unfold main_lists, sample_loop, retained_rows.
  rewrite !proc_file_Ok by done. cbn [mbind exc_bind].
  by rewrite filter_app, !fmap_app.
Qed.

Lemma main_lists_Ok (mono di : list row) (s : sampler) :
  Forall has_columns mono → Forall has_columns di →
  sample_loop seed shuffle mono di = Ok s →
  ∃ l1 l2, main_lists seed shuffle mono di = Ok (last (retained_rows mono di).*2, l1, l2)
           ∧ l1 ≡ₚ list1 s ∧ l2 ≡ₚ list2 s.
Proof.
  intros Hm Hd Hloop. rewrite main_lists_loop, Hloop by done. cbn [mbind exc_bind].
  pose proof (shuffle_perm (gen s) (list1 s)) as H1.
  destruct (shuffle (gen s) (list1 s)) as [g l1].
  pose proof (shuffle_perm g (list2 s)) as H2.
  destruct (shuffle g (list2 s)) as [g' l2].
  by exists l1, l2.
Qed.

Lemma groups_props (mono di : list row) :
  Forall has_columns mono → Forall has_columns di →
  let groups := group_by_shape (retained_rows mono di) in
  NoDup groups.*1 ∧ Forall tagged groups
  ∧ concat groups.*2 ≡ₚ (retained_rows mono di).*2
  ∧ ∀ k, k ∈ groups.*1 ↔ k ∈ (retained_rows mono di).*1.
Proof.
  intros Hm Hd.
  destruct (group_by_shape_props (retained_rows mono di) [])
    as (H1 & H2 & H3 & H4); [by apply retained_rows_tagged|constructor|constructor|].
  split; [exact H1|]. split; [exact H2|]. split; [exact H3|].
  intros k. rewrite H4. cbn. rewrite elem_of_nil. tauto.
Qed.

(** C4. When the shape tags of the retained rows are exactly the eight
    categories and every shape group holds at least twice its draw size,
    each of the two lists has exactly 5 rows of each of CVC, CwVC, CNVC,
    NCVC, exactly 10 rows of each of the other four shapes, and 60 rows
    in all. *)
Theorem balanced_composition (mono di : list row) :
  Forall has_columns mono → Forall has_columns di →
  (retained_rows mono di).*1 ⊆ MONO_SHAPES ++ OTHER_SHAPES →
  MONO_SHAPES ++ OTHER_SHAPES ⊆ (retained_rows mono di).*1 →
  Forall sufficient (group_by_shape (retained_rows mono di)) →
  ∃ row_var l1 l2,
    main_lists seed shuffle mono di = Ok (row_var, l1, l2)
    ∧ Forall (λ l, Forall (λ k, count_shape k l = 5) MONO_SHAPES
                   ∧ Forall (λ k, count_shape k l = 10) OTHER_SHAPES
                   ∧ length l = 60) [l1; l2].
Proof.
  intros Hm Hd Hsub1 Hsub2 Hsuf.
  destruct (groups_props mono di Hm Hd) as (Hnd & Htag & _ & Hkeys).
  destruct (sample_loop_Ok shuffle shuffle_perm _ (mkSampler (seed SEED) [] [])
              Hnd Htag Hsuf) as (s & Hloop & Hc1 & Hc2 & Hn1 & Hn2 & _).
  destruct (main_lists_Ok mono di s Hm Hd Hloop) as (l1 & l2 & Hrun & Hp1 & Hp2).
  exists (last (retained_rows mono di).*2), l1, l2. split; [exact Hrun|].
  assert (Hperm : (group_by_shape (retained_rows mono di)).*1 ≡ₚ MONO_SHAPES ++ OTHER_SHAPES).
  { apply NoDup_Permutation; [exact Hnd|exact NoDup_SHAPES|].
    intros k. rewrite Hkeys. split; [apply Hsub1|apply Hsub2]. }
  assert (Hsum : sum_list_with draw_size (group_by_shape (retained_rows mono di)).*1 = 60)
    by (rewrite Hperm; by vm_compute).
  assert (Hin : ∀ k, k ∈ MONO_SHAPES ++ OTHER_SHAPES →
                     k ∈ (group_by_shape (retained_rows mono di)).*1)
    by (intros k Hk; by rewrite Hperm).
  assert (Hgoal : ∀ l l0, l ≡ₚ l0 →
            (∀ k, count_shape k l0
                  = count_shape k [] + if decide (k ∈ (group_by_shape (retained_rows mono di)).*1)
                                       then draw_size k else 0) →
            length l0 = length (@nil row) + 60 →
            Forall (λ k, count_shape k l = 5) MONO_SHAPES
            ∧ Forall (λ k, count_shape k l = 10) OTHER_SHAPES ∧ length l = 60).
  { intros l l0 Hp Hc Hn.
    assert (Hcount : ∀ k, k ∈ MONO_SHAPES ++ OTHER_SHAPES → count_shape k l = draw_size k).
    { intros k Hk. unfold count_shape. rewrite Hp. fold (count_shape k l0).
      rewrite Hc, decide_True by auto. reflexivity. }
    split; [|split].
    - apply Forall_forall. intros k Hk.
      rewrite Hcount by (apply elem_of_app; by left).
      exact (proj1 (Forall_forall _ _) draw_size_MONO_SHAPES k Hk).
    - apply Forall_forall. intros k Hk.
      rewrite Hcount by (apply elem_of_app; by right).
      exact (proj1 (Forall_forall _ _) draw_size_OTHER_SHAPES k Hk).
    - rewrite Hp. exact Hn. }
  cbn [list1 list2] in Hc1, Hc2, Hn1, Hn2. rewrite Hsum in Hn1, Hn2.
  apply Forall_cons. split; [exact (Hgoal l1 (list1 s) Hp1 Hc1 Hn1)|].
  apply Forall_cons. split; [exact (Hgoal l2 (list2 s) Hp2 Hc2 Hn2)|constructor].
Qed.

Lemma main_Raise (mono di : list row) (e : exn) :
  main_lists seed shuffle mono di = Raise e →
  main seed shuffle mono di = (mkFiles None None, Some e).
Proof. unfold main. by intros ->. Qed.

Lemma main_Ok_outcome (mono di : list row) (x : option row * list row * list row) :
  main_lists seed shuffle mono di = Ok x →
  ∀ k n, (main seed shuffle mono di).2 ≠ Some (AssertionError k n).
Proof.
  unfold main. intros -> k n. destruct x as [[[r|] l1] l2]; [|done].
  pose proof (writerows_exn (dom r) l1) as H1.
  pose proof (writerows_exn (dom r) l2) as H2.
  destruct (writerows (dom r) l1) as [w1 e1], (writerows (dom r) l2) as [w2 e2].
  cbn [snd] in H1, H2. destruct H1 as [-> | ->]; [|done].
  by destruct H2 as [-> | ->].
Qed.

(** C5, as the code has it. On every run that meets the preconditions the
    rows of the two lists are drawn from the retained rows without reuse
    (the two lists together are a sub-multiset of the retained rows); and
    when the retained rows have pairwise distinct transcriptions, no
    transcription occurs in both lists. *)
Theorem sampled_lists_disjoint (mono di : list row) :
  Forall has_columns mono → Forall has_columns di →
  Forall sufficient (group_by_shape (retained_rows mono di)) →
  ∃ row_var l1 l2,
    main_lists seed shuffle mono di = Ok (row_var, l1, l2)
    ∧ l1 ++ l2 ⊆+ (retained_rows mono di).*2
    ∧ (NoDup (transcriptions (retained_rows mono di).*2) →
       ∀ t, t ∈ transcriptions l1 → t ∉ transcriptions l2).
Proof.
  intros Hm Hd Hsuf.
  destruct (groups_props mono di Hm Hd) as (Hkeys & Htag & Hconcat & _).
  destruct (sample_loop_Ok shuffle shuffle_perm _ (mkSampler (seed SEED) [] [])
              Hkeys Htag Hsuf) as (s & Hloop & _ & _ & _ & _ & Hsub).
  destruct (main_lists_Ok mono di s Hm Hd Hloop) as (l1 & l2 & Hrun & Hp1 & Hp2).
  exists (last (retained_rows mono di).*2), l1, l2. split; [exact Hrun|].
  assert (Hsub' : l1 ++ l2 ⊆+ (retained_rows mono di).*2).
  { rewrite Hp1, Hp2, <- Hconcat. exact Hsub. }
  split; [exact Hsub'|]. intros Hnd.
  assert (Htr : transcriptions l1 ++ transcriptions l2
                ⊆+ transcriptions (retained_rows mono di).*2).
  { unfold transcriptions. rewrite <- fmap_app. by apply fmap_submseteq. }
  apply submseteq_Permutation in Htr as [rest Hrest].
  rewrite Hrest in Hnd.
  apply NoDup_app in Hnd as [Hnd _]. apply NoDup_app in Hnd as (_ & Hdisj & _).
  exact Hdisj.
Qed.

Lemma writerows_all (fieldnames : gset str) (rs : list row) :
  Forall (λ r : row, dom r = fieldnames) rs → writerows fieldnames rs = (rs, None).
Proof.
  induction 1 as [|r rs Hr _ IH]; [done|]. cbn [writerows].
  rewrite bool_decide_eq_true_2 by by rewrite Hr. by rewrite IH.
Qed.

(** X21. When the retained rows share their columns, as the rows of tables
    with one header do, and every shape group is large enough, [main] ends
    without exception and the two files receive the two lists under that
    header. *)
Lemma main_writes_lists (mono di : list row) (D : gset str) :
  Forall has_columns mono → Forall has_columns di →
  Forall sufficient (group_by_shape (retained_rows mono di)) →
  retained_rows mono di ≠ [] →
  Forall (λ r : row, dom r = D) (retained_rows mono di).*2 →
  ∃ row_var l1 l2,
    main_lists seed shuffle mono di = Ok (row_var, l1, l2)
    ∧ main seed shuffle mono di
      = (mkFiles (Some (Table D l1)) (Some (Table D l2)), None).
Proof.
  intros Hm Hd Hsuf Hne Hdom.
  destruct (groups_props mono di Hm Hd) as (Hkeys & Htag & Hconcat & _).
  destruct (sample_loop_Ok shuffle shuffle_perm _ (mkSampler (seed SEED) [] [])
              Hkeys Htag Hsuf) as (s & Hloop & _ & _ & _ & _ & Hsub).
  destruct (main_lists_Ok mono di s Hm Hd Hloop) as (l1 & l2 & Hrun & Hp1 & Hp2).
  exists (last (retained_rows mono di).*2), l1, l2. split; [exact Hrun|].
  assert (Hall : Forall (λ r : row, dom r = D) (l1 ++ l2)).
  { rewrite Forall_forall in Hdom. apply Forall_forall. intros r Hr. apply Hdom.
    rewrite <- Hconcat. eapply elem_of_submseteq; [|exact Hsub].
    cbn [list1 list2 app]. by rewrite <- Hp1, <- Hp2. }
  apply Forall_app in Hall as [H1 H2].
  unfold main. rewrite Hrun.
  destruct (last (retained_rows mono di).*2) as [r|] eqn:Hlast.
  - assert (Hr : dom r = D).
    { rewrite Forall_forall in Hdom. apply Hdom. by eapply last_Some_elem_of. }
    rewrite Hr, !writerows_all by done. reflexivity.
  - apply last_None in Hlast. apply fmap_nil_inv in Hlast. done.
Qed.

(** C6. The run ends with the assertion failure, carrying the offending
    shape and the number of its rows, exactly when some shape group of
    retained rows holds fewer than twice its draw size; and then neither
    output file has been opened. *)
Theorem insufficient_group_aborts (mono di : list row) :
  Forall has_columns mono → Forall has_columns di →
  ((∃ k n, (main seed shuffle mono di).2 = Some (AssertionError k n))
   ↔ Exists deficient (group_by_shape (retained_rows mono di)))
  ∧ (∀ k n, (main seed shuffle mono di).2 = Some (AssertionError k n) →
       (main seed shuffle mono di).1 = mkFiles None None
       ∧ ∃ entries, (k, entries) ∈ group_by_shape (retained_rows mono di)
                    ∧ n = length entries ∧ n < 2 * draw_size k)
  ∧ (∀ k, 2 * draw_size k = if bool_decide (k ∈ MONO_SHAPES) then 10 else 20).
Proof.
  intros Hm Hd. apply and_assoc. split;
    [|intros k; unfold draw_size, MONO_SHAPES; by case_bool_decide].
  destruct (groups_props mono di Hm Hd) as (Hkeys & Htag & _ & _).
  destruct (decide (Exists (λ g, ¬ sufficient g) (group_by_shape (retained_rows mono di))))
    as [Hex|Hnex].
  - destruct (sample_loop_Raise shuffle shuffle_perm _ (mkSampler (seed SEED) [] []) Hex)
      as (k & entries & Hloop & Hin & Hdef).
    assert (Hrun : main seed shuffle mono di
                   = (mkFiles None None, Some (AssertionError k (length entries)))).
    { apply main_Raise. rewrite main_lists_loop by done.
      fold (sample_loop seed shuffle mono di) in Hloop. by rewrite Hloop. }
    rewrite Hrun. cbn [fst snd]. split.
    + split; [intros _|intros _; by exists k, (length entries)].
      eapply Exists_impl; [exact Hex|]. intros g. apply deficient_not_sufficient.
    + intros k' n [= <- <-]. split; [done|]. exists entries.
      split; [exact Hin|]. split; [done|]. by apply deficient_not_sufficient in Hdef.
  - assert (Hsuf : Forall sufficient (group_by_shape (retained_rows mono di))).
    { apply not_Exists_Forall in Hnex; [|apply _].
      eapply Forall_impl; [exact Hnex|]. intros g Hg. by apply dec_stable. }
    destruct (sample_loop_Ok shuffle shuffle_perm _ (mkSampler (seed SEED) [] [])
                Hkeys Htag Hsuf) as (s & Hloop & _).
    destruct (main_lists_Ok mono di s Hm Hd Hloop) as (l1 & l2 & Hrun & _).
    pose proof (main_Ok_outcome mono di _ Hrun) as Hno.
    split.
    + split; [intros (k & n & H); by destruct (Hno k n)|].
      intros Hex. destruct Hnex.
      eapply Exists_impl; [exact Hex|]. intros g. apply deficient_not_sufficient.
    + intros k n H. by destruct (Hno k n).
Qed.
End SamplerClaims.

(* ===================================================================== *)
(** ** Concrete runs of the sampler *)
(* ===================================================================== *)

Lemma reversing_shuffle_perm (g : nat) (l : list row) : (reversing_shuffle g l).2 ≡ₚ l.
Proof. apply reverse_Permutation. Qed.

(** A table of one ill-formed and one well-formed row. *)
Lemma row_processor_witness :
  _proc_file [annotated (lit "FALSE") (lit "CVC") [] [] (lit "p") (lit "a") (lit "n");
              annotated (lit "TRUE") (lit "CVC") [] [] (lit "p") (lit "a") (lit "m")]
  = Ok [(lit "CVC",
         list_to_map
           [(lit "onset1", []); (lit "nucleus1", []); (lit "onset2", lit "p");
            (lit "nucleus2", lit "a"); (lit "coda", lit "n"); (lit "shape", lit "CVC");
            (lit "transcription", lit "pan")])].
Proof.
  destruct (row_processor
              [annotated (lit "FALSE") (lit "CVC") [] [] (lit "p") (lit "a") (lit "n");
               annotated (lit "TRUE") (lit "CVC") [] [] (lit "p") (lit "a") (lit "m")])
    as [Hrun _]; [by_compute|].
  rewrite Hrun. vm_compute. reflexivity.
Defined.

(** The two tables above meet the hypotheses on the sampler's input. *)
Lemma balanced_composition_witness :
  ∃ row_var l1 l2,
    main_lists (λ _, 0) reversing_shuffle mono_table di_table = Ok (row_var, l1, l2)
    ∧ Forall (λ l, Forall (λ k, count_shape k l = 5) MONO_SHAPES
                   ∧ Forall (λ k, count_shape k l = 10) OTHER_SHAPES
                   ∧ length l = 60) [l1; l2].
Proof.
  apply (balanced_composition (λ _, 0) reversing_shuffle reversing_shuffle_perm
           mono_table di_table); by_compute.
Defined.

(** The transcriptions of the two tables are pairwise distinct; the ten
    copies of one row are drawn without reuse all the same. *)
Lemma sampled_lists_disjoint_witness :
  (∃ row_var l1 l2,
     main_lists (λ _, 0) reversing_shuffle mono_table di_table = Ok (row_var, l1, l2)
     ∧ l1 ++ l2 ⊆+ (retained_rows mono_table di_table).*2
     ∧ ∀ t, t ∈ transcriptions l1 → t ∉ transcriptions l2)
  ∧ (∃ row_var l1 l2,
       main_lists (λ _, 0) reversing_shuffle duplicated_table [] = Ok (row_var, l1, l2)
       ∧ l1 ++ l2 ⊆+ (retained_rows duplicated_table []).*2).
Proof.
  split.
  - destruct (sampled_lists_disjoint (λ _, 0) reversing_shuffle reversing_shuffle_perm
                mono_table di_table) as (rv & l1 & l2 & Hrun & Hsub & Hdis); [by_compute..|].
    exists rv, l1, l2. split; [exact Hrun|]. split; [exact Hsub|]. apply Hdis. by_compute.
  - destruct (sampled_lists_disjoint (λ _, 0) reversing_shuffle reversing_shuffle_perm
                duplicated_table []) as (rv & l1 & l2 & Hrun & Hsub & _); [by_compute..|].
    exists rv, l1, l2. split; [exact Hrun|exact Hsub].
Defined.

(** A table of three CVC rows, seven short of the ten the draw needs. *)
Lemma insufficient_group_aborts_witness :
  ((∃ k n, (main (λ _, 0) reversing_shuffle (sample_rows (lit "CVC") 3) []).2
           = Some (AssertionError k n))
   ↔ Exists deficient (group_by_shape (retained_rows (sample_rows (lit "CVC") 3) [])))
  ∧ (∀ k n, (main (λ _, 0) reversing_shuffle (sample_rows (lit "CVC") 3) []).2
            = Some (AssertionError k n) →
       (main (λ _, 0) reversing_shuffle (sample_rows (lit "CVC") 3) []).1 = mkFiles None None
       ∧ ∃ entries,
           (k, entries) ∈ group_by_shape (retained_rows (sample_rows (lit "CVC") 3) [])
                    ∧ n = length entries ∧ n < 2 * draw_size k)
  ∧ (∀ k, 2 * draw_size k = if bool_decide (k ∈ MONO_SHAPES) then 10 else 20).
Proof.
  apply (insufficient_group_aborts (λ _, 0) reversing_shuffle reversing_shuffle_perm
           (sample_rows (lit "CVC") 3) []); by_compute.
Defined.

Example main_three_rows :
  main (λ _, 0) reversing_shuffle (sample_rows (lit "CVC") 3) []
  = (mkFiles None None, Some (AssertionError (lit "CVC") 3)).
Proof. vm_compute. reflexivity. Qed.

Example main_no_rows :
  main (λ _, 0) reversing_shuffle [] []
  = (mkFiles (Some Empty) None, Some (UnboundLocalError (lit "row"))).
Proof. vm_compute. reflexivity. Qed.

Section Collision.
Context {rng : Type} (seed : Z → rng) (shuffle : rng → list row → rng * list row).
Hypothesis shuffle_perm : ∀ g l, (shuffle g l).2 ≡ₚ l.

(** Whatever permutation the shuffles pick, ten copies of one row put the
    same transcription in both lists. *)
Lemma duplicated_rows_collide :
  ∃ row_var l1 l2,
    main_lists seed shuffle duplicated_table [] = Ok (row_var, l1, l2)
    ∧ Some (lit "pan") ∈ transcriptions l1 ∧ Some (lit "pan") ∈ transcriptions l2.
Proof.
  assert (Hm : Forall has_columns duplicated_table) by by_compute.
  assert (Hd : Forall has_columns []) by constructor.
  assert (Hsuf : Forall sufficient (group_by_shape (retained_rows duplicated_table [])))
    by by_compute.
  destruct (groups_props duplicated_table [] Hm Hd) as (Hkeys & Htag & Hconcat & _).
  destruct (sample_loop_Ok shuffle shuffle_perm _ (mkSampler (seed SEED) [] [])
              Hkeys Htag Hsuf) as (s & Hloop & _ & _ & Hn1 & Hn2 & Hsub).
  destruct (main_lists_Ok seed shuffle shuffle_perm _ _ s Hm Hd Hloop)
    as (l1 & l2 & Hrun & Hp1 & Hp2).
  exists (last (retained_rows duplicated_table []).*2), l1, l2. split; [exact Hrun|].
  assert (Hall : Forall (λ r : row, r !! lit "transcription" = Some (lit "pan"))
                   (l1 ++ l2)).
  { assert (Hret : Forall (λ r : row, r !! lit "transcription" = Some (lit "pan"))
                     (retained_rows duplicated_table []).*2) by by_compute.
    rewrite <- Hconcat in Hret. rewrite Hp1, Hp2.
    rewrite Forall_forall in Hret. apply Forall_forall. intros r Hr.
    apply Hret. eapply elem_of_submseteq; [exact Hr|exact Hsub]. }
  apply Forall_app in Hall as [H1 H2].
  assert (Hlen : ∀ l l0 : list row, l ≡ₚ l0 → length l0 = 5 →
                 Forall (λ r : row, r !! lit "transcription" = Some (lit "pan")) l →
                 Some (lit "pan") ∈ transcriptions l).
  { intros l l0 Hp Hl0 Hl. rewrite <- Hp in Hl0.
    destruct Hl as [|r l Hr _]; [discriminate|].
    unfold transcriptions. rewrite fmap_cons, Hr. by left. }
  split; [eapply Hlen; [exact Hp1|exact Hn1|exact H1]
         |eapply Hlen; [exact Hp2|exact Hn2|exact H2]].
Qed.
End Collision.

(** C5 fails as stated: an input may repeat a transcription. Ten copies of
    one ill-formed CVC row satisfy the size precondition, and both lists
    then contain the transcription "pan". *)
Lemma duplicate_transcription_counterexample :
  Forall has_columns duplicated_table
  ∧ Forall sufficient (group_by_shape (retained_rows duplicated_table []))
  ∧ ∃ row_var l1 l2,
      main_lists (λ _, 0) reversing_shuffle duplicated_table [] = Ok (row_var, l1, l2)
      ∧ Some (lit "pan") ∈ transcriptions l1 ∧ Some (lit "pan") ∈ transcriptions l2.
Proof.
  split; [by_compute|]. split; [by_compute|].
  exact (duplicated_rows_collide (λ _, 0) reversing_shuffle reversing_shuffle_perm).
Qed.

(* ===================================================================== *)
(** ** Romanization and the lexicon pass *)
(* ===================================================================== *)

Section CollaboratorProperties.
Variable jamo_to_hangul : str → str → str → exc str.
Variable romanizer : str → exc str.

(** C9, as the code has it. The romanization attribute is the external
    routine applied to the hangul attribute, whatever it is: also to the
    empty string that stands for a failed composition, and with the
    routine's exceptions passed on. Only the lexicon loop catches the
    routine's [KeyError] and [AttributeError], dropping the entry. *)
Theorem romanization_delegates :
  (∀ m h, hangul jamo_to_hangul m = Ok h →
          romanization jamo_to_hangul romanizer m = romanizer h)
  ∧ (∀ b h, bi_hangul jamo_to_hangul b = Ok h →
            bi_romanization jamo_to_hangul romanizer b = romanizer h)
  ∧ (∀ m o n c, jamo_tuple m = Ok (o, n, c) → jamo_to_hangul o n c = Raise TypeError →
       hangul jamo_to_hangul m = Ok []
       ∧ romanization jamo_to_hangul romanizer m = romanizer [])
  ∧ (∀ b h1 h2,
       hangul jamo_to_hangul (syl1 b) = Ok h1 → hangul jamo_to_hangul (syl2 b) = Ok h2 →
       h1 = [] ∨ h2 = [] →
       bi_hangul jamo_to_hangul b = Ok []
       ∧ bi_romanization jamo_to_hangul romanizer b = romanizer [])
  ∧ (∀ source word gloss,
       (∃ k, romanizer word = Raise (KeyError k)) ∨ romanizer word = Raise AttributeError →
       load_lexicon romanizer ((word, gloss) :: source) = load_lexicon romanizer source).
Proof.
  split; [|split; [|split; [|split]]].
  - intros m h Hh. unfold romanization. by rewrite Hh.
  - intros b h Hh. unfold bi_romanization. by rewrite Hh.
  - intros m o n c Ht Hj.
    assert (Hh : hangul jamo_to_hangul m = Ok []).
    { unfold hangul. rewrite Ht. cbn [mbind exc_bind]. by rewrite Hj. }
    split; [exact Hh|]. unfold romanization. by rewrite Hh.
  - intros b h1 h2 H1 H2 Hempty.
    assert (Hh : bi_hangul jamo_to_hangul b = Ok []).
    { unfold bi_hangul. rewrite H1, H2. cbn [mbind exc_bind].
      by destruct Hempty as [-> | ->]; [|destruct h1]. }
    split; [exact Hh|]. unfold bi_romanization. by rewrite Hh.
  - intros source word gloss Hraise. unfold load_lexicon, _romanize.
    cbn [for_]. by destruct Hraise as [[k ->] | ->].
Qed.

Lemma truthy_ne (s : str) : truthy s = true ↔ s ≠ [].
Proof. by destruct s. Qed.

(** An entry whose line can be computed has its three attributes. *)
Lemma line_attributes (entry : Bisyllable) :
  is_ok (bi_line jamo_to_hangul romanizer entry) = true →
  ∃ j h r,
    bi_jamo entry = Ok j ∧ bi_hangul jamo_to_hangul entry = Ok h
    ∧ bi_romanization jamo_to_hangul romanizer entry = Ok r
    ∧ bi_line jamo_to_hangul romanizer entry
      = Ok [Some (onset (syl1 entry)); Some (nucleus (syl1 entry));
            Some (onset (syl2 entry)); Some (nucleus (syl2 entry)); coda (syl2 entry);
            Some (bi_shape entry); Some j; Some h; Some r].
Proof.
  unfold bi_line. intros Hline.
  destruct (bi_jamo entry) as [j|]; [|discriminate]. cbn [mbind exc_bind] in *.
  destruct (bi_hangul jamo_to_hangul entry) as [h|]; [|discriminate].
  cbn [mbind exc_bind] in *.
  destruct (bi_romanization jamo_to_hangul romanizer entry) as [r|]; [|discriminate].
  by exists j, h, r.
Qed.

Lemma filter_entry_lexical lexicon entry p :
  is_ok (bi_line jamo_to_hangul romanizer entry) = true →
  lexical jamo_to_hangul romanizer lexicon entry →
  ∃ h r,
    bi_hangul jamo_to_hangul entry = Ok h
    ∧ bi_romanization jamo_to_hangul romanizer entry = Ok r
    ∧ filter_entry jamo_to_hangul romanizer lexicon entry p
      = Ok (mkPass (filtered p + 1) (written p) ((h, r) :: logged p)).
Proof.
  intros (j & h & r & _ & Hh & Hr & _)%line_attributes Hlex.
  unfold lexical in Hlex. unfold filter_entry. rewrite Hr in *. rewrite Hh.
  destruct Hlex as [Hne Hin]. exists h, r. split; [done|]. split; [done|].
  cbn [mbind exc_bind].
  rewrite (proj2 (truthy_ne r) Hne), bool_decide_eq_true_2 by done. reflexivity.
Qed.

Lemma filter_entry_written lexicon entry p :
  is_ok (bi_line jamo_to_hangul romanizer entry) = true →
  ¬ lexical jamo_to_hangul romanizer lexicon entry →
  ∃ l,
    bi_line jamo_to_hangul romanizer entry = Ok l
    ∧ filter_entry jamo_to_hangul romanizer lexicon entry p
      = Ok (mkPass (filtered p) (l :: written p) (logged p)).
Proof.
  intros (j & h & r & _ & _ & Hr & Hl)%line_attributes Hlex.
  unfold lexical in Hlex. unfold filter_entry. rewrite Hr in *. rewrite Hl.
  eexists. split; [reflexivity|]. cbn [mbind exc_bind].
  destruct (truthy r && bool_decide (r ∈ lexicon)) eqn:Hg; [|done].
  apply andb_true_iff in Hg as [Ht Hin%bool_decide_eq_true].
  destruct Hlex. split; [by apply truthy_ne|done].
Qed.

(** The loop of the pass, from any state of the counter and the writer. *)
Lemma filter_loop lexicon entries p :
  Forall (λ entry, is_ok (bi_line jamo_to_hangul romanizer entry) = true) entries →
  ∃ p' lines logs,
    for_ entries (filter_entry jamo_to_hangul romanizer lexicon) p = Ok p'
    ∧ Forall2 (λ l entry, bi_line jamo_to_hangul romanizer entry = Ok l) lines
              (filter (λ entry, ¬ lexical jamo_to_hangul romanizer lexicon entry) entries)
    ∧ Forall2 (λ hr entry, bi_hangul jamo_to_hangul entry = Ok hr.1
                            ∧ bi_romanization jamo_to_hangul romanizer entry = Ok hr.2)
              logs (filter (lexical jamo_to_hangul romanizer lexicon) entries)
    ∧ written p' = reverse lines ++ written p
    ∧ logged p' = reverse logs ++ logged p
    ∧ filtered p'
      = filtered p + length (filter (lexical jamo_to_hangul romanizer lexicon) entries).
Proof.
  intros Hall. revert p. induction Hall as [|entry entries Hline _ IH]; intros p.
  { exists p, [], []. rewrite Nat.add_0_r. repeat split; constructor. }
  cbn [for_]. rewrite !filter_cons.
  destruct (decide (lexical jamo_to_hangul romanizer lexicon entry)) as [Hlex|Hlex].
  - destruct (filter_entry_lexical lexicon entry p Hline Hlex) as (h & r & Hh & Hr & ->).
    cbn [mbind exc_bind].
    destruct (IH (mkPass (filtered p + 1) (written p) ((h, r) :: logged p)))
      as (p' & lines & logs & Hrun & Hl & Hg & Hw & Hlog & Hf).
    exists p', lines, ((h, r) :: logs). rewrite decide_False by auto.
    split; [exact Hrun|]. split; [exact Hl|]. split; [by constructor|].
    split; [exact Hw|]. cbn [logged filtered] in Hlog, Hf.
    split; [by rewrite Hlog, reverse_cons, <- app_assoc|]. rewrite Hf. cbn. lia.
  - destruct (filter_entry_written lexicon entry p Hline Hlex) as (l & Hl0 & ->).
    cbn [mbind exc_bind].
    destruct (IH (mkPass (filtered p) (l :: written p) (logged p)))
      as (p' & lines & logs & Hrun & Hl & Hg & Hw & Hlog & Hf).
    exists p', (l :: lines), logs. rewrite decide_True by auto.
    split; [exact Hrun|]. split; [by constructor|]. split; [exact Hg|].
    cbn [written logged filtered] in Hw, Hlog, Hf.
    split; [by rewrite Hw, reverse_cons, <- app_assoc|]. by split.
Qed.

(** Every yielded disyllable has its jamo: the glyph tables cover what the
    generator builds. *)
Lemma generated_jamo :
  Forall (λ entry, is_ok (jamo_tuple (syl1 entry)) && is_ok (jamo_tuple (syl2 entry)) = true)
         disyllables_out.
Proof. by_compute. Qed.

(** So the pass over the generated disyllables meets no exception when the
    composition routine fails with [TypeError] only and the romanizer never
    fails. *)
Lemma generated_lines :
  (∀ o n c e, jamo_to_hangul o n c = Raise e → e = TypeError) →
  (∀ h, is_ok (romanizer h) = true) →
  Forall (λ entry, is_ok (bi_line jamo_to_hangul romanizer entry) = true) disyllables_out.
Proof.
  intros Hcompose Hromanize.
  assert (Hhangul : ∀ m, is_ok (jamo_tuple m) = true → ∃ h, hangul jamo_to_hangul m = Ok h).
  { intros m Hm. unfold hangul.
    destruct (jamo_tuple m) as [[[o n] c]|]; [|discriminate]. cbn [mbind exc_bind].
    destruct (jamo_to_hangul o n c) as [h|e] eqn:Hj; [by exists h|].
    rewrite (Hcompose _ _ _ _ Hj). by exists []. }
  eapply Forall_impl; [exact generated_jamo|].
  intros entry [H1 H2]%andb_true_iff.
  destruct (Hhangul _ H1) as [h1 Hh1], (Hhangul _ H2) as [h2 Hh2].
  unfold bi_line, bi_romanization, bi_hangul, bi_jamo, jamo, _romanize.
  rewrite Hh1, Hh2.
  destruct (jamo_tuple (syl1 entry)) as [[[o1 n1] c1]|]; [|discriminate].
  destruct (jamo_tuple (syl2 entry)) as [[[o2 n2] c2]|]; [|discriminate].
  cbn [mbind exc_bind].
  destruct (negb (truthy h1) || negb (truthy h2)); cbn [mbind exc_bind].
  - specialize (Hromanize []). by destruct (romanizer []).
  - specialize (Hromanize (h1 ++ h2)). by destruct (romanizer (h1 ++ h2)).
Qed.

(** C8. In the lexicon pass a disyllable is written exactly when its
    romanization is empty or does not occur in the lookup set, and the
    count of filtered disyllables is the number of the suppressed ones
    (each of them logged with its Hangul and romanization). *)
Theorem lexicon_filter (lexicon : gset str) (entries : list Bisyllable) :
  Forall (λ entry, is_ok (bi_line jamo_to_hangul romanizer entry) = true) entries →
  ∃ p,
    filter_pass jamo_to_hangul romanizer lexicon entries = Ok p
    ∧ Forall2 (λ l entry, bi_line jamo_to_hangul romanizer entry = Ok l) (written p)
              (filter (λ entry, ¬ lexical jamo_to_hangul romanizer lexicon entry) entries)
    ∧ Forall2 (λ hr entry, bi_hangul jamo_to_hangul entry = Ok hr.1
                            ∧ bi_romanization jamo_to_hangul romanizer entry = Ok hr.2)
              (logged p) (filter (lexical jamo_to_hangul romanizer lexicon) entries)
    ∧ filtered p = length (filter (lexical jamo_to_hangul romanizer lexicon) entries)
    ∧ Forall (λ entry,
        ¬ lexical jamo_to_hangul romanizer lexicon entry
        ↔ ∃ r, bi_romanization jamo_to_hangul romanizer entry = Ok r
               ∧ (r = [] ∨ r ∉ lexicon)) entries.
Proof.
  intros Hall.
  destruct (filter_loop lexicon entries (mkPass 0 [] []) Hall)
    as (p' & lines & logs & Hrun & Hl & Hg & Hw & Hlog & Hf).
  eexists. unfold filter_pass. rewrite Hrun. cbn [mbind exc_bind].
  split; [reflexivity|]. cbn [written logged filtered] in *.
  rewrite Hw, Hlog, Hf, !app_nil_r, !reverse_involutive.
  split; [exact Hl|]. split; [exact Hg|]. split; [done|].
  eapply Forall_impl; [exact Hall|].
  intros entry (j & h & r & _ & _ & Hr & _)%line_attributes.
  unfold lexical. rewrite Hr. split.
  - intros Hnot. exists r. split; [done|].
    destruct (decide (r = [])) as [?|Hne]; [by left|right].
    intros Hin. by apply Hnot.
  - intros (r' & [= <-] & [-> | Hnin]) [Hne Hin]; done.
Qed.
End CollaboratorProperties.

(** *** Concrete collaborators *)

(** C9 fails as stated: the romanization attribute calls the routine on the
    empty Hangul string of a yielded cluster monosyllable, so an exception
    of the routine there reaches the caller, and a routine that returns a
    non-empty string there gives a non-empty romanization. *)
Lemma romanization_counterexample :
  mpat ∈ monosyllables_out
  ∧ hangul toy_jamo_to_hangul mpat = Ok []
  ∧ romanization toy_jamo_to_hangul raising_romanizer mpat = Raise (KeyError [])
  ∧ romanization toy_jamo_to_hangul constant_romanizer mpat = Ok (lit "x").
Proof.
  split; [by_compute|]. repeat split; vm_compute; reflexivity.
Qed.

(** A lexicon holding "pan" suppresses the first of the two entries and
    lets the second, whose Hangul is empty, through. *)
Lemma lexicon_filter_witness :
  ∃ p,
    filter_pass toy_jamo_to_hangul pan_romanizer {[ lit "pan" ]} two_entries = Ok p
    ∧ Forall2 (λ l entry, bi_line toy_jamo_to_hangul pan_romanizer entry = Ok l) (written p)
              (filter (λ entry, ¬ lexical toy_jamo_to_hangul pan_romanizer {[ lit "pan" ]} entry)
                      two_entries)
    ∧ Forall2 (λ hr entry, bi_hangul toy_jamo_to_hangul entry = Ok hr.1
                            ∧ bi_romanization toy_jamo_to_hangul pan_romanizer entry = Ok hr.2)
              (logged p)
              (filter (lexical toy_jamo_to_hangul pan_romanizer {[ lit "pan" ]}) two_entries)
    ∧ filtered p
      = length (filter (lexical toy_jamo_to_hangul pan_romanizer {[ lit "pan" ]}) two_entries)
    ∧ Forall (λ entry,
        ¬ lexical toy_jamo_to_hangul pan_romanizer {[ lit "pan" ]} entry
        ↔ ∃ r, bi_romanization toy_jamo_to_hangul pan_romanizer entry = Ok r
               ∧ (r = [] ∨ r ∉ ({[ lit "pan" ]} : gset str))) two_entries.
Proof.
  apply (lexicon_filter toy_jamo_to_hangul pan_romanizer {[ lit "pan" ]} two_entries).
  by_compute.
Defined.

Example filter_pass_two_entries :
  (λ p, (filtered p, length (written p), logged p))
    <$> filter_pass toy_jamo_to_hangul pan_romanizer {[ lit "pan" ]} two_entries
  = Ok (1, 1, [(lit "ㅂㅏᄂㅣᆨ", lit "pan")]).
Proof. vm_compute. reflexivity. Qed.

(* ===================================================================== *)
(** * Further properties of the code *)
(* ===================================================================== *)

(** ** The generators, exactly *)

(** *** The later families as lists *)

Lemma skip_emits (f : frame) : ∃ v, Ok f = Ok (mkFrame v (reverse [] ++ yielded f)).
Proof. exists (syl2_var f). by destruct f. Qed.

Lemma SIMPLE_ONSETS_first : Forall (λ onset, ∃ c, getitem0 onset = Ok c) SIMPLE_ONSETS.
Proof. repeat (apply Forall_cons; split; [eexists; reflexivity|]). constructor. Qed.

Lemma coda_loop_emits (syl1 : Monosyllable) (sh onset2 vowel2 : str) (f : frame) :
  onset2 ∈ SIMPLE_ONSETS →
  ∃ v, for_ CODAS (λ coda f,
          c ← getitem0 onset2;
          if startswith coda c then Ok f
          else
            let f := assign_syl2
                       (mkMonosyllable onset2 vowel2 (Some coda) (Some (lit "CVC"))) f in
            yield_bi syl1 sh f) f
       = Ok (mkFrame v (reverse (coda_yields syl1 sh onset2 vowel2) ++ yielded f)).
Proof.
  intros Ho2. unfold coda_yields.
  destruct (proj1 (Forall_forall _ _) SIMPLE_ONSETS_first _ Ho2) as [c ->].
  apply for_emits. intros coda f1 _. cbn [mbind exc_bind].
  destruct (startswith coda c); [apply skip_emits|]. eexists. reflexivity.
Qed.

Lemma glide_family_emits (f : frame) :
  ∃ v, glide_family f = Ok (mkFrame v (reverse glide_list ++ yielded f)).
Proof.
  unfold glide_family, glide_list.
  apply (for_emits _ _ (λ '(onset1, onset2),
                          if similar_onsets onset1 onset2 then []
                          else glide_vowels onset1 onset2)).
  intros [onset1 onset2] f1 Honsets.
  destruct (similar_onsets onset1 onset2); [apply skip_emits|].
  pose proof (elem_of_permutations2 _ _ _ NoDup_SIMPLE_ONSETS Honsets) as (_ & Ho2 & _).
  unfold glide_vowels.
  apply (for_emits _ _
           (λ '(vowel1, vowel2),
              coda_yields (mkMonosyllable onset1 (lit "w" ++ vowel1) None (Some (lit "CwV")))
                          (lit "CwVCVC") onset2 vowel2)).
  intros [vowel1 vowel2] f2 _. by apply coda_loop_emits.
Qed.

Lemma cluster_vowels_emits (onset1 sh1 sh stop : str) (f : frame) :
  ∃ v, for_ (permutations2 VOWELS) (λ '(vowel1, vowel2),
         let syl1 := mkMonosyllable onset1 vowel1 None (Some sh1) in
         for_ SIMPLE_ONSETS (λ onset2 f,
           if startswith onset2 stop then Ok f
           else
             for_ CODAS (λ coda f,
               c ← getitem0 onset2;
               if startswith coda c then Ok f
               else
                 let f := assign_syl2
                            (mkMonosyllable onset2 vowel2 (Some coda) (Some (lit "CVC"))) f in
                 yield_bi syl1 sh f) f)) f
       = Ok (mkFrame v (reverse (cluster_vowels onset1 sh1 sh stop) ++ yielded f)).
Proof.
  unfold cluster_vowels.
  apply (for_emits _ _
           (λ '(vowel1, vowel2),
              cluster_onsets (mkMonosyllable onset1 vowel1 None (Some sh1)) sh stop vowel2)).
  intros [vowel1 vowel2] f1 _. cbv zeta. unfold cluster_onsets.
  apply for_emits. intros onset2 f2 Ho2.
  destruct (startswith onset2 stop); [apply skip_emits|]. by apply coda_loop_emits.
Qed.

Lemma prenasal_family_emits (f : frame) :
  ∃ v, prenasal_family f = Ok (mkFrame v (reverse prenasal_list ++ yielded f)).
Proof.
  unfold prenasal_family, prenasal_list.
  apply for_emits. intros stop f1 _.
  apply for_emits. intros nasal f2 _. apply cluster_vowels_emits.
Qed.

Lemma postnasal_family_emits (f : frame) :
  ∃ v, postnasal_family f = Ok (mkFrame v (reverse postnasal_list ++ yielded f)).
Proof.
  unfold postnasal_family, postnasal_list.
  apply for_emits. intros stop f1 _.
  apply for_emits. intros nasal f2 _. apply cluster_vowels_emits.
Qed.

Lemma bind_run {A B} (m : exc A) (f : A → exc B) (a : A) (b : B) :
  m = Ok a → f a = Ok b → m ≫= f = Ok b.
Proof. by intros -> ?. Qed.

Lemma run_families (v1 v2 v3 v4 : option Monosyllable) (l1 l2 l3 l4 : list Bisyllable) :
  plain_family (mkFrame None []) = Ok (mkFrame v1 (reverse l1 ++ [])) →
  glide_family (mkFrame v1 (reverse l1 ++ [])) = Ok (mkFrame v2 (reverse l2 ++ reverse l1 ++ [])) →
  prenasal_family (mkFrame v2 (reverse l2 ++ reverse l1 ++ []))
  = Ok (mkFrame v3 (reverse l3 ++ reverse l2 ++ reverse l1 ++ [])) →
  postnasal_family (mkFrame v3 (reverse l3 ++ reverse l2 ++ reverse l1 ++ []))
  = Ok (mkFrame v4 (reverse l4 ++ reverse l3 ++ reverse l2 ++ reverse l1 ++ [])) →
  _disyllables = Ok (l1 ++ l2 ++ l3 ++ l4).
Proof.
  intros H1 H2 H3 H4. unfold _disyllables.
  eapply bind_run; [reflexivity|]. cbv beta.
  eapply bind_run; [exact H1|]. cbv beta.
  eapply bind_run; [exact H2|]. cbv beta.
  eapply bind_run; [exact H3|]. cbv beta.
  eapply bind_run; [exact H4|]. cbv beta.
  apply (f_equal Ok). change (yielded (mkFrame v4 ?x)) with x.
  rewrite app_nil_r, !reverse_app, !reverse_involutive.
  by rewrite <- !app_assoc.
Qed.

Lemma disyllables_lists :
  _disyllables = Ok (plain_list ++ glide_list ++ prenasal_list ++ postnasal_list).
Proof.
  destruct (plain_family_emits (mkFrame None [])) as [v1 H1].
  destruct (glide_family_emits (mkFrame v1 (reverse plain_list ++ []))) as [v2 H2].
  destruct (prenasal_family_emits
              (mkFrame v2 (reverse glide_list ++ reverse plain_list ++ []))) as [v3 H3].
  destruct (postnasal_family_emits
              (mkFrame v3 (reverse prenasal_list ++ reverse glide_list
                           ++ reverse plain_list ++ []))) as [v4 H4].
  exact (run_families v1 v2 v3 v4 _ _ _ _ H1 H2 H3 H4).
Qed.

(** *** Membership *)

Lemma elem_of_coda_yields (syl1 : Monosyllable) (sh onset2 vowel2 : str) (b : Bisyllable) :
  b ∈ coda_yields syl1 sh onset2 vowel2 ↔
  ∃ coda c, coda ∈ CODAS ∧ getitem0 onset2 = Ok c ∧ startswith coda c = false
    ∧ b = mkBisyllable syl1 (mkMonosyllable onset2 vowel2 (Some coda) (Some (lit "CVC"))) sh.
Proof.
  unfold coda_yields. rewrite list_elem_of_bind. split.
  - intros (coda & Hb & Hcoda). destruct (getitem0 onset2) as [c|]; [|by apply elem_of_nil in Hb].
    destruct (startswith coda c) eqn:Hg; [by apply elem_of_nil in Hb|].
    apply list_elem_of_singleton in Hb. by exists coda, c.
  - intros (coda & c & Hcoda & -> & Hg & ->). exists coda. rewrite Hg. split; [by left|done].
Qed.

Lemma elem_of_glide_list (b : Bisyllable) :
  b ∈ glide_list ↔
  ∃ onset1 onset2 vowel1 vowel2 coda c,
    (onset1, onset2) ∈ permutations2 SIMPLE_ONSETS ∧ similar_onsets onset1 onset2 = false
    ∧ (vowel1, vowel2) ∈ product FRONT_VOWELS VOWELS
    ∧ coda ∈ CODAS ∧ getitem0 onset2 = Ok c ∧ startswith coda c = false
    ∧ b = mkBisyllable (mkMonosyllable onset1 (lit "w" ++ vowel1) None (Some (lit "CwV")))
                       (mkMonosyllable onset2 vowel2 (Some coda) (Some (lit "CVC")))
                       (lit "CwVCVC").
Proof.
  unfold glide_list. rewrite list_elem_of_bind. split.
  - intros ([onset1 onset2] & Hb & Ho).
    destruct (similar_onsets onset1 onset2) eqn:Hsim; [by apply elem_of_nil in Hb|].
    unfold glide_vowels in Hb. apply list_elem_of_bind in Hb as ([vowel1 vowel2] & Hb & Hv).
    apply elem_of_coda_yields in Hb as (coda & c & ? & ? & ? & ->).
    by exists onset1, onset2, vowel1, vowel2, coda, c.
  - intros (onset1 & onset2 & vowel1 & vowel2 & coda & c & Ho & Hsim & Hv & Hcoda & Hc & Hg & ->).
    exists (onset1, onset2). rewrite Hsim. split; [|done].
    unfold glide_vowels. apply list_elem_of_bind. exists (vowel1, vowel2). split; [|done].
    apply elem_of_coda_yields. by exists coda, c.
Qed.

Lemma elem_of_cluster_vowels (onset1 sh1 sh stop : str) (b : Bisyllable) :
  b ∈ cluster_vowels onset1 sh1 sh stop ↔
  ∃ vowel1 vowel2 onset2 coda c,
    (vowel1, vowel2) ∈ permutations2 VOWELS
    ∧ onset2 ∈ SIMPLE_ONSETS ∧ startswith onset2 stop = false
    ∧ coda ∈ CODAS ∧ getitem0 onset2 = Ok c ∧ startswith coda c = false
    ∧ b = mkBisyllable (mkMonosyllable onset1 vowel1 None (Some sh1))
                       (mkMonosyllable onset2 vowel2 (Some coda) (Some (lit "CVC"))) sh.
Proof.
  unfold cluster_vowels. rewrite list_elem_of_bind. split.
  - intros ([vowel1 vowel2] & Hb & Hv). unfold cluster_onsets in Hb.
    apply list_elem_of_bind in Hb as (onset2 & Hb & Ho2).
    destruct (startswith onset2 stop) eqn:Hguard; [by apply elem_of_nil in Hb|].
    apply elem_of_coda_yields in Hb as (coda & c & ? & ? & ? & ->).
    by exists vowel1, vowel2, onset2, coda, c.
  - intros (vowel1 & vowel2 & onset2 & coda & c & Hv & Ho2 & Hguard & Hcoda & Hc & Hg & ->).
    exists (vowel1, vowel2). split; [|done].
    unfold cluster_onsets. apply list_elem_of_bind. exists onset2. rewrite Hguard.
    split; [|done]. apply elem_of_coda_yields. by exists coda, c.
Qed.

Lemma elem_of_prenasal_list (b : Bisyllable) :
  b ∈ prenasal_list ↔
  ∃ stop nasal, stop ∈ STOP_ONSETS ∧ nasal ∈ NASAL_ONSETS
    ∧ b ∈ cluster_vowels (nasal ++ stop) (lit "NCV") (lit "NCVCVC") stop.
Proof.
  unfold prenasal_list. rewrite list_elem_of_bind. split.
  - intros (stop & Hb & Hstop). apply list_elem_of_bind in Hb as (nasal & Hb & Hnasal).
    by exists stop, nasal.
  - intros (stop & nasal & Hstop & Hnasal & Hb). exists stop. split; [|done].
    apply list_elem_of_bind. by exists nasal.
Qed.

Lemma elem_of_postnasal_list (b : Bisyllable) :
  b ∈ postnasal_list ↔
  ∃ stop nasal, stop ∈ STOP_ONSETS ∧ nasal ∈ NASAL_ONSETS
    ∧ b ∈ cluster_vowels (stop ++ nasal) (lit "CNV") (lit "CNVCVC") stop.
Proof.
  unfold postnasal_list. rewrite list_elem_of_bind. split.
  - intros (stop & Hb & Hstop). apply list_elem_of_bind in Hb as (nasal & Hb & Hnasal).
    by exists stop, nasal.
  - intros (stop & nasal & Hstop & Hnasal & Hb). exists stop. split; [|done].
    apply list_elem_of_bind. by exists nasal.
Qed.

(** Every value the rules allow is in one of the four lists. *)
Lemma disyllable_rule_listed (b : Bisyllable) :
  disyllable_rule b → b ∈ plain_list ++ glide_list ++ prenasal_list ++ postnasal_list.
Proof.
  intros [o1 o2 v1 v2 cd Ho Hsim Hv Hcd | o1 o2 v1 v2 cd c Ho Hsim Hv Hcd Hc Hg
         | stop nasal v1 v2 o2 cd c Hstop Hnasal Hv Ho2 Hguard Hcd Hc Hg
         | stop nasal v1 v2 o2 cd c Hstop Hnasal Hv Ho2 Hguard Hcd Hc Hg];
    rewrite !elem_of_app.
  - left. apply elem_of_plain_list. by exists o1, o2, v1, v2, cd.
  - right; left. apply elem_of_glide_list. by exists o1, o2, v1, v2, cd, c.
  - right; right; left. apply elem_of_prenasal_list. exists stop, nasal.
    split; [done|]. split; [done|].
    apply elem_of_cluster_vowels. by exists v1, v2, o2, cd, c.
  - right; right; right. apply elem_of_postnasal_list. exists stop, nasal.
    split; [done|]. split; [done|].
    apply elem_of_cluster_vowels. by exists v1, v2, o2, cd, c.
Qed.

(** *** No repetition *)

Lemma NoDup_CODAS : NoDup CODAS.
Proof. apply (bool_decide_unpack _). by vm_compute. Qed.

Lemma NoDup_STOP_ONSETS : NoDup STOP_ONSETS.
Proof. apply (bool_decide_unpack _). by vm_compute. Qed.

Lemma NoDup_NASAL_ONSETS : NoDup NASAL_ONSETS.
Proof. apply (bool_decide_unpack _). by vm_compute. Qed.

Lemma NoDup_coda_yields (syl1 : Monosyllable) (sh onset2 vowel2 : str) :
  NoDup (coda_yields syl1 sh onset2 vowel2).
Proof.
  unfold coda_yields. apply NoDup_bind; [| |apply NoDup_CODAS].
  - intros cd1 cd2 b _ _ Hb Hb'. destruct (getitem0 onset2) as [c|]; [|by apply elem_of_nil in Hb].
    destruct (startswith cd1 c); [by apply elem_of_nil in Hb|].
    destruct (startswith cd2 c); [by apply elem_of_nil in Hb'|].
    apply list_elem_of_singleton in Hb as ->. apply list_elem_of_singleton in Hb'.
    by injection Hb' as ->.
  - intros cd _. destruct (getitem0 onset2) as [c|]; [|constructor].
    destruct (startswith cd c); [constructor|apply NoDup_singleton].
Qed.

Lemma NoDup_cluster_vowels (onset1 sh1 sh stop : str) :
  NoDup (cluster_vowels onset1 sh1 sh stop).
Proof.
  unfold cluster_vowels. apply NoDup_bind; [| |apply NoDup_permutations2, NoDup_VOWELS].
  - intros [v1 v2] [w1 w2] b _ _ Hb Hb'. unfold cluster_onsets in Hb, Hb'.
    apply list_elem_of_bind in Hb as (o2 & Hb & _).
    apply list_elem_of_bind in Hb' as (o2' & Hb' & _).
    destruct (startswith o2 stop); [by apply elem_of_nil in Hb|].
    destruct (startswith o2' stop); [by apply elem_of_nil in Hb'|].
    apply elem_of_coda_yields in Hb as (? & ? & _ & _ & _ & ->).
    apply elem_of_coda_yields in Hb' as (? & ? & _ & _ & _ & Heq).
    by injection Heq as -> _ -> _.
  - intros [v1 v2] _. unfold cluster_onsets.
    apply NoDup_bind; [| |apply NoDup_SIMPLE_ONSETS].
    + intros o2 o2' b _ _ Hb Hb'.
      destruct (startswith o2 stop); [by apply elem_of_nil in Hb|].
      destruct (startswith o2' stop); [by apply elem_of_nil in Hb'|].
      apply elem_of_coda_yields in Hb as (? & ? & _ & _ & _ & ->).
      apply elem_of_coda_yields in Hb' as (? & ? & _ & _ & _ & Heq).
      by injection Heq as ->.
    + intros o2 _. destruct (startswith o2 stop); [constructor|apply NoDup_coda_yields].
Qed.

Lemma cluster_vowels_onset (onset1 sh1 sh stop : str) (b : Bisyllable) :
  b ∈ cluster_vowels onset1 sh1 sh stop → onset (syl1 b) = onset1 ∧ bi_shape b = sh.
Proof. by intros (? & ? & ? & ? & ? & _ & _ & _ & _ & _ & _ & ->)%elem_of_cluster_vowels. Qed.

Lemma NoDup_glide_list : NoDup glide_list.
Proof.
  unfold glide_list. apply NoDup_bind; [| |apply NoDup_permutations2, NoDup_SIMPLE_ONSETS].
  - intros [a1 a2] [b1 b2] b _ _ Hb Hb'.
    destruct (similar_onsets a1 a2); [by apply elem_of_nil in Hb|].
    destruct (similar_onsets b1 b2); [by apply elem_of_nil in Hb'|].
    unfold glide_vowels in Hb, Hb'.
    apply list_elem_of_bind in Hb as ([v1 v2] & Hb & _).
    apply list_elem_of_bind in Hb' as ([w1 w2] & Hb' & _).
    apply elem_of_coda_yields in Hb as (? & ? & _ & _ & _ & ->).
    apply elem_of_coda_yields in Hb' as (? & ? & _ & _ & _ & Heq).
    by injection Heq as -> _ -> _.
  - intros [a1 a2] _. destruct (similar_onsets a1 a2); [constructor|].
    unfold glide_vowels. apply NoDup_bind.
    + intros [v1 v2] [w1 w2] b _ _ Hb Hb'.
      apply elem_of_coda_yields in Hb as (? & ? & _ & _ & _ & ->).
      apply elem_of_coda_yields in Hb' as (? & ? & _ & _ & _ & Heq).
      by injection Heq as -> -> _.
    + intros [v1 v2] _. apply NoDup_coda_yields.
    + apply (bool_decide_unpack _). by vm_compute.
Qed.

Lemma NoDup_prenasal_list : NoDup prenasal_list.
Proof.
  unfold prenasal_list. apply NoDup_bind; [| |apply NoDup_STOP_ONSETS].
  - intros stop stop' b _ _ Hb Hb'.
    apply list_elem_of_bind in Hb as (nasal & Hb & Hn).
    apply list_elem_of_bind in Hb' as (nasal' & Hb' & Hn').
    apply cluster_vowels_onset in Hb as [Hb _]. apply cluster_vowels_onset in Hb' as [Hb' _].
    destruct (proj1 (Forall_forall _ _) NASAL_ONSETS_single _ Hn) as [n ->].
    destruct (proj1 (Forall_forall _ _) NASAL_ONSETS_single _ Hn') as [n' ->].
    rewrite Hb in Hb'. by injection Hb' as _ ->.
  - intros stop _. apply NoDup_bind; [| |apply NoDup_NASAL_ONSETS].
    + intros nasal nasal' b _ _ [Hb _]%cluster_vowels_onset [Hb' _]%cluster_vowels_onset.
      rewrite Hb in Hb'. by apply app_inv_tail in Hb'.
    + intros nasal _. apply NoDup_cluster_vowels.
Qed.

Lemma NoDup_postnasal_list : NoDup postnasal_list.
Proof.
  unfold postnasal_list. apply NoDup_bind; [| |apply NoDup_STOP_ONSETS].
  - intros stop stop' b _ _ Hb Hb'.
    apply list_elem_of_bind in Hb as (nasal & Hb & Hn).
    apply list_elem_of_bind in Hb' as (nasal' & Hb' & Hn').
    apply cluster_vowels_onset in Hb as [Hb _]. apply cluster_vowels_onset in Hb' as [Hb' _].
    destruct (proj1 (Forall_forall _ _) NASAL_ONSETS_single _ Hn) as [n ->].
    destruct (proj1 (Forall_forall _ _) NASAL_ONSETS_single _ Hn') as [n' ->].
    rewrite Hb in Hb'. by apply app_inj_tail in Hb' as [-> _].
  - intros stop _. apply NoDup_bind; [| |apply NoDup_NASAL_ONSETS].
    + intros nasal nasal' b _ _ [Hb _]%cluster_vowels_onset [Hb' _]%cluster_vowels_onset.
      rewrite Hb in Hb'. by apply app_inv_head in Hb'.
    + intros nasal _. apply NoDup_cluster_vowels.
Qed.

(** The shape tag of each list. *)
Lemma plain_list_shape : Forall (λ b, bi_shape b = lit "CVCVC") plain_list.
Proof.
  apply Forall_forall. by intros b (? & ? & ? & ? & ? & _ & _ & _ & _ & ->)%elem_of_plain_list.
Qed.

Lemma glide_list_shape : Forall (λ b, bi_shape b = lit "CwVCVC") glide_list.
Proof.
  apply Forall_forall.
  by intros b (? & ? & ? & ? & ? & ? & _ & _ & _ & _ & _ & _ & ->)%elem_of_glide_list.
Qed.

Lemma prenasal_list_shape : Forall (λ b, bi_shape b = lit "NCVCVC") prenasal_list.
Proof.
  apply Forall_forall.
  by intros b (? & ? & _ & _ & [_ ?]%cluster_vowels_onset)%elem_of_prenasal_list.
Qed.

Lemma postnasal_list_shape : Forall (λ b, bi_shape b = lit "CNVCVC") postnasal_list.
Proof.
  apply Forall_forall.
  by intros b (? & ? & _ & _ & [_ ?]%cluster_vowels_onset)%elem_of_postnasal_list.
Qed.

Lemma NoDup_tagged_app (sh : str) (l l' : list Bisyllable) :
  NoDup l → NoDup l' →
  Forall (λ b, bi_shape b = sh) l → Forall (λ b, bi_shape b ≠ sh) l' → NoDup (l ++ l').
Proof.
  intros Hl Hl' Hsh Hsh'. apply NoDup_app. split; [done|]. split; [|done].
  intros b Hb Hb'. rewrite Forall_forall in Hsh, Hsh'. exact (Hsh' b Hb' (Hsh b Hb)).
Qed.

Lemma shape_ne (sh sh' : str) (l : list Bisyllable) :
  sh ≠ sh' → Forall (λ b, bi_shape b = sh') l → Forall (λ b, bi_shape b ≠ sh) l.
Proof. intros Hne Hl. eapply Forall_impl; [exact Hl|]. intros b -> Heq. by apply Hne. Qed.

Lemma NoDup_lists : NoDup (plain_list ++ glide_list ++ prenasal_list ++ postnasal_list).
Proof.
  apply (NoDup_tagged_app (lit "CVCVC"));
    [apply NoDup_plain_list| |apply plain_list_shape|].
  - apply (NoDup_tagged_app (lit "CwVCVC"));
      [apply NoDup_glide_list| |apply glide_list_shape|].
    + apply (NoDup_tagged_app (lit "NCVCVC"));
        [apply NoDup_prenasal_list|apply NoDup_postnasal_list|apply prenasal_list_shape|].
      eapply shape_ne; [|apply postnasal_list_shape]. by vm_compute.
    + apply Forall_app. split.
      * eapply shape_ne; [|apply prenasal_list_shape]. by vm_compute.
      * eapply shape_ne; [|apply postnasal_list_shape]. by vm_compute.
  - rewrite !Forall_app. split; [|split].
    + eapply shape_ne; [|apply glide_list_shape]. by vm_compute.
    + eapply shape_ne; [|apply prenasal_list_shape]. by vm_compute.
    + eapply shape_ne; [|apply postnasal_list_shape]. by vm_compute.
Qed.

(** X1. The disyllable generator yields exactly the values its four loop
    nests describe: a value is yielded if and only if it is built from loop
    variables that pass the guards. In the glide and the two cluster
    families every coda that passes the coda guard is yielded; in the plain
    family only the last one. *)
Theorem disyllables_exact :
  ∃ out, _disyllables = Ok out ∧ ∀ b, b ∈ out ↔ disyllable_rule b.
Proof.
  exists (plain_list ++ glide_list ++ prenasal_list ++ postnasal_list).
  split; [exact disyllables_lists|]. intros b. split.
  - intros Hb. pose proof (disyllables_sound _ disyllables_lists) as Hall.
    rewrite Forall_forall in Hall. by apply Hall.
  - apply disyllable_rule_listed.
Qed.

(** X2. The disyllable generator never yields the same value twice. *)
Theorem disyllables_no_repetition : ∃ out, _disyllables = Ok out ∧ NoDup out.
Proof.
  exists (plain_list ++ glide_list ++ prenasal_list ++ postnasal_list).
  split; [exact disyllables_lists|apply NoDup_lists].
Qed.

(** X3. The disyllable generator yields its values family by family: all
    CVCVC values, then all CwVCVC values, then all NCVCVC values, then all
    CNVCVC values. *)
Theorem disyllables_grouped_by_shape :
  ∃ l1 l2 l3 l4,
    _disyllables = Ok (l1 ++ l2 ++ l3 ++ l4)
    ∧ Forall (λ b, bi_shape b = lit "CVCVC") l1
    ∧ Forall (λ b, bi_shape b = lit "CwVCVC") l2
    ∧ Forall (λ b, bi_shape b = lit "NCVCVC") l3
    ∧ Forall (λ b, bi_shape b = lit "CNVCVC") l4.
Proof.
  exists plain_list, glide_list, prenasal_list, postnasal_list.
  split; [exact disyllables_lists|].
  split; [apply plain_list_shape|]. split; [apply glide_list_shape|].
  split; [apply prenasal_list_shape|apply postnasal_list_shape].
Qed.

(** *** Monosyllables *)

Lemma monosyllables_list : _monosyllables = Ok monosyllable_list.
Proof. vm_compute. reflexivity. Qed.

Lemma elem_of_mono_codas (onset nucleus sh first : str) (codas : list str) (m : Monosyllable) :
  m ∈ mono_codas onset nucleus sh first codas ↔
  ∃ coda c, coda ∈ codas ∧ getitem0 first = Ok c ∧ startswith coda c = false
    ∧ m = mkMonosyllable onset nucleus (Some coda) (Some sh).
Proof.
  unfold mono_codas. rewrite list_elem_of_bind. split.
  - intros (coda & Hm & Hcoda). destruct (getitem0 first) as [c|]; [|by apply elem_of_nil in Hm].
    destruct (startswith coda c) eqn:Hg; [by apply elem_of_nil in Hm|].
    apply list_elem_of_singleton in Hm. by exists coda, c.
  - intros (coda & c & Hcoda & -> & Hg & ->). exists coda. rewrite Hg. split; [by left|done].
Qed.

Lemma monosyllable_rule_listed (m : Monosyllable) :
  monosyllable_rule m → m ∈ monosyllable_list.
Proof.
  intros [o v cd c Ho Hv Hcd Hc Hg | o v cd c Ho Hv Hcd Hc Hg
         | stop nasal v cd c Hstop Hnasal Hv Hcd Hc Hg
         | stop nasal v cd c Hstop Hnasal Hv Hcd Hc Hg];
    unfold monosyllable_list; rewrite !elem_of_app.
  - left. apply list_elem_of_bind. exists o. split; [|done].
    apply list_elem_of_bind. exists v. split; [|done].
    apply elem_of_mono_codas. by exists cd, c.
  - right; left. apply list_elem_of_bind. exists o. split; [|done].
    apply list_elem_of_bind. exists v. split; [|done].
    apply elem_of_mono_codas. by exists cd, c.
  - right; right; left. apply list_elem_of_bind. exists stop. split; [|done].
    apply list_elem_of_bind. exists nasal. split; [|done].
    apply list_elem_of_bind. exists v. split; [|done].
    apply elem_of_mono_codas. by exists cd, c.
  - right; right; right. apply list_elem_of_bind. exists stop. split; [|done].
    apply list_elem_of_bind. exists nasal. split; [|done].
    apply list_elem_of_bind. exists v. split; [|done].
    apply elem_of_mono_codas. by exists cd, c.
Qed.

Lemma NoDup_monosyllable_list : NoDup monosyllable_list.
Proof. apply (bool_decide_unpack _). vm_compute. exact I. Qed.

(** X4. The monosyllable generator yields exactly the values its four loop
    nests describe (a value is yielded if and only if it is built from loop
    variables that pass the coda guard), and yields none of them twice. *)
Theorem monosyllables_exact :
  ∃ out, _monosyllables = Ok out ∧ NoDup out ∧ ∀ m, m ∈ out ↔ monosyllable_rule m.
Proof.
  exists monosyllable_list. split; [exact monosyllables_list|].
  split; [exact NoDup_monosyllable_list|]. intros m. split.
  - intros Hm. pose proof (monosyllables_sound _ monosyllables_list) as Hall.
    rewrite Forall_forall in Hall. by apply Hall.
  - apply monosyllable_rule_listed.
Qed.

(** *** The second syllable *)

Lemma partner_spec :
  Forall (λ onset2, (partner onset2, onset2) ∈ permutations2 SIMPLE_ONSETS
                    ∧ similar_onsets (partner onset2) onset2 = false) SIMPLE_ONSETS.
Proof. apply (bool_decide_unpack _). vm_compute. exact I. Qed.

(** The second syllable of a value of the rules is a value of the plain
    rule of the monosyllables. *)
Lemma second_syllable_rule (b : Bisyllable) :
  disyllable_rule b → monosyllable_rule (syl2 b).
Proof.
  intros [o1 o2 v1 v2 cd Ho Hsim Hv Hcd | o1 o2 v1 v2 cd c Ho Hsim Hv Hcd Hc Hg
         | stop nasal v1 v2 o2 cd c Hstop Hnasal Hv Ho2 Hguard Hcd Hc Hg
         | stop nasal v1 v2 o2 cd c Hstop Hnasal Hv Ho2 Hguard Hcd Hc Hg];
    cbn [syl2].
  - apply elem_of_permutations2 in Ho as (_ & Ho2 & _); [|apply NoDup_SIMPLE_ONSETS].
    apply elem_of_permutations2 in Hv as (_ & Hv2 & _); [|apply NoDup_VOWELS].
    apply last_admissible_coda_spec in Hcd as (c & Hc & Hcd & Hg).
    assert (Hget : getitem0 o2 = Ok [c]).
    { destruct o2 as [|k rest]; [discriminate Hc|]. cbn in Hc. by injection Hc as ->. }
    by apply (mono_plain o2 v2 cd [c]).
  - apply elem_of_permutations2 in Ho as (_ & Ho2 & _); [|apply NoDup_SIMPLE_ONSETS].
    apply elem_of_product in Hv as [_ Hv2]. by apply (mono_plain o2 v2 cd c).
  - apply elem_of_permutations2 in Hv as (_ & Hv2 & _); [|apply NoDup_VOWELS].
    by apply (mono_plain o2 v2 cd c).
  - apply elem_of_permutations2 in Hv as (_ & Hv2 & _); [|apply NoDup_VOWELS].
    by apply (mono_plain o2 v2 cd c).
Qed.

(** Every value of the plain rule of the monosyllables is the second
    syllable of a value of the glide rule. *)
Lemma plain_monosyllable_second (m : Monosyllable) :
  monosyllable_rule m → shape m = Some (lit "CVC") →
  ∃ b, disyllable_rule b ∧ bi_shape b = lit "CwVCVC" ∧ syl2 b = m.
Proof.
  intros [o v cd c Ho Hv Hcd Hc Hg | o v cd c Ho Hv Hcd Hc Hg
         | stop nasal v cd c Hstop Hnasal Hv Hcd Hc Hg
         | stop nasal v cd c Hstop Hnasal Hv Hcd Hc Hg] Hsh;
    cbn [shape] in Hsh; try (vm_compute in Hsh; discriminate Hsh).
  destruct (proj1 (Forall_forall _ _) partner_spec _ Ho) as [Hp Hsim].
  exists (mkBisyllable (mkMonosyllable (partner o) (lit "w" ++ lit "i") None (Some (lit "CwV")))
                       (mkMonosyllable o v (Some cd) (Some (lit "CVC"))) (lit "CwVCVC")).
  split; [|by split].
  apply (di_glide (partner o) o (lit "i") v cd c); try done.
  apply list_elem_of_bind. exists (lit "i"). split; [|by left].
  apply list_elem_of_fmap. by exists v.
Qed.

Lemma first_syllable_not_rule (b : Bisyllable) :
  disyllable_rule b → ¬ monosyllable_rule (syl1 b).
Proof.
  intros Hb Hm. assert (Hcoda : coda (syl1 b) = None) by by destruct Hb.
  destruct Hm; discriminate Hcoda.
Qed.

(** X22. The two generators agree on the second syllable: the second
    syllable of every yielded disyllable is a monosyllable the monosyllable
    generator yields; the first syllable never is, because it has no coda
    and every yielded monosyllable has one; and every yielded CVC
    monosyllable is the second syllable of some yielded disyllable. *)
Theorem second_syllables_are_monosyllables :
  ∃ monos entries,
    _monosyllables = Ok monos ∧ _disyllables = Ok entries
    ∧ (∀ b, b ∈ entries → syl2 b ∈ monos ∧ ¬ (syl1 b ∈ monos) ∧ coda (syl1 b) = None)
    ∧ (∀ m, m ∈ monos →
         is_Some (coda m)
         ∧ (shape m = Some (lit "CVC") → ∃ b, b ∈ entries ∧ syl2 b = m)).
Proof.
  exists monosyllable_list, (plain_list ++ glide_list ++ prenasal_list ++ postnasal_list).
  split; [exact monosyllables_list|]. split; [exact disyllables_lists|].
  pose proof (disyllables_sound _ disyllables_lists) as Hdi.
  pose proof (monosyllables_sound _ monosyllables_list) as Hmono.
  rewrite Forall_forall in Hdi. rewrite Forall_forall in Hmono. split.
  - intros b Hb. split; [|split].
    + apply monosyllable_rule_listed, second_syllable_rule, Hdi, Hb.
    + intros Hm. apply (first_syllable_not_rule b); [by apply Hdi|by apply Hmono].
    + by destruct (Hdi b Hb).
  - intros m Hm. split.
    + destruct (Hmono m Hm); by eexists.
    + intros Hsh.
      destruct (plain_monosyllable_second m (Hmono m Hm) Hsh) as (b & Hb & _ & Hsyl).
      exists b. split; [by apply disyllable_rule_listed|exact Hsyl].
Qed.

(* ===================================================================== *)
(** ** Spelling in jamo *)
(* ===================================================================== *)

Lemma jamo_tuple_parts (self : Monosyllable) :
  jamo_tuple self
  = o ← spelled_onset self;
    n ← getitem HANGUL_NUCLEUS (nucleus self);
    c ← spelled_coda (coda self);
    Ok (o, n, c).
Proof. reflexivity. Qed.

Lemma getitem_Raise (d : gmap str str) (k : str) (e : exn) :
  getitem d k = Raise e → e = KeyError k ∧ d !! k = None.
Proof. unfold getitem. destruct (d !! k); [discriminate|]. by intros [= <-]. Qed.

Lemma spelled_coda_Raise (cd : option str) (e : exn) :
  spelled_coda cd = Raise e → ∃ k, e = KeyError k.
Proof.
  destruct cd as [c|]; [|discriminate]. cbn [spelled_coda].
  destruct (truthy c); [|discriminate]. intros [-> _]%getitem_Raise. by eexists.
Qed.

(** An exception of [jamo_tuple] other than [KeyError] comes from the
    spelling of the onset. *)
Lemma jamo_tuple_Raise (self : Monosyllable) (e : exn) :
  (∀ k, e ≠ KeyError k) → jamo_tuple self = Raise e ↔ spelled_onset self = Raise e.
Proof.
  intros Hne. rewrite jamo_tuple_parts. split.
  - destruct (spelled_onset self) as [o|e']; cbn [mbind exc_bind]; [|by intros [= ->]].
    destruct (getitem HANGUL_NUCLEUS (nucleus self)) as [n|e'] eqn:Hn; cbn [mbind exc_bind].
    + destruct (spelled_coda (coda self)) as [c|e'] eqn:Hc; [discriminate|].
      intros [= ->]. apply spelled_coda_Raise in Hc as [k ->]. by destruct (Hne k).
    + intros [= ->]. apply getitem_Raise in Hn as [-> _]. by destruct (Hne (nucleus self)).
  - by intros ->.
Qed.

Lemma atomic_not_cluster (sh : str) :
  atomic (Some sh) → startswith sh (lit "NCV") = false ∧ startswith sh (lit "CNV") = false.
Proof.
  unfold atomic. rewrite !elem_of_cons, elem_of_nil.
  intros [[= ->]|[[= ->]|[[= ->]|[[= ->]|[]]]]]; by vm_compute.
Qed.

Lemma spelled_onset_cases (self : Monosyllable) :
  match spelled_onset self with
  | Ok _ => True
  | Raise AttributeError => shape self = None
  | Raise (Error msg) =>
    ∃ sh, shape self = Some sh ∧ ¬ atomic (shape self)
      ∧ startswith sh (lit "NCV") = false ∧ startswith sh (lit "CNV") = false
      ∧ msg = lit "Unknown shape: " ++ sh
  | Raise IndexError =>
    ∃ sh, shape self = Some sh ∧ startswith sh (lit "NCV") = true ∧ onset self = []
  | Raise (KeyError _) => shape self ≠ None
  | Raise _ => False
  end.
Proof.
  unfold spelled_onset. case_bool_decide as Hat.
  { destruct (getitem HANGUL_ONSET (onset self)) as [g|e] eqn:Hg; [done|].
    apply getitem_Raise in Hg as [-> _]. intros Hsh. rewrite Hsh in Hat.
    repeat (apply elem_of_cons in Hat as [?|Hat]; [done|]). by apply elem_of_nil in Hat. }
  destruct (shape self) as [sh|] eqn:Hsh; [|done].
  destruct (startswith sh (lit "NCV")) eqn:HN.
  { destruct (onset self) as [|c o] eqn:Ho; cbn [getitem0 mbind exc_bind].
    - by exists sh.
    - destruct (getitem HANGUL_ONSET [c]) as [g0|e] eqn:Hg0; cbn [mbind exc_bind].
      + destruct (getitem HANGUL_ONSET (slice_from1 (c :: o))) as [g1|e] eqn:Hg1;
          cbn [mbind exc_bind]; [done|].
        by apply getitem_Raise in Hg1 as [-> _].
      + by apply getitem_Raise in Hg0 as [-> _]. }
  destruct (startswith sh (lit "CNV")) eqn:HC.
  { destruct (getitem HANGUL_ONSET (slice_to_last (onset self))) as [g0|e] eqn:Hg0;
      cbn [mbind exc_bind].
    - assert (Hne : onset self ≠ []).
      { intros Ho. rewrite Ho in Hg0. vm_compute in Hg0. discriminate Hg0. }
      unfold getitem_last. destruct (last (onset self)) as [c|] eqn:Hlast.
      + cbn [mbind exc_bind].
        destruct (getitem HANGUL_ONSET [c]) as [g1|e] eqn:Hg1; cbn [mbind exc_bind]; [done|].
        by apply getitem_Raise in Hg1 as [-> _].
      + apply last_None in Hlast. by destruct Hne.
    - by apply getitem_Raise in Hg0 as [-> _]. }
  by exists sh.
Qed.

Lemma jamo_tuple_not_TypeError (self : Monosyllable) : jamo_tuple self ≠ Raise TypeError.
Proof.
  intros H. apply jamo_tuple_Raise in H; [|done].
  pose proof (spelled_onset_cases self) as Hcases. by rewrite H in Hcases.
Qed.

(** X5. The exceptions of [jamo_tuple] other than [KeyError]:
    [AttributeError] exactly when the shape is missing; [Error], with the
    shape in its message, exactly when the shape is none of CV, CVC, CwV,
    CwVC and begins with neither NCV nor CNV (whatever the nucleus and the
    coda are); [IndexError] exactly when the shape begins with NCV and the
    onset is empty (an empty onset of a CNV shape gives [KeyError]); and
    never [TypeError]. *)
Theorem jamo_tuple_errors (self : Monosyllable) :
  (jamo_tuple self = Raise AttributeError ↔ shape self = None)
  ∧ (∀ msg, jamo_tuple self = Raise (Error msg) ↔
       ∃ sh, shape self = Some sh ∧ ¬ atomic (shape self)
         ∧ startswith sh (lit "NCV") = false ∧ startswith sh (lit "CNV") = false
         ∧ msg = lit "Unknown shape: " ++ sh)
  ∧ (jamo_tuple self = Raise IndexError ↔
       ∃ sh, shape self = Some sh ∧ startswith sh (lit "NCV") = true ∧ onset self = [])
  ∧ jamo_tuple self ≠ Raise TypeError.
Proof.
  pose proof (spelled_onset_cases self) as Hcases.
  split; [|split; [|split]].
  - rewrite jamo_tuple_Raise by done. split.
    + intros H. by rewrite H in Hcases.
    + intros Hsh. unfold spelled_onset. rewrite Hsh.
      rewrite bool_decide_eq_false_2; [done|]. intros Hat.
      repeat (apply elem_of_cons in Hat as [?|Hat]; [done|]). by apply elem_of_nil in Hat.
  - intros msg. rewrite jamo_tuple_Raise by done. split.
    + intros H. by rewrite H in Hcases.
    + intros (sh & Hsh & Hat & HN & HC & ->). unfold spelled_onset.
      rewrite bool_decide_eq_false_2 by done. by rewrite Hsh, HN, HC.
  - rewrite jamo_tuple_Raise by done. split.
    + intros H. by rewrite H in Hcases.
    + intros (sh & Hsh & HN & Ho). unfold spelled_onset.
      rewrite bool_decide_eq_false_2.
      * by rewrite Hsh, HN, Ho.
      * rewrite Hsh. intros [HN' _]%atomic_not_cluster. congruence.
  - apply jamo_tuple_not_TypeError.
Qed.

Lemma cluster_not_atomic (sh : str) :
  startswith sh (lit "NCV") = true ∨ startswith sh (lit "CNV") = true → ¬ atomic (Some sh).
Proof. intros H [HN HC]%atomic_not_cluster. destruct H; congruence. Qed.

Lemma CNV_not_NCV (sh : str) :
  startswith sh (lit "CNV") = true → startswith sh (lit "NCV") = false.
Proof.
  destruct sh as [|c sh]; [done|]. change (lit "NCV") with [78; 67; 86]%N.
  change (lit "CNV") with [67; 78; 86]%N. cbn [startswith].
  intros [Hc _]%andb_true_iff. apply N.eqb_eq in Hc as <-. reflexivity.
Qed.

(** X6. The onset of a cluster is split back into its two members: for a
    shape that begins with NCV the first code point is looked up as the
    nasal and the rest as the stop, for a shape that begins with CNV the
    last code point is the nasal and what precedes it the stop. So a
    one-code-point nasal joined with a stop of any length is spelled with
    the nasal's glyph and the stop's glyph, in the order of the cluster. *)
Theorem cluster_onset_split (stop vowel shN shC gn gs gv gc : str) (n : N) (cd : option str) :
  startswith shN (lit "NCV") = true → startswith shC (lit "CNV") = true →
  HANGUL_ONSET !! [n] = Some gn → HANGUL_ONSET !! stop = Some gs →
  HANGUL_NUCLEUS !! vowel = Some gv → spelled_coda cd = Ok gc →
  jamo_tuple (mkMonosyllable ([n] ++ stop) vowel cd (Some shN)) = Ok (gn ++ gs, gv, gc)
  ∧ jamo_tuple (mkMonosyllable (stop ++ [n]) vowel cd (Some shC)) = Ok (gs ++ gn, gv, gc).
Proof.
  intros HN HC Hn Hs Hv Hc. split; rewrite jamo_tuple_parts;
    unfold spelled_onset; cbn [shape onset nucleus coda];
    rewrite bool_decide_eq_false_2 by (apply cluster_not_atomic; auto).
  - rewrite HN. cbn [app getitem0 slice_from1 tail mbind exc_bind].
    rewrite (getitem_Some _ _ _ Hn). cbn [mbind exc_bind].
    rewrite (getitem_Some _ _ _ Hs). cbn [mbind exc_bind].
    rewrite (getitem_Some _ _ _ Hv). cbn [mbind exc_bind]. by rewrite Hc.
  - rewrite (CNV_not_NCV _ HC), HC. unfold slice_to_last, getitem_last.
    rewrite removelast_last, last_snoc.
    rewrite (getitem_Some _ _ _ Hs). cbn [mbind exc_bind].
    rewrite (getitem_Some _ _ _ Hn). cbn [mbind exc_bind].
    rewrite (getitem_Some _ _ _ Hv). cbn [mbind exc_bind]. by rewrite Hc.
Qed.

(** The clusters of "m" with the aspirated stop "pʰ", which has two code
    points: "mpʰ" in a prenasal and "pʰm" in a postnasal monosyllable. *)
Lemma cluster_onset_split_witness :
  jamo_tuple (mkMonosyllable ([109%N] ++ lit "pʰ") (lit "a") (Some (lit "t̚")) (Some (lit "NCVC")))
  = Ok (lit "ᄆ" ++ lit "ㅍ", lit "ㅏ", lit "ᆮ")
  ∧ jamo_tuple (mkMonosyllable (lit "pʰ" ++ [109%N]) (lit "a") (Some (lit "t̚"))
                               (Some (lit "CNVC")))
    = Ok (lit "ㅍ" ++ lit "ᄆ", lit "ㅏ", lit "ᆮ").
Proof.
  apply (cluster_onset_split (lit "pʰ") (lit "a") (lit "NCVC") (lit "CNVC")
           (lit "ᄆ") (lit "ㅍ") (lit "ㅏ") (lit "ᆮ") 109%N (Some (lit "t̚")));
    vm_compute; reflexivity.
Defined.

Lemma monosyllables_spelled : Forall spelled monosyllables_out.
Proof. apply (bool_decide_unpack _). vm_compute. exact I. Qed.

Lemma disyllables_spelled :
  Forall (λ b, spelled (syl1 b) ∧ spelled (syl2 b)) disyllables_out.
Proof. apply (bool_decide_unpack _). vm_compute. exact I. Qed.

(** X7. [jamo_tuple] succeeds on every monosyllable the monosyllable
    generator yields and on both syllables of every disyllable the
    disyllable generator yields: the glyph tables cover what the generators
    build. The spelling has one onset glyph for the shapes CV, CVC, CwV,
    CwVC and two for the cluster shapes, one nucleus glyph, and one coda
    glyph exactly when there is a coda. *)
Theorem generated_spelled :
  (∃ out, _monosyllables = Ok out ∧ Forall spelled out)
  ∧ (∃ out, _disyllables = Ok out ∧ Forall (λ b, spelled (syl1 b) ∧ spelled (syl2 b)) out).
Proof.
  split.
  - exists monosyllables_out. split; [exact monosyllables_run|exact monosyllables_spelled].
  - exists disyllables_out. split; [exact disyllables_run|exact disyllables_spelled].
Qed.

Section Composition.
Variable jamo_to_hangul : str → str → str → exc str.

Lemma hangul_not_TypeError (m : Monosyllable) : hangul jamo_to_hangul m ≠ Raise TypeError.
Proof.
  unfold hangul. destruct (jamo_tuple m) as [[[o n] c]|e] eqn:Ht; cbn [mbind exc_bind].
  - destruct (jamo_to_hangul o n c) as [h|[]]; discriminate.
  - intros [= ->]. by apply (jamo_tuple_not_TypeError m).
Qed.

(** X8. The Hangul of a disyllable is all or nothing: it is the empty string
    exactly when the Hangul of one of its syllables is empty, and otherwise
    the concatenation of the two; and [TypeError], which [hangul] catches
    from the composition routine, is never raised by [hangul] of a
    monosyllable or of a disyllable. *)
Theorem hangul_all_or_nothing (b : Bisyllable) :
  hangul jamo_to_hangul (syl1 b) ≠ Raise TypeError
  ∧ bi_hangul jamo_to_hangul b ≠ Raise TypeError
  ∧ ∀ h, bi_hangul jamo_to_hangul b = Ok h →
      ∃ h1 h2, hangul jamo_to_hangul (syl1 b) = Ok h1 ∧ hangul jamo_to_hangul (syl2 b) = Ok h2
        ∧ (h = [] ↔ h1 = [] ∨ h2 = [])
        ∧ (h ≠ [] → h = h1 ++ h2).
Proof.
  split; [apply hangul_not_TypeError|].
  pose proof (hangul_not_TypeError (syl1 b)) as H1.
  pose proof (hangul_not_TypeError (syl2 b)) as H2.
  unfold bi_hangul.
  destruct (hangul jamo_to_hangul (syl1 b)) as [h1|e1]; cbn [mbind exc_bind];
    [|split; [congruence|discriminate]].
  destruct (hangul jamo_to_hangul (syl2 b)) as [h2|e2]; cbn [mbind exc_bind];
    [|split; [congruence|discriminate]].
  split; [by destruct (negb (truthy h1) || negb (truthy h2))|].
  intros h Hh. exists h1, h2. split; [done|]. split; [done|].
  destruct h1 as [|c1 h1], h2 as [|c2 h2]; cbn in Hh; injection Hh as <-;
    (split; [split; [auto|]|]); try done.
  intros [?|?]; done.
Qed.
End Composition.

(* ===================================================================== *)
(** ** The lexicon *)
(* ===================================================================== *)

Section LexiconProperties.
Variable jamo_to_hangul : str → str → str → exc str.
Variable romanizer : str → exc str.

(** The loop of [load_lexicon], from any set. *)
Lemma lexicon_loop (source : list (str * str)) (lexicon : gset str) :
  Forall (λ wg, tolerated (romanizer wg.1)) source →
  ∃ lexicon',
    for_ source (λ '(word, _) lexicon,
      match _romanize romanizer word with
      | Ok r => Ok ({[ r ]} ∪ lexicon)
      | Raise (KeyError _) | Raise AttributeError => Ok lexicon
      | Raise e => Raise e
      end) lexicon = Ok lexicon'
    ∧ ∀ r, r ∈ lexicon' ↔ r ∈ lexicon ∨ ∃ wg, wg ∈ source ∧ romanizer wg.1 = Ok r.
Proof.
  intros Hall. unfold _romanize. revert lexicon.
  induction Hall as [|[w g] source Hw _ IH]; intros lexicon.
  { exists lexicon. split; [done|]. intros r. split; [by left|].
    intros [?|(wg & Hwg & _)]; [done|]. by apply elem_of_nil in Hwg. }
  cbn [for_ fst] in *.
  destruct (romanizer w) as [r0|e] eqn:Hr.
  - destruct (IH ({[ r0 ]} ∪ lexicon)) as (lexicon' & Hrun & Hin).
    exists lexicon'. split; [exact Hrun|]. intros r. rewrite Hin, elem_of_union, elem_of_singleton.
    split.
    + intros [[->|?]|(wg & Hwg & Hr')]; [right|by left|right].
      * exists (w, g). split; [by left|done].
      * exists wg. split; [by right|done].
    + intros [?|(wg & Hwg & Hr')]; [by left; right|].
      apply elem_of_cons in Hwg as [->|Hwg].
      * cbn [fst] in Hr'. left; left. congruence.
      * right. by exists wg.
  - destruct (IH lexicon) as (lexicon' & Hrun & Hin).
    exists lexicon'. split; [by destruct e|].
    intros r. rewrite Hin. split.
    + intros [?|(wg & Hwg & Hr')]; [by left|right]. exists wg. split; [by right|done].
    + intros [?|(wg & Hwg & Hr')]; [by left|].
      apply elem_of_cons in Hwg as [->|Hwg]; [cbn [fst] in Hr'; congruence|].
      right. by exists wg.
Qed.

(** The loop succeeds only when every outcome is tolerated, and otherwise
    ends with the first exception that is not. *)
Lemma lexicon_loop_Raise (pre post : list (str * str)) (w g : str) (e : exn)
    (lexicon : gset str) :
  Forall (λ wg, tolerated (romanizer wg.1)) pre →
  romanizer w = Raise e → ¬ tolerated (Raise e) →
  for_ (pre ++ (w, g) :: post) (λ '(word, _) lexicon,
    match _romanize romanizer word with
    | Ok r => Ok ({[ r ]} ∪ lexicon)
    | Raise (KeyError _) | Raise AttributeError => Ok lexicon
    | Raise e => Raise e
    end) lexicon = Raise e.
Proof.
  intros Hpre Hw He. unfold _romanize. revert lexicon.
  induction Hpre as [|[w0 g0] pre Hw0 _ IH]; intros lexicon; cbn [app for_ fst] in *.
  - rewrite Hw. by destruct e.
  - destruct (romanizer w0) as [r0|e0]; [apply IH|].
    destruct e0; try done; apply IH.
Qed.

Lemma first_untolerated (source : list (str * str)) :
  ¬ Forall (λ wg, tolerated (romanizer wg.1)) source →
  ∃ pre w g post e,
    source = pre ++ (w, g) :: post ∧ Forall (λ wg, tolerated (romanizer wg.1)) pre
    ∧ romanizer w = Raise e ∧ ¬ tolerated (Raise e).
Proof.
  induction source as [|[w g] source IH]; intros Hnot; [by destruct Hnot|].
  destruct (decide (tolerated (romanizer w))) as [Hw|Hw].
  - destruct IH as (pre & w' & g' & post & e & -> & Hpre & Hw' & He).
    { intros Hall. apply Hnot. by constructor. }
    exists ((w, g) :: pre), w', g', post, e. split; [done|]. split; [by constructor|done].
  - destruct (romanizer w) as [r|e] eqn:Hr; [by destruct Hw|].
    exists [], w, g, source, e. split; [done|]. split; [constructor|done].
Qed.

Lemma load_lexicon_tolerated (source : list (str * str)) :
  Forall (λ wg, tolerated (romanizer wg.1)) source
  ↔ is_ok (load_lexicon romanizer source) = true.
Proof.
  split.
  - intros Hall. destruct (lexicon_loop source ∅ Hall) as (lexicon & Hrun & _).
    unfold load_lexicon. by rewrite Hrun.
  - intros Hrun. destruct (decide (Forall (λ wg, tolerated (romanizer wg.1)) source))
      as [|Hnot]; [done|].
    destruct (first_untolerated source Hnot) as (pre & w & g & post & e & -> & Hpre & Hw & He).
    unfold load_lexicon in Hrun.
    by rewrite (lexicon_loop_Raise pre post w g e ∅ Hpre Hw He) in Hrun.
Qed.

(** X9. The lexicon loop succeeds exactly when the romanizer, on every word
    of the source, returns or raises [KeyError] or [AttributeError]; the
    lexicon is then the set of the romanizations of the words on which it
    returns; and otherwise the loop ends with the first exception that is
    neither of the two. *)
Theorem load_lexicon_spec (source : list (str * str)) :
  (is_ok (load_lexicon romanizer source) = true
   ↔ Forall (λ wg, tolerated (romanizer wg.1)) source)
  ∧ (∀ lexicon, load_lexicon romanizer source = Ok lexicon →
       ∀ r, r ∈ lexicon ↔ ∃ wg, wg ∈ source ∧ romanizer wg.1 = Ok r)
  ∧ (∀ pre w g post e,
       source = pre ++ (w, g) :: post → Forall (λ wg, tolerated (romanizer wg.1)) pre →
       romanizer w = Raise e → ¬ tolerated (Raise e) →
       load_lexicon romanizer source = Raise e).
Proof.
  assert (Hok : Forall (λ wg, tolerated (romanizer wg.1)) source →
                ∃ lexicon, load_lexicon romanizer source = Ok lexicon
                  ∧ ∀ r, r ∈ lexicon ↔ ∃ wg, wg ∈ source ∧ romanizer wg.1 = Ok r).
  { intros Hall. destruct (lexicon_loop source ∅ Hall) as (lexicon & Hrun & Hin).
    exists lexicon. split; [exact Hrun|]. intros r. rewrite Hin, elem_of_empty. tauto. }
  assert (Hraise : ∀ pre w g post e,
             source = pre ++ (w, g) :: post → Forall (λ wg, tolerated (romanizer wg.1)) pre →
             romanizer w = Raise e → ¬ tolerated (Raise e) →
             load_lexicon romanizer source = Raise e).
  { intros pre w g post e -> Hpre Hw He. by apply lexicon_loop_Raise. }
  split; [|split; [|exact Hraise]].
  - split.
    + intros Hrun. destruct (decide (Forall (λ wg, tolerated (romanizer wg.1)) source))
        as [|Hnot]; [done|].
      destruct (first_untolerated source Hnot) as (pre & w & g & post & e & Hs & Hpre & Hw & He).
      rewrite (Hraise pre w g post e Hs Hpre Hw He) in Hrun. discriminate Hrun.
    + intros Hall. destruct (Hok Hall) as (lexicon & -> & _). reflexivity.
  - intros lexicon Hrun.
    destruct (decide (Forall (λ wg, tolerated (romanizer wg.1)) source)) as [Hall|Hnot].
    + destruct (Hok Hall) as (lexicon' & Hrun' & Hin). rewrite Hrun in Hrun'.
      by injection Hrun' as <-.
    + destruct (first_untolerated source Hnot) as (pre & w & g & post & e & Hs & Hpre & Hw & He).
      rewrite (Hraise pre w g post e Hs Hpre Hw He) in Hrun. discriminate Hrun.
Qed.

(** X10. On rows of two fields the loop over the rows of the reader is the
    lexicon loop; a row with another number of fields (an empty line gives a
    row with none) ends it with [ValueError], which the [except] clause does
    not catch. *)
Theorem read_lexicon_rows :
  (∀ source : list (str * str),
     read_lexicon romanizer ((λ wg, [wg.1; wg.2]) <$> source) = load_lexicon romanizer source)
  ∧ (∀ pre fields post,
       Forall (λ f, ∃ w g, f = [w; g] ∧ tolerated (romanizer w)) pre →
       length fields ≠ 2 →
       read_lexicon romanizer (pre ++ fields :: post) = Raise ValueError).
Proof.
  unfold read_lexicon, load_lexicon, _romanize. generalize (∅ : gset str).
  intros lexicon. split.
  - intros source. revert lexicon.
    induction source as [|[w g] source IH]; intros lexicon; [done|].
    cbn [fmap list_fmap for_ fst snd unpack2 mbind exc_bind].
    destruct (romanizer w) as [r|e]; cbn [mbind exc_bind]; [apply IH|].
    destruct e; try done; apply IH.
  - intros pre fields post Hpre Hlen. revert lexicon.
    induction Hpre as [|f pre (w & g & -> & Hw) _ IH]; intros lexicon; cbn [app for_].
    + by destruct fields as [|a [|b [|c fields]]].
    + cbn [unpack2 mbind exc_bind].
      destruct (romanizer w) as [r|e]; cbn [mbind exc_bind]; [apply IH|].
      destruct e; try done; apply IH.
Qed.

(** The lexicon holds what the romanizer returns on the words of the
    source. *)
Lemma lexicon_members (source : list (str * str)) (lexicon : gset str) (r : str) :
  load_lexicon romanizer source = Ok lexicon →
  r ∈ lexicon ↔ Exists (λ wg : str * str, romanizer wg.1 = Ok r) source.
Proof.
  intros Hrun. rewrite Exists_exists.
  destruct (decide (Forall (λ wg, tolerated (romanizer wg.1)) source)) as [Hall|Hnot].
  - destruct (lexicon_loop source ∅ Hall) as (lexicon' & Hrun' & Hin).
    unfold load_lexicon in Hrun. rewrite Hrun in Hrun'. injection Hrun' as <-.
    rewrite Hin, elem_of_empty. tauto.
  - destruct (first_untolerated source Hnot) as (pre & w & g & post & e & -> & Hpre & Hw & He).
    unfold load_lexicon in Hrun.
    by rewrite (lexicon_loop_Raise pre post w g e ∅ Hpre Hw He) in Hrun.
Qed.

Lemma lexical_shared (source : list (str * str)) (lexicon : gset str) (entry : Bisyllable) :
  load_lexicon romanizer source = Ok lexicon →
  lexical jamo_to_hangul romanizer lexicon entry
  ↔ shared_romanization jamo_to_hangul romanizer source entry.
Proof.
  intros Hrun. unfold lexical, shared_romanization.
  destruct (bi_romanization jamo_to_hangul romanizer entry) as [r|e]; [|done].
  by rewrite (lexicon_members source lexicon r Hrun).
Qed.

(** X11. With the lexicon loaded from the source, the disyllable pass
    suppresses a disyllable exactly when its romanization is non-empty and
    is the romanization of some word of the source: the rows written are
    the lines of the other disyllables, in order, the suppressed ones are
    logged with their Hangul and romanization, and [filtered] is their
    number. *)
Theorem filtered_iff_shared_romanization (source : list (str * str)) (lexicon : gset str)
    (entries : list Bisyllable) :
  load_lexicon romanizer source = Ok lexicon →
  Forall (λ entry, is_ok (bi_line jamo_to_hangul romanizer entry) = true) entries →
  ∃ p,
    filter_pass jamo_to_hangul romanizer lexicon entries = Ok p
    ∧ Forall2 (λ l entry, bi_line jamo_to_hangul romanizer entry = Ok l) (written p)
              (filter (λ entry, ¬ shared_romanization jamo_to_hangul romanizer source entry)
                      entries)
    ∧ Forall2 (λ hr entry, bi_hangul jamo_to_hangul entry = Ok hr.1
                            ∧ bi_romanization jamo_to_hangul romanizer entry = Ok hr.2)
              (logged p)
              (filter (shared_romanization jamo_to_hangul romanizer source) entries)
    ∧ filtered p
      = length (filter (shared_romanization jamo_to_hangul romanizer source) entries)
    ∧ ∀ entry,
        shared_romanization jamo_to_hangul romanizer source entry
        ↔ ∃ r wg, bi_romanization jamo_to_hangul romanizer entry = Ok r ∧ r ≠ []
                  ∧ wg ∈ source ∧ romanizer wg.1 = Ok r.
Proof.
  intros Hrun Hall.
  destruct (filter_loop jamo_to_hangul romanizer lexicon entries (mkPass 0 [] []) Hall)
    as (p' & lines & logs & Hpass & Hl & Hg & Hw & Hlog & Hf).
  rewrite (list_filter_iff _ (shared_romanization jamo_to_hangul romanizer source))
    in Hg, Hf by (intros entry; by apply lexical_shared).
  rewrite (list_filter_iff _
             (λ entry, ¬ shared_romanization jamo_to_hangul romanizer source entry))
    in Hl by (intros entry; by rewrite (lexical_shared source lexicon entry Hrun)).
  eexists. unfold filter_pass. rewrite Hpass. cbn [mbind exc_bind].
  split; [reflexivity|]. cbn [written logged filtered] in *.
  rewrite Hw, Hlog, Hf, !app_nil_r, !reverse_involutive.
  split; [exact Hl|]. split; [exact Hg|]. split; [done|].
  intros entry. unfold shared_romanization.
  destruct (bi_romanization jamo_to_hangul romanizer entry) as [r|e].
  - rewrite Exists_exists. split.
    + intros [Hne (wg & Hwg & Hr)]. by exists r, wg.
    + intros (r' & wg & [= <-] & Hne & Hwg & Hr). split; [done|]. by exists wg.
  - split; [done|]. by intros (r' & wg & ? & _).
Qed.

End LexiconProperties.

(** The lexicon holds one word, which romanizes to "pan" as the first of
    the two entries does; the second, whose Hangul is empty, is written. *)
Lemma filtered_iff_shared_romanization_witness :
  ∃ p,
    filter_pass toy_jamo_to_hangul pan_romanizer ({[ lit "pan" ]} ∪ ∅) two_entries = Ok p
    ∧ Forall2 (λ l entry, bi_line toy_jamo_to_hangul pan_romanizer entry = Ok l) (written p)
              (filter (λ entry, ¬ shared_romanization toy_jamo_to_hangul pan_romanizer
                                    [(lit "반", lit "half")] entry) two_entries)
    ∧ Forall2 (λ hr entry, bi_hangul toy_jamo_to_hangul entry = Ok hr.1
                            ∧ bi_romanization toy_jamo_to_hangul pan_romanizer entry = Ok hr.2)
              (logged p)
              (filter (shared_romanization toy_jamo_to_hangul pan_romanizer
                         [(lit "반", lit "half")]) two_entries)
    ∧ filtered p
      = length (filter (shared_romanization toy_jamo_to_hangul pan_romanizer
                          [(lit "반", lit "half")]) two_entries)
    ∧ ∀ entry,
        shared_romanization toy_jamo_to_hangul pan_romanizer [(lit "반", lit "half")] entry
        ↔ ∃ r wg, bi_romanization toy_jamo_to_hangul pan_romanizer entry = Ok r ∧ r ≠ []
                  ∧ wg ∈ [(lit "반", lit "half")] ∧ pan_romanizer wg.1 = Ok r.
Proof.
  apply (filtered_iff_shared_romanization toy_jamo_to_hangul pan_romanizer
           [(lit "반", lit "half")]); [reflexivity|by_compute].
Defined.

(* ===================================================================== *)
(** ** The two [main] functions of the generator scripts *)
(* ===================================================================== *)

(** *** Loops that collect one value for each element *)

Lemma is_ok_bind {A B} (m : exc A) (f : A → exc B) :
  is_ok (m ≫= f) = true ↔ ∃ a, m = Ok a ∧ is_ok (f a) = true.
Proof.
  destruct m as [a|e]; cbn [mbind exc_bind].
  - split; [by exists a|]. by intros (a' & [= <-] & ?).
  - split; [discriminate|]. by intros (a' & ? & _).
Qed.

Lemma bind_Ok_l {A B} (a : A) (f : A → exc B) : Ok a ≫= f = f a.
Proof. reflexivity. Qed.

(** A loop whose body fails or not whatever the state succeeds exactly
    when every element passes. *)
Lemma for_is_ok {A S} (P : A → Prop) (xs : list A) (body : A → S → exc S) :
  (∀ x s, x ∈ xs → is_ok (body x s) = true ↔ P x) →
  ∀ s, is_ok (for_ xs body s) = true ↔ Forall P xs.
Proof.
  induction xs as [|x xs IH]; intros Hbody s; cbn [for_].
  { split; [constructor|done]. }
  rewrite is_ok_bind, Forall_cons. split.
  - intros (s' & Hx & Hxs). split.
    + apply (Hbody x s); [by left|]. by rewrite Hx.
    + apply (IH (λ y t Hy, Hbody y t (list_elem_of_further _ _ _ Hy)) s'), Hxs.
  - intros [Hx Hxs]. apply (Hbody x s) in Hx; [|by left].
    destruct (body x s) as [s'|]; [|discriminate]. exists s'. split; [done|].
    by apply (IH (λ y t Hy, Hbody y t (list_elem_of_further _ _ _ Hy)) s').
Qed.

Lemma for_collect {A B} (f : A → exc B) (xs : list A) (acc rows : list B) :
  for_ xs (λ x rows, l ← f x; Ok (l :: rows)) acc = Ok rows →
  ∃ ls, rows = reverse ls ++ acc ∧ Forall2 (λ l x, f x = Ok l) ls xs.
Proof.
  revert acc. induction xs as [|x xs IH]; intros acc; cbn [for_].
  { intros [= <-]. by exists []. }
  intros (rows1 & Hx & Hxs)%bind_Ok. apply bind_Ok in Hx as (l & Hl & [= <-]).
  destruct (IH _ Hxs) as (ls & -> & Hls). exists (l :: ls).
  split; [by rewrite reverse_cons, <- app_assoc|by constructor].
Qed.

Lemma for_collect_Ok {A B} (f : A → exc B) (xs : list A) (acc : list B) :
  Forall (λ x, is_ok (f x) = true) xs →
  ∃ ls, for_ xs (λ x rows, l ← f x; Ok (l :: rows)) acc = Ok (reverse ls ++ acc)
        ∧ Forall2 (λ l x, f x = Ok l) ls xs.
Proof.
  intros Hall. revert acc. induction Hall as [|x xs Hx _ IH]; intros acc; cbn [for_].
  { by exists []. }
  destruct (f x) as [l|] eqn:Hl; [|discriminate]. cbn [mbind exc_bind].
  destruct (IH (l :: acc)) as (ls & -> & Hls). exists (l :: ls).
  split; [by rewrite reverse_cons, <- app_assoc|by constructor].
Qed.

Section MainProperties.
Variable jamo_to_hangul : str → str → str → exc str.
Variable romanizer : str → exc str.

Lemma hangul_spelled (m : Monosyllable) :
  (∀ o n c e, jamo_to_hangul o n c = Raise e → e = TypeError) →
  spelled m → is_ok (jamo m) = true ∧ is_ok (hangul jamo_to_hangul m) = true.
Proof.
  intros Hcompose Hm. unfold spelled in Hm. unfold jamo, hangul.
  destruct (jamo_tuple m) as [[[o n] c]|]; [|done]. cbn [mbind exc_bind]. split; [done|].
  destruct (jamo_to_hangul o n c) as [h|e] eqn:Hj; [done|].
  by rewrite (Hcompose _ _ _ _ Hj).
Qed.

(** X12. When the composition routine raises nothing but [TypeError],
    [main] of kor.py runs to its end and writes one row for every
    monosyllable and one for every disyllable the generators yield, in
    their order: no table lookup fails and nothing is left out. *)
Theorem kor_main_writes_all :
  (∀ o n c e, jamo_to_hangul o n c = Raise e → e = TypeError) →
  ∃ table1 table2,
    kor_main jamo_to_hangul = Ok (table1, table2)
    ∧ Forall2 (λ l m, kor_mono_line jamo_to_hangul m = Ok l) table1 monosyllables_out
    ∧ Forall2 (λ l b, kor_bi_line jamo_to_hangul b = Ok l) table2 disyllables_out.
Proof.
  intros Hcompose.
  assert (H1 : Forall (λ m, is_ok (kor_mono_line jamo_to_hangul m) = true) monosyllables_out).
  { eapply Forall_impl; [exact monosyllables_spelled|]. intros m Hm.
    destruct (hangul_spelled m Hcompose Hm) as [Hj Hh]. unfold kor_mono_line.
    destruct (jamo m); [|discriminate]. by destruct (hangul jamo_to_hangul m). }
  assert (H2 : Forall (λ b, is_ok (kor_bi_line jamo_to_hangul b) = true) disyllables_out).
  { eapply Forall_impl; [exact disyllables_spelled|]. intros b [Hb1 Hb2].
    destruct (hangul_spelled _ Hcompose Hb1) as [Hj1 Hh1].
    destruct (hangul_spelled _ Hcompose Hb2) as [Hj2 Hh2].
    unfold kor_bi_line, bi_jamo, bi_hangul.
    destruct (jamo (syl1 b)); [|discriminate]. destruct (jamo (syl2 b)); [|discriminate].
    destruct (hangul jamo_to_hangul (syl1 b)) as [h1|]; [|discriminate].
    destruct (hangul jamo_to_hangul (syl2 b)) as [h2|]; [|discriminate].
    cbn [mbind exc_bind]. by destruct (negb (truthy h1) || negb (truthy h2)). }
  destruct (for_collect_Ok _ _ [] H1) as (t1 & Hrun1 & Ht1).
  destruct (for_collect_Ok _ _ [] H2) as (t2 & Hrun2 & Ht2).
  exists t1, t2. split; [|by split].
  unfold kor_main. rewrite monosyllables_run, bind_Ok_l, Hrun1, bind_Ok_l.
  rewrite disyllables_run, bind_Ok_l, Hrun2, bind_Ok_l.
  by rewrite !app_nil_r, !reverse_involutive.
Qed.
Lemma mono_line_ok (m : Monosyllable) :
  is_ok (mono_line jamo_to_hangul romanizer m)
  = is_ok (romanization jamo_to_hangul romanizer m).
Proof.
  unfold mono_line, romanization, jamo, hangul.
  destruct (jamo_tuple m) as [[[o n] c]|]; [|done]. cbn [mbind exc_bind].
  destruct (match jamo_to_hangul o n c with Raise TypeError => Ok [] | r => r end) as [h|];
    [|done].
  cbn [mbind exc_bind]. by destruct (_romanize romanizer h).
Qed.

Lemma bi_line_ok (b : Bisyllable) :
  is_ok (bi_line jamo_to_hangul romanizer b)
  = is_ok (bi_romanization jamo_to_hangul romanizer b).
Proof.
  unfold bi_line, bi_romanization, bi_hangul, bi_jamo, jamo, hangul.
  destruct (jamo_tuple (syl1 b)) as [[[o1 n1] c1]|]; [|done]. cbn [mbind exc_bind].
  destruct (match jamo_to_hangul o1 n1 c1 with Raise TypeError => Ok [] | r => r end)
    as [h1|]; cbn [mbind exc_bind].
  2: { by destruct (jamo_tuple (syl2 b)) as [[[o2 n2] c2]|]. }
  destruct (jamo_tuple (syl2 b)) as [[[o2 n2] c2]|]; [|done]. cbn [mbind exc_bind].
  destruct (match jamo_to_hangul o2 n2 c2 with Raise TypeError => Ok [] | r => r end)
    as [h2|]; [|done].
  cbn [mbind exc_bind].
  destruct (negb (truthy h1) || negb (truthy h2)); cbn [mbind exc_bind].
  - by destruct (_romanize romanizer []).
  - by destruct (_romanize romanizer (h1 ++ h2)).
Qed.

Lemma filter_entry_ok (lexicon : gset str) (b : Bisyllable) (p : pass) :
  is_ok (filter_entry jamo_to_hangul romanizer lexicon b p)
  = is_ok (bi_romanization jamo_to_hangul romanizer b).
Proof.
  pose proof (bi_line_ok b) as Hline. unfold filter_entry.
  destruct (bi_romanization jamo_to_hangul romanizer b) as [r|] eqn:Hr; [|done].
  cbn [mbind exc_bind].
  destruct (truthy r && bool_decide (r ∈ lexicon)).
  - unfold bi_romanization in Hr.
    by destruct (bi_hangul jamo_to_hangul b) as [h|].
  - by destruct (bi_line jamo_to_hangul romanizer b).
Qed.

Lemma length_filter_split {A} (P : A → Prop) `{∀ x, Decision (P x)} (l : list A) :
  length (filter P l) + length (filter (λ x, ¬ P x) l) = length l.
Proof. by rewrite <- length_app, filter_app_complement. Qed.

Section Run.
(** What the two generators yield, kept abstract. *)
Variables (monos : list Monosyllable) (entries : list Bisyllable).

Lemma generate_main_run (source : list (str * str)) :
  _monosyllables = Ok monos → _disyllables = Ok entries →
  generate_main jamo_to_hangul romanizer source
  = main_body jamo_to_hangul romanizer monos entries source.
Proof.
  intros Hmonos Hentries. unfold generate_main, main_body.
  rewrite Hmonos, Hentries, bind_Ok_l.
  destruct (for_ monos _ []) as [t1|]; [|reflexivity]. rewrite !bind_Ok_l.
  destruct (load_lexicon romanizer source) as [lexicon|]; [|reflexivity].
  rewrite !bind_Ok_l. reflexivity.
Qed.

Lemma mono_loop_ok (rows : list line) :
  is_ok (for_ monos
           (λ entry rows, l ← mono_line jamo_to_hangul romanizer entry; Ok (l :: rows)) rows)
  = true
  ↔ Forall (λ m, is_ok (romanization jamo_to_hangul romanizer m) = true) monos.
Proof.
  apply for_is_ok. intros m rows' _. rewrite <- mono_line_ok.
  by destruct (mono_line jamo_to_hangul romanizer m).
Qed.

Lemma filter_loop_ok (lexicon : gset str) (p : pass) :
  is_ok (for_ entries (filter_entry jamo_to_hangul romanizer lexicon) p) = true
  ↔ Forall (λ b, is_ok (bi_romanization jamo_to_hangul romanizer b) = true) entries.
Proof. apply for_is_ok. intros b p' _. by rewrite filter_entry_ok. Qed.

Lemma main_body_ok (source : list (str * str)) :
  is_ok (main_body jamo_to_hangul romanizer monos entries source) = true
  ↔ Forall (λ m, is_ok (romanization jamo_to_hangul romanizer m) = true) monos
    ∧ Forall (λ wg, tolerated (romanizer wg.1)) source
    ∧ Forall (λ b, is_ok (bi_romanization jamo_to_hangul romanizer b) = true) entries.
Proof.
  unfold main_body. rewrite <- (mono_loop_ok []), (load_lexicon_tolerated romanizer).
  destruct (for_ monos _ []) as [t1|]; [|by split; [|intros [? _]]].
  rewrite bind_Ok_l.
  destruct (load_lexicon romanizer source) as [lexicon|]; [|by split; [|intros (_ & ? & _)]].
  rewrite bind_Ok_l, <- (filter_loop_ok lexicon (mkPass 0 [] [])). unfold filter_pass.
  destruct (for_ entries _ (mkPass 0 [] [])) as [p|]; [|by split; [|intros (_ & _ & ?)]].
  by rewrite !bind_Ok_l.
Qed.

Lemma main_body_tables (source : list (str * str)) (table1 : list line) (p : pass) :
  main_body jamo_to_hangul romanizer monos entries source = Ok (table1, p) →
  Forall2 (λ l m, mono_line jamo_to_hangul romanizer m = Ok l) table1 monos
  ∧ filtered p + length (written p) = length entries.
Proof.
  unfold main_body. intros Hrun.
  apply bind_Ok in Hrun as (t1 & Ht1 & Hrun).
  apply bind_Ok in Hrun as (lexicon & Hlex & Hrun).
  apply bind_Ok in Hrun as (p0 & Hp0 & Hrun). apply Ok_inj in Hrun.
  apply pair_equal_spec in Hrun as [<- <-].
  apply for_collect in Ht1 as (ls & -> & Hls). rewrite app_nil_r, reverse_involutive.
  split; [exact Hls|].
  unfold filter_pass in Hp0. apply bind_Ok in Hp0 as (p' & Hp' & Hp0). apply Ok_inj in Hp0.
  assert (Hlines : Forall (λ b, is_ok (bi_line jamo_to_hangul romanizer b) = true) entries).
  { assert (Hok : is_ok (for_ entries (filter_entry jamo_to_hangul romanizer lexicon)
                           (mkPass 0 [] [])) = true) by (rewrite Hp'; reflexivity).
    apply filter_loop_ok in Hok. eapply Forall_impl; [exact Hok|].
    intros b Hb. rewrite bi_line_ok. exact Hb. }
  destruct (filter_loop jamo_to_hangul romanizer lexicon entries (mkPass 0 [] [])
              Hlines) as (p'' & lines & logs & Hrun & Hl & _ & Hw & _ & Hf).
  rewrite Hrun in Hp'. apply Ok_inj in Hp' as ->. subst p0.
  cbn [filtered written app] in Hw, Hf |- *. rewrite Hf, Hw, app_nil_r, reverse_involutive.
  rewrite (Forall2_length _ _ _ Hl). apply length_filter_split.
Qed.
End Run.

(** X13. [main] of generate.py runs to its end exactly when the
    romanization of every yielded monosyllable and of every yielded
    disyllable succeeds and the romanizer, on every word of the lexicon
    source, returns or raises [KeyError] or [AttributeError]. It has then
    written one row for every yielded monosyllable, in order, and every
    yielded disyllable is either counted as filtered or written. *)
Theorem generate_main_completes (source : list (str * str)) :
  (is_ok (generate_main jamo_to_hangul romanizer source) = true
   ↔ Forall (λ m, is_ok (romanization jamo_to_hangul romanizer m) = true) monosyllables_out
     ∧ Forall (λ wg, tolerated (romanizer wg.1)) source
     ∧ Forall (λ b, is_ok (bi_romanization jamo_to_hangul romanizer b) = true)
              disyllables_out)
  ∧ ∀ table1 p,
      generate_main jamo_to_hangul romanizer source = Ok (table1, p) →
      Forall2 (λ l m, mono_line jamo_to_hangul romanizer m = Ok l) table1 monosyllables_out
      ∧ filtered p + length (written p) = length disyllables_out.
Proof.
  rewrite (generate_main_run _ _ source monosyllables_run disyllables_run). split.
  - apply main_body_ok.
  - intros table1 p. apply main_body_tables.
Qed.
End MainProperties.

(** With the composition routine that fails with [TypeError] on clusters. *)
Lemma kor_main_writes_all_witness :
  ∃ table1 table2,
    kor_main toy_jamo_to_hangul = Ok (table1, table2)
    ∧ Forall2 (λ l m, kor_mono_line toy_jamo_to_hangul m = Ok l) table1 monosyllables_out
    ∧ Forall2 (λ l b, kor_bi_line toy_jamo_to_hangul b = Ok l) table2 disyllables_out.
Proof.
  apply (kor_main_writes_all toy_jamo_to_hangul).
  intros o n c e. unfold toy_jamo_to_hangul. case_bool_decide; [discriminate|].
  intros [= <-]. reflexivity.
Defined.

(* ===================================================================== *)
(** ** The sampler, further *)
(* ===================================================================== *)

(** *** The row processor *)

Lemma skipped_not_retained (r : row) : skipped r → ¬ retained r.
Proof. unfold skipped, retained. intros Hs Hr. by rewrite Hr in Hs. Qed.

Lemma proc_row_readable (r : row) (out : list (str * row)) :
  readable r →
  _proc_row r out = Ok (if decide (retained r) then processed r :: out else out).
Proof.
  intros [Hs|Hc].
  - rewrite decide_False by by apply skipped_not_retained.
    unfold skipped in Hs. destruct (r !! lit "lexicality") as [v|] eqn:Hv; [|done].
    by apply (proc_row_skipped r v).
  - destruct (decide (retained r)) as [Hr|Hr]; [by apply proc_row_retained|].
    apply Forall_cons in Hc as [[v Hv] _].
    apply (proc_row_skipped r v); [done|]. intros ->. by apply Hr.
Qed.

Lemma proc_file_loop_readable (source : list row) (out : list (str * row)) :
  Forall readable source →
  for_ source _proc_row out = Ok (reverse (processed <$> filter retained source) ++ out).
Proof.
  intros Hall. revert out. induction Hall as [|r source Hr _ IH]; intros out; [done|].
  cbn [for_]. rewrite proc_row_readable by done. cbn [mbind exc_bind]. rewrite IH.
  rewrite filter_cons. destruct (decide (retained r)); [|done].
  by rewrite fmap_cons, reverse_cons, <- app_assoc.
Qed.

Lemma proc_file_Ok_readable (source : list row) :
  Forall readable source → _proc_file source = Ok (processed <$> filter retained source).
Proof.
  intros Hall. unfold _proc_file. rewrite proc_file_loop_readable by done.
  cbn [fmap exc_fmap]. by rewrite app_nil_r, reverse_involutive.
Qed.

(** Leaving out a row that is passed over changes nothing, whatever the
    other rows are. *)
Lemma proc_file_drop_skipped (pre post : list row) (r : row) :
  skipped r → _proc_file (pre ++ r :: post) = _proc_file (pre ++ post).
Proof.
  intros Hr. unfold _proc_file. f_equal. generalize (@nil (str * row)).
  induction pre as [|r0 pre IH]; intros out; cbn [app for_].
  - rewrite proc_row_readable by by left.
    by rewrite decide_False by by apply skipped_not_retained.
  - destruct (_proc_row r0 out) as [out'|]; [|done]. apply IH.
Qed.

(** X14. Only the lexicality column of a row that is passed over is read.
    Leaving such a row out of the input changes nothing, whatever the other
    rows are; and when every row either has a lexicality other than "FALSE"
    (whatever other columns it has or lacks) or has all the columns, the
    processor yields the processed retained rows, in order. *)
Theorem proc_file_skips :
  (∀ pre post r, skipped r → _proc_file (pre ++ r :: post) = _proc_file (pre ++ post))
  ∧ (∀ source, Forall readable source →
       _proc_file source = Ok (processed <$> filter retained source)).
Proof. split; [apply proc_file_drop_skipped|apply proc_file_Ok_readable]. Qed.

(** A row with the lexicality column alone, then a full retained row. *)
Example proc_file_two_rows :
  _proc_file two_rows = Ok (processed <$> filter retained two_rows).
Proof. apply proc_file_Ok_readable. apply (bool_decide_unpack _). vm_compute. exact I. Qed.

Lemma getitem_None (d : gmap str str) (k : str) : d !! k = None → getitem d k = Raise (KeyError k).
Proof. unfold getitem. by intros ->. Qed.

Lemma delitem_None (d : gmap str str) (k : str) : d !! k = None → delitem d k = Raise (KeyError k).
Proof. unfold delitem. by intros ->. Qed.

Lemma lookup_kept (r : row) (k : str) :
  k ≠ lit "lexicality" → k ≠ lit "memo" →
  delete (lit "memo") (delete (lit "lexicality") r) !! k = r !! k.
Proof. intros H1 H2. by rewrite !lookup_delete_ne. Qed.

(** The columns are consulted in the order of [COLUMNS], and the first one
    that is missing is the key of the exception. *)
Lemma proc_row_missing_column (r : row) (k : str) (before after : list str)
    (out : list (str * row)) :
  COLUMNS = before ++ k :: after →
  Forall (λ c, is_Some (r !! c)) before → r !! k = None →
  (k ≠ lit "lexicality" → retained r) →
  _proc_row r out = Raise (KeyError k).
Proof.
  intros Hcols Hbefore Hk Hret. unfold COLUMNS in Hcols.
  destruct before as [|c0 before].
  { injection Hcols as <- _. by apply proc_row_missing. }
  injection Hcols as <- Hcols.
  assert (Hr : retained r).
  { apply Hret. intros ->. apply Forall_cons in Hbefore as [[v Hv] _]. congruence. }
  apply Forall_cons in Hbefore as [_ Hbefore].
  unfold _proc_row. rewrite (getitem_Some _ _ _ Hr). cbn [mbind exc_bind].
  rewrite bool_decide_eq_false_2 by (intros Hne; by apply Hne).
  rewrite (delitem_Some _ _ _ Hr). cbn [mbind exc_bind].
  destruct before as [|c1 before].
  { injection Hcols as <- _. rewrite delitem_None; [reflexivity|].
    by rewrite lookup_delete_ne by by_compute. }
  injection Hcols as <- Hcols. apply Forall_cons in Hbefore as [[v1 Hv1] Hbefore].
  erewrite delitem_Some; [|rewrite lookup_delete_ne by by_compute; exact Hv1].
  cbn [mbind exc_bind].
  repeat (destruct before as [|c before];
          [injection Hcols as <- _;
           match goal with
           | |- getitem ?d ?k ≫= _ = _ => rewrite (getitem_None d k); [reflexivity|]
           end;
           by rewrite lookup_kept by by_compute
          |injection Hcols as <- Hcols;
           apply Forall_cons in Hbefore as [[? Hv] Hbefore];
           match goal with
           | |- getitem _ ?k ≫= _ = _ =>
             rewrite (getitem_kept r k _ ltac:(by_compute) ltac:(by_compute) Hv)
           end;
           cbn [mbind exc_bind]; clear Hv]).
  destruct before; discriminate Hcols.
Qed.

(** X15. The first row that cannot be processed ends the run with
    [KeyError]: the key is the first column, in the order lexicality, memo,
    shape, onset1, nucleus1, onset2, nucleus2, coda, that the row lacks
    (a column after lexicality is only consulted on a retained row). *)
Theorem proc_file_missing_column (pre post : list row) (r : row) (k : str)
    (before after : list str) :
  Forall readable pre →
  COLUMNS = before ++ k :: after →
  Forall (λ c, is_Some (r !! c)) before → r !! k = None →
  (k ≠ lit "lexicality" → retained r) →
  _proc_file (pre ++ r :: post) = Raise (KeyError k).
Proof.
  intros Hpre Hcols Hbefore Hk Hret. unfold _proc_file.
  assert (Hrun : ∀ out, for_ (pre ++ r :: post) _proc_row out = Raise (KeyError k)).
  { induction Hpre as [|r0 pre Hr0 _ IH]; intros out; cbn [app for_].
    - by rewrite (proc_row_missing_column r k before after).
    - rewrite proc_row_readable by done. cbn [mbind exc_bind]. apply IH. }
  by rewrite Hrun.
Qed.

(** After a skipped row, the row with the monosyllable columns: the first
    column it lacks is onset1. *)
Lemma proc_file_missing_column_witness :
  _proc_file ([ {[ lit "lexicality" := lit "TRUE" ]} ] ++ monosyllable_row :: two_rows)
  = Raise (KeyError (lit "onset1")).
Proof.
  apply (proc_file_missing_column _ _ _ _ [lit "lexicality"; lit "memo"; lit "shape"]
           [lit "nucleus1"; lit "onset2"; lit "nucleus2"; lit "coda"]).
  - apply (bool_decide_unpack _). vm_compute. exact I.
  - reflexivity.
  - apply (bool_decide_unpack _). vm_compute. exact I.
  - vm_compute. reflexivity.
  - intros _. vm_compute. reflexivity.
Defined.

(** *** Grouping *)

Lemma keys_by_shape_append (d : list (str * list row)) (k : str) (r : row) :
  (by_shape_append d k r).*1 = if decide (k ∈ d.*1) then d.*1 else d.*1 ++ [k].
Proof.
  induction d as [|[k0 es] d IH]; cbn [by_shape_append fmap list_fmap fst].
  { rewrite decide_False; [done|]. apply not_elem_of_nil. }
  case_bool_decide as Hk0.
  - subst k0. rewrite decide_True by by left. done.
  - cbn [fmap list_fmap fst]. fold (fmap (M:=list) (@fst str (list row))). rewrite IH.
    destruct (decide (k ∈ d.*1)) as [Hin|Hin].
    + rewrite decide_True by by right. done.
    + rewrite decide_False; [done|]. intros [->|?]%elem_of_cons; done.
Qed.

Lemma first_occurrences_snoc (l : list str) (k : str) :
  reverse (remove_dups (reverse (l ++ [k])))
  = if decide (k ∈ reverse (remove_dups (reverse l)))
    then reverse (remove_dups (reverse l))
    else reverse (remove_dups (reverse l)) ++ [k].
Proof.
  rewrite reverse_app, reverse_singleton. cbn [app remove_dups].
  destruct (decide_rel elem_of k (reverse l)) as [Hin|Hin].
  - rewrite decide_True; [done|]. by rewrite elem_of_reverse, elem_of_remove_dups.
  - rewrite decide_False; [by rewrite reverse_cons|].
    by rewrite elem_of_reverse, elem_of_remove_dups.
Qed.

(** X16. The groups of [by_shape] are keyed by the distinct shapes in the
    order of their first occurrence, and each group holds, in order, the
    rows of its shape. *)
Theorem group_by_shape_spec (ys : list (str * row)) :
  (group_by_shape ys).*1 = reverse (remove_dups (reverse ys.*1))
  ∧ Forall (λ g : str * list row, g.2 = (filter (λ y : str * row, y.1 = g.1) ys).*2)
           (group_by_shape ys).
Proof.
  split; [|apply group_by_shape_groups].
  unfold group_by_shape. induction ys as [|[k r] ys IH] using rev_ind; [done|].
  rewrite foldl_app. cbn [foldl]. rewrite keys_by_shape_append, IH.
  rewrite fmap_app. change ([(k, r)].*1) with [k]. by rewrite first_occurrences_snoc.
Qed.

(** *** The writer and the outcome of [main] *)

(** [writerows] writes the rows before the first one with a column outside
    the header, and fails there. *)
Lemma writerows_spec (fieldnames : gset str) (rs : list row) :
  (Forall (λ x : row, dom x ⊆ fieldnames) rs → writerows fieldnames rs = (rs, None))
  ∧ (¬ Forall (λ x : row, dom x ⊆ fieldnames) rs →
     ∃ w, writerows fieldnames rs = (w, Some ValueError)
          ∧ w `prefix_of` rs ∧ length w < length rs
          ∧ Forall (λ x : row, dom x ⊆ fieldnames) w).
Proof.
  induction rs as [|x rs [IH1 IH2]]; cbn [writerows].
  { split; [done|]. intros []. constructor. }
  case_bool_decide as Hx.
  - split.
    + intros [_ Hrs]%Forall_cons. by rewrite IH1.
    + intros Hnot. destruct IH2 as (w & -> & Hpre & Hlen & Hw).
      { intros Hrs. apply Hnot. by constructor. }
      exists (x :: w). split; [done|]. split; [by apply prefix_cons|].
      split; [cbn; lia|by constructor].
  - split.
    + by intros [? _]%Forall_cons.
    + intros _. exists []. split; [done|]. split; [apply prefix_nil|].
      split; [cbn; lia|constructor].
Qed.

Section SamplerExtras.
Context {rng : Type} (seed : Z → rng) (shuffle : rng → list row → rng * list row).

Lemma main_lists_readable (mono di : list row) :
  Forall readable mono → Forall readable di →
  main_lists seed shuffle mono di
  = s ← sample_loop seed shuffle mono di;
    let '(g, l1) := shuffle (gen s) (list1 s) in
    let '(g, l2) := shuffle g (list2 s) in
    Ok (last (retained_rows mono di).*2, l1, l2).
Proof.
  intros Hm Hd. unfold main_lists, sample_loop, retained_rows.
  rewrite !proc_file_Ok_readable by done. cbn [mbind exc_bind].
  by rewrite filter_app, !fmap_app.
Qed.

(** X17. The writing stage of [main]: the header of both files is the set
    of columns of the last row the processor yielded. When no sampled row
    has a column outside it, the two files receive the two lists. A row of
    the first list with a column outside the header ends the run with
    [ValueError]: the first file holds the rows before it and the second
    file is never opened. A row of the second list with such a column ends
    the run after the first file is complete. *)
Theorem main_writing_stage (mono di : list row) (r : row) (l1 l2 : list row) :
  main_lists seed shuffle mono di = Ok (Some r, l1, l2) →
  (Forall (λ x : row, dom x ⊆ dom r) (l1 ++ l2) →
   main seed shuffle mono di
   = (mkFiles (Some (Table (dom r) l1)) (Some (Table (dom r) l2)), None))
  ∧ (¬ Forall (λ x : row, dom x ⊆ dom r) l1 →
     ∃ w, main seed shuffle mono di
          = (mkFiles (Some (Table (dom r) w)) None, Some ValueError)
          ∧ w `prefix_of` l1 ∧ length w < length l1)
  ∧ (Forall (λ x : row, dom x ⊆ dom r) l1 → ¬ Forall (λ x : row, dom x ⊆ dom r) l2 →
     ∃ w, main seed shuffle mono di
          = (mkFiles (Some (Table (dom r) l1)) (Some (Table (dom r) w)), Some ValueError)
          ∧ w `prefix_of` l2 ∧ length w < length l2).
Proof.
  intros Hrun. unfold main. rewrite Hrun.
  destruct (writerows_spec (dom r) l1) as [H1 H1'], (writerows_spec (dom r) l2) as [H2 H2'].
  split; [|split].
  - intros [Hl1 Hl2]%Forall_app. by rewrite H1, H2.
  - intros Hl1. destruct (H1' Hl1) as (w & -> & Hpre & Hlen & _). by exists w.
  - intros Hl1 Hl2. rewrite H1 by done.
    destruct (H2' Hl2) as (w & -> & Hpre & Hlen & _). by exists w.
Qed.

Lemma sample_group_cases (k : str) (entries : list row) (s : sampler) :
  (sufficient (k, entries) → ∃ s', sample_group shuffle (k, entries) s = Ok s')
  ∧ (deficient (k, entries) →
     sample_group shuffle (k, entries) s = Raise (AssertionError k (length entries))).
Proof.
  unfold sufficient, deficient, sample_group. cbn [fst snd]. split; intros Hlen.
  - rewrite bool_decide_eq_true_2 by done.
    destruct (shuffle (gen s) entries) as [g elist]. by eexists.
  - rewrite bool_decide_eq_false_2; [done|lia].
Qed.

(** The loop over the groups ends at the first group that is too small,
    whatever the shuffles return. *)
Lemma sample_loop_first (pre post : list (str * list row)) (k : str) (entries : list row)
    (s : sampler) :
  Forall sufficient pre → deficient (k, entries) →
  for_ (pre ++ (k, entries) :: post) (sample_group shuffle) s
  = Raise (AssertionError k (length entries)).
Proof.
  intros Hpre Hdef. revert s.
  induction Hpre as [|[k0 es0] pre Hsuf _ IH]; intros s; cbn [app for_].
  - by rewrite (proj2 (sample_group_cases k entries s) Hdef).
  - destruct (proj1 (sample_group_cases k0 es0 s) Hsuf) as [s' ->]. apply IH.
Qed.

Lemma sample_loop_exn (groups : list (str * list row)) (s : sampler) (e : exn) :
  for_ groups (sample_group shuffle) s = Raise e → ∃ k n, e = AssertionError k n.
Proof.
  revert s. induction groups as [|[k es] groups IH]; intros s; cbn [for_]; [done|].
  destruct (decide (sufficient (k, es))) as [Hsuf|Hdef].
  - destruct (proj1 (sample_group_cases k es s) Hsuf) as [s' ->]. apply IH.
  - apply deficient_not_sufficient in Hdef.
    rewrite (proj2 (sample_group_cases k es s) Hdef). intros [= <-]. by eexists _, _.
Qed.

(** X18. When several shape groups are too small, the assertion reports the
    first of them in the order of the groups, with the number of its rows,
    whatever the shuffles return; no file is opened. *)
Theorem first_deficient_group_reported (mono di : list row)
    (pre post : list (str * list row)) (k : str) (entries : list row) :
  Forall readable mono → Forall readable di →
  group_by_shape (retained_rows mono di) = pre ++ (k, entries) :: post →
  Forall sufficient pre → deficient (k, entries) →
  main seed shuffle mono di = (mkFiles None None, Some (AssertionError k (length entries))).
Proof.
  intros Hm Hd Hgroups Hpre Hdef. unfold main.
  rewrite main_lists_readable by done. unfold sample_loop. rewrite Hgroups.
  by rewrite sample_loop_first.
Qed.

(** X19. When no row of either table is retained, [main] opens the first
    output file and ends with [UnboundLocalError] on the loop variable
    [row], leaving the file empty and the second file unopened; and
    [main] ends with that exception only then. *)
Theorem main_nothing_retained (mono di : list row) :
  Forall readable mono → Forall readable di →
  (filter retained (mono ++ di) = [] →
   main seed shuffle mono di
   = (mkFiles (Some Empty) None, Some (UnboundLocalError (lit "row"))))
  ∧ ((main seed shuffle mono di).2 = Some (UnboundLocalError (lit "row")) →
     filter retained (mono ++ di) = []).
Proof.
  intros Hm Hd. unfold main. rewrite main_lists_readable by done.
  unfold sample_loop, retained_rows. split.
  - intros ->. cbn [fmap list_fmap group_by_shape foldl for_ mbind exc_bind last gen list1 list2].
    destruct (shuffle (seed SEED) []) as [g l1]. by destruct (shuffle g []) as [g' l2].
  - destruct (for_ _ (sample_group shuffle) _) as [s|e] eqn:Hloop; cbn [mbind exc_bind].
    + destruct (shuffle (gen s) (list1 s)) as [g l1], (shuffle g (list2 s)) as [g' l2].
      destruct (last (processed <$> filter retained (mono ++ di)).*2) as [r|] eqn:Hlast.
      * pose proof (writerows_exn (dom r) l1) as H1.
        pose proof (writerows_exn (dom r) l2) as H2.
        destruct (writerows (dom r) l1) as [w1 e1], (writerows (dom r) l2) as [w2 e2].
        cbn [snd] in H1, H2. destruct H1 as [-> | ->]; [|done].
        by destruct H2 as [-> | ->].
      * intros _. apply last_None in Hlast. by do 2 apply fmap_nil_inv in Hlast.
    + apply sample_loop_exn in Hloop as (k & n & ->). done.
Qed.
End SamplerExtras.

Section SamplerSizes.
Context {rng : Type} (seed : Z → rng) (shuffle : rng → list row → rng * list row).
Hypothesis shuffle_perm : ∀ g l, (shuffle g l).2 ≡ₚ l.

(** X20. Whatever shapes occur among the retained rows, when every shape
    group holds at least twice its draw size each list has, of every shape
    that occurs, exactly the draw size of that shape, and of no other
    shape anything: the two lists have the same length, the sum of the
    draw sizes of the shapes that occur. That all eight shapes occur is
    not checked. *)
Theorem list_sizes (mono di : list row) :
  Forall has_columns mono → Forall has_columns di →
  Forall sufficient (group_by_shape (retained_rows mono di)) →
  ∃ row_var l1 l2,
    main_lists seed shuffle mono di = Ok (row_var, l1, l2)
    ∧ length l1 = sum_list_with draw_size (group_by_shape (retained_rows mono di)).*1
    ∧ length l2 = length l1
    ∧ ∀ k, count_shape k l1 = count_shape k l2
           ∧ count_shape k l1
             = if decide (k ∈ (retained_rows mono di).*1) then draw_size k else 0.
Proof.
  intros Hm Hd Hsuf.
  destruct (groups_props mono di Hm Hd) as (Hnd & Htag & _ & Hkeys).
  destruct (sample_loop_Ok shuffle shuffle_perm _ (mkSampler (seed SEED) [] [])
              Hnd Htag Hsuf) as (s & Hloop & Hc1 & Hc2 & Hn1 & Hn2 & _).
  destruct (main_lists_Ok seed shuffle shuffle_perm mono di s Hm Hd Hloop)
    as (l1 & l2 & Hrun & Hp1 & Hp2).
  exists (last (retained_rows mono di).*2), l1, l2. split; [exact Hrun|].
  cbn [list1 list2 length] in Hc1, Hc2, Hn1, Hn2.
  split; [by rewrite Hp1, Hn1|]. split; [by rewrite Hp1, Hp2, Hn1, Hn2|].
  intros k. unfold count_shape in *. rewrite Hp1, Hp2, Hc1, Hc2. cbn [filter length].
  split; [done|].
  destruct (decide (k ∈ (group_by_shape (retained_rows mono di)).*1)) as [Hk|Hk].
  - rewrite decide_True by by apply Hkeys. done.
  - rewrite decide_False; [done|]. intros Hk'. by apply Hk, Hkeys.
Qed.
End SamplerSizes.

(** Only the CVC, CVCVC and XYZ shapes occur: each list has 5 + 10 + 10
    rows. *)
Lemma list_sizes_witness :
  ∃ row_var l1 l2,
    main_lists (λ _, 0) reversing_shuffle (sample_rows (lit "CVC") 10) odd_table
    = Ok (row_var, l1, l2)
    ∧ length l1
      = sum_list_with draw_size
          (group_by_shape (retained_rows (sample_rows (lit "CVC") 10) odd_table)).*1
    ∧ length l2 = length l1
    ∧ ∀ k, count_shape k l1 = count_shape k l2
           ∧ count_shape k l1
             = if decide (k ∈ (retained_rows (sample_rows (lit "CVC") 10) odd_table).*1)
               then draw_size k else 0.
Proof.
  apply (list_sizes (λ _, 0) reversing_shuffle reversing_shuffle_perm
           (sample_rows (lit "CVC") 10) odd_table); by_compute.
Defined.

(** The two sample tables: the header is that of the processed rows. *)
Lemma main_writes_lists_witness :
  ∃ row_var l1 l2,
    main_lists (λ _, 0) reversing_shuffle mono_table di_table = Ok (row_var, l1, l2)
    ∧ main (λ _, 0) reversing_shuffle mono_table di_table
      = (mkFiles (Some (Table SAMPLE_COLUMNS l1)) (Some (Table SAMPLE_COLUMNS l2)), None).
Proof.
  apply (main_writes_lists (λ _, 0) reversing_shuffle reversing_shuffle_perm
           mono_table di_table SAMPLE_COLUMNS).
  - by_compute.
  - by_compute.
  - by_compute.
  - intros H. apply (f_equal length) in H. vm_compute in H. discriminate H.
  - by_compute.
Defined.

(** One row, which is passed over. *)
Lemma main_nothing_retained_witness :
  filter retained ([ {[ lit "lexicality" := lit "TRUE" ]} ] ++ []) = []
  ∧ (filter retained ([ {[ lit "lexicality" := lit "TRUE" ]} ] ++ []) = [] →
     main (λ _, 0) reversing_shuffle [ {[ lit "lexicality" := lit "TRUE" ]} ] []
     = (mkFiles (Some Empty) None, Some (UnboundLocalError (lit "row"))))
  ∧ ((main (λ _, 0) reversing_shuffle [ {[ lit "lexicality" := lit "TRUE" ]} ] []).2
     = Some (UnboundLocalError (lit "row")) →
     filter retained ([ {[ lit "lexicality" := lit "TRUE" ]} ] ++ []) = []).
Proof.
  split; [by_compute|].
  apply (main_nothing_retained (λ _, 0) reversing_shuffle
           [ {[ lit "lexicality" := lit "TRUE" ]} ] []).
  - by_compute.
  - constructor.
Defined.

(** Ten CVC rows, then three CVCVC rows and two CwVCVC rows: the CVCVC
    group is the one reported. *)
Lemma first_deficient_group_reported_witness :
  main (λ _, 0) reversing_shuffle (sample_rows (lit "CVC") 10) short_table
  = (mkFiles None None,
     Some (AssertionError (lit "CVCVC")
             (length (processed <$> sample_rows (lit "CVCVC") 3).*2))).
Proof.
  apply (first_deficient_group_reported (λ _, 0) reversing_shuffle
           (sample_rows (lit "CVC") 10) short_table
           [(lit "CVC", (processed <$> sample_rows (lit "CVC") 10).*2)]
           [(lit "CwVCVC", (processed <$> sample_rows (lit "CwVCVC") 2).*2)]).
  - by_compute.
  - by_compute.
  - by_compute.
  - by_compute.
  - by_compute.
Defined.

(** The monosyllable rows carry a gloss column that the last row, a
    disyllable row, lacks. *)
Lemma main_writing_stage_witness :
  let x := main_lists (λ _, 0) reversing_shuffle glossed_table (sample_rows (lit "CVCVC") 20) in
  ¬ Forall (λ r : row, dom r ⊆ dom (outcome_row x)) (outcome_list1 x)
  ∧ ((Forall (λ r : row, dom r ⊆ dom (outcome_row x)) (outcome_list1 x ++ outcome_list2 x) →
      main (λ _, 0) reversing_shuffle glossed_table (sample_rows (lit "CVCVC") 20)
      = (mkFiles (Some (Table (dom (outcome_row x)) (outcome_list1 x)))
                 (Some (Table (dom (outcome_row x)) (outcome_list2 x))), None))
     ∧ (¬ Forall (λ r : row, dom r ⊆ dom (outcome_row x)) (outcome_list1 x) →
        ∃ w, main (λ _, 0) reversing_shuffle glossed_table (sample_rows (lit "CVCVC") 20)
             = (mkFiles (Some (Table (dom (outcome_row x)) w)) None, Some ValueError)
             ∧ w `prefix_of` outcome_list1 x ∧ length w < length (outcome_list1 x))
     ∧ (Forall (λ r : row, dom r ⊆ dom (outcome_row x)) (outcome_list1 x) →
        ¬ Forall (λ r : row, dom r ⊆ dom (outcome_row x)) (outcome_list2 x) →
        ∃ w, main (λ _, 0) reversing_shuffle glossed_table (sample_rows (lit "CVCVC") 20)
             = (mkFiles (Some (Table (dom (outcome_row x)) (outcome_list1 x)))
                        (Some (Table (dom (outcome_row x)) w)), Some ValueError)
             ∧ w `prefix_of` outcome_list2 x ∧ length w < length (outcome_list2 x))).
Proof.
  split; [by_compute|].
  apply (main_writing_stage (λ _, 0) reversing_shuffle glossed_table
           (sample_rows (lit "CVCVC") 20)).
  by_compute.
Defined.

(** *** The generated tables as input of the processor *)

Section Tables.
Variable jamo_to_hangul : str → str → str → exc str.
Variable romanizer : str → exc str.

Lemma mono_line_fields (m : Monosyllable) (l : line) :
  mono_line jamo_to_hangul romanizer m = Ok l →
  ∃ j h r, l = [Some (onset m); Some (nucleus m); coda m; shape m; Some j; Some h; Some r].
Proof.
  unfold mono_line. intros Hl.
  apply bind_Ok in Hl as (j & _ & Hl). apply bind_Ok in Hl as (h & _ & Hl).
  apply bind_Ok in Hl as (r & _ & Hl). injection Hl as <-. by exists j, h, r.
Qed.

Lemma bi_line_fields (b : Bisyllable) (l : line) :
  bi_line jamo_to_hangul romanizer b = Ok l →
  ∃ j h r, l = [Some (onset (syl1 b)); Some (nucleus (syl1 b));
                Some (onset (syl2 b)); Some (nucleus (syl2 b)); coda (syl2 b);
                Some (bi_shape b); Some j; Some h; Some r].
Proof.
  unfold bi_line. intros Hl.
  apply bind_Ok in Hl as (j & _ & Hl). apply bind_Ok in Hl as (h & _ & Hl).
  apply bind_Ok in Hl as (r & _ & Hl). injection Hl as <-. by exists j, h, r.
Qed.

Lemma annotated_row (memo : str) (r : row) :
  r !! lit "lexicality" = None → r !! lit "memo" = None →
  delete (lit "memo") (delete (lit "lexicality") (annotate (lit "FALSE") memo r)) = r.
Proof.
  intros Hlex Hmemo. unfold annotate.
  rewrite delete_insert_eq, delete_insert_ne by by_compute.
  rewrite delete_insert_eq. rewrite !delete_id; try done.
  by rewrite lookup_delete_ne by by_compute.
Qed.

(** X23. The tables of generate.py as input of the row processor, a row being
    annotated with the lexicality "FALSE" and a memo. A row of the
    disyllable table is processed: the result is keyed by the disyllable's
    shape and is the written row with the transcription column added, the
    concatenation of the two onsets, the two nuclei and the coda (empty if
    there is none). A row of the monosyllable table ends the run with
    [KeyError] on onset1: its header has onset, nucleus and coda only. *)
Theorem tables_and_processor (memo : str) (b : Bisyllable) (m : Monosyllable)
    (lb lm : line) :
  bi_line jamo_to_hangul romanizer b = Ok lb →
  mono_line jamo_to_hangul romanizer m = Ok lm →
  _proc_file [annotate (lit "FALSE") memo (as_row DI_HEADER lb)]
  = Ok [(bi_shape b,
         <[ lit "transcription" :=
              onset (syl1 b) ++ nucleus (syl1 b) ++ onset (syl2 b) ++ nucleus (syl2 b)
              ++ text (coda (syl2 b)) ]> (as_row DI_HEADER lb))]
  ∧ _proc_file [annotate (lit "FALSE") memo (as_row MONO_HEADER lm)]
    = Raise (KeyError (lit "onset1")).
Proof.
  intros (j & h & r & ->)%bi_line_fields (j' & h' & r' & ->)%mono_line_fields.
  split.
  - set (row0 := annotate _ _ _).
    assert (Hcols : has_columns row0).
    { unfold has_columns, COLUMNS. repeat (apply Forall_cons; split; [by eexists|]).
      constructor. }
    assert (Hret : retained row0) by reflexivity.
    rewrite (proc_file_Ok [row0]) by by constructor.
    rewrite filter_cons_True, filter_nil by done. cbn [fmap list_fmap].
    unfold processed. subst row0. rewrite annotated_row by reflexivity.
    reflexivity.
  - unfold _proc_file, for_.
    rewrite (proc_row_missing_column _ (lit "onset1")
               [lit "lexicality"; lit "memo"; lit "shape"]
               [lit "nucleus1"; lit "onset2"; lit "nucleus2"; lit "coda"]); try done.
    repeat (apply Forall_cons; split; [by eexists|]). constructor.
Qed.
End Tables.

(** The plain disyllable "pa.nik̚" and the monosyllable "nik̚", with an empty
    memo. *)
Lemma tables_and_processor_witness :
  ∃ lb lm,
    bi_line toy_jamo_to_hangul pan_romanizer
      (plain_bisyllable (lit "p") (lit "a") (lit "n") (lit "i") (lit "k̚")) = Ok lb
    ∧ mono_line toy_jamo_to_hangul pan_romanizer
        (mkMonosyllable (lit "n") (lit "i") (Some (lit "k̚")) (Some (lit "CVC"))) = Ok lm
    ∧ _proc_file [annotate (lit "FALSE") [] (as_row DI_HEADER lb)]
      = Ok [(lit "CVCVC",
             <[ lit "transcription" := lit "panik̚" ]> (as_row DI_HEADER lb))]
    ∧ _proc_file [annotate (lit "FALSE") [] (as_row MONO_HEADER lm)]
      = Raise (KeyError (lit "onset1")).
Proof.
  eexists _, _. split; [vm_compute; reflexivity|]. split; [vm_compute; reflexivity|].
  exact (tables_and_processor toy_jamo_to_hangul pan_romanizer []
           (plain_bisyllable (lit "p") (lit "a") (lit "n") (lit "i") (lit "k̚"))
           (mkMonosyllable (lit "n") (lit "i") (Some (lit "k̚")) (Some (lit "CVC")))
           _ _ eq_refl eq_refl).
Defined.
